(** * Deep Q-learning training loop of rlalgs: replay buffer, exploration
    schedule, target-network synchronisation and the step-granularity trainer.

    Two trainers live in the repository:
    - [rlalgs/dqn/dqn.py], the older one (module [Episodic] below), which owns
      the class [DQNReplayBuffer] and the interpolating [target_update];
    - [rlalgs/algos/dqn/dqn.py], the step-granularity one (module [Stepwise]).

    Floating-point numbers are modelled by exact rationals ([Q], compared
    with [==]); integers by [Z] or [nat]; numpy arrays by lists indexed with
    [!!] and updated with [<[_:=_]>]. *)

From Stdlib Require Import QArith Qminmax Qabs Lqa.
From stdpp Require Import base option list.

Open Scope Q_scope.

(** ** Python exceptions *)

Inductive exn :=
  | AssertionError
  | NotImplementedError
  | IndexError
  | ValueError
  | ZeroDivisionError.

Inductive result (A : Type) :=
  | Ok (a : A)
  | Raise (e : exn).
Arguments Ok {A} a.
Arguments Raise {A} e.

#[global] Instance result_ret : MRet result := @Ok.
#[global] Instance result_bind : MBind result := λ A B f m,
  match m with
  | Ok a => f a
  | Raise e => Raise e
  end.

(** ** numpy helpers *)

Module Np.

(** [np.zeros(n)] for a one-dimensional array, and for an array of [n] rows
    of [dim] entries. *)
Definition zeros (n : nat) : list Q := replicate n 0.
Definition zeros2 (n dim : nat) : list (list Q) := replicate n (replicate dim 0).

(** A python int used as a float, and a python bool stored in a float array. *)
Definition of_nat (n : nat) : Q := inject_Z (Z.of_nat n).
Definition of_bool (d : bool) : Q := if d then 1 else 0.

(** [x < y] on floats. *)
Definition ltb (x y : Q) : bool := negb (Qle_bool y x).

(** [np.sum] and [np.mean] of a one-dimensional array (the mean of an empty
    array is NaN in numpy; here it is [0 / 0 = 0]). *)
Definition sum (l : list Q) : Q := foldr Qplus 0 l.
Definition mean (l : list Q) : Q := sum l / of_nat (length l).

(** [np.linspace(start, stop, num)] with the default [endpoint=True] (numpy,
    not part of the repository): [num] evenly spaced samples over
    [start .. stop]; the step is [(stop - start) / (num - 1)], and the last
    sample is set to [stop] itself. *)
Definition linspace (start stop : Q) (num : nat) : list Q :=
  let div := (num - 1)%nat in
  let delta := stop - start in
  let y := if decide (0 < div)%nat
           then (λ i, of_nat i * (delta / of_nat div) + start) <$> seq 0 num
           else (λ i, of_nat i * delta + start) <$> seq 0 num in
  if decide (1 < num)%nat then <[(num - 1)%nat := stop]> y else y.

(** [np.random.choice(a, size)] with the defaults [replace=True] and [p=None]
    (numpy, not part of the repository): [size] draws from [arange(a)], each
    uniform and independent of the others.  The generator's entropy is an
    explicit argument, one natural number per draw; the probability law
    itself is outside the model.  An empty population raises ValueError. *)
Definition random_choice (a n : nat) (entropy : nat → nat) : result (list nat) :=
  if decide (a = 0)%nat then Raise ValueError
  else Ok ((λ k, entropy k mod a)%nat <$> seq 0 n).

(** [np.random.choice(a)]: a single draw. *)
Definition random_choice1 (a : nat) (entropy : nat) : result nat :=
  if decide (a = 0)%nat then Raise ValueError else Ok (entropy mod a)%nat.

End Np.

(** ** The replay buffer ([class DQNReplayBuffer], rlalgs/dqn/dqn.py) *)

Module Buffer.

(** An observation is a vector of floats. *)
Definition Obs : Type := list Q.

(** One experience [(o_t, a_t, r_t, o_t+1, d_t)] as the buffer's arrays hold
    it.  The arrays have dtype float32: the action index and the done flag
    are kept as the numbers they convert to. *)
Record transition := Transition {
  t_o : Obs;
  t_a : Q;
  t_r : Q;
  t_o_prime : Obs;
  t_d : Q
}.

Record DQNReplayBuffer := MkBuffer {
  obs_buf : list Obs;
  act_buf : list Q;
  rew_buf : list Q;
  obs_prime_buf : list Obs;
  done_buf : list Q;
  ptr : nat;
  size : nat;
  capacity : nat
}.

(** [__init__(self, obs_dim, act_dim, capacity)]; the action space is
    discrete, so [act_dim] is the empty shape and [act_buf] has one entry per
    slot. *)
Definition init (obs_dim capacity : nat) : DQNReplayBuffer :=
  {| obs_buf := Np.zeros2 capacity obs_dim;
     act_buf := Np.zeros capacity;
     rew_buf := Np.zeros capacity;
     obs_prime_buf := Np.zeros2 capacity obs_dim;
     done_buf := Np.zeros capacity;
     ptr := 0;
     size := 0;
     capacity := capacity |}.

(** [arr[i] = x] for a scalar [x]: an index past the end raises
    IndexError. *)
Definition set_item {A} (arr : list A) (i : nat) (x : A) : result (list A) :=
  if decide (i < length arr)%nat then Ok (<[i:=x]> arr) else Raise IndexError.

(** What numpy writes into a row of [n] floats when it is assigned the
    vector [o] (numpy's broadcasting, not part of the repository): a vector
    of [n] entries is copied, a vector of one entry fills the row, and any
    other length raises ValueError. *)
Definition broadcast_to (n : nat) (o : Obs) : result Obs :=
  if decide (length o = n) then Ok o
  else match o with
       | [v] => Ok (replicate n v)
       | _ => Raise ValueError
       end.

(** [arr[i] = o] for a two-dimensional [arr]: the index is resolved first
    (IndexError past the end), then [o] is broadcast into the row. *)
Definition set_row (arr : list Obs) (i : nat) (o : Obs) : result (list Obs) :=
  match arr !! i with
  | None => Raise IndexError
  | Some old => filled ← broadcast_to (length old) o; Ok (<[i:=filled]> arr)
  end.

(** [store(self, o, a, r, o_prime, d)]: five writes at [ptr], then the cursor
    and the fill count.  A failed call raises before anything is returned:
    IndexError at the first write when [ptr] is past the end (on a buffer
    made by [init], with capacity 0), ValueError when an observation does
    not fit the rows of its array. *)
Definition store (b : DQNReplayBuffer) (o : Obs) (a r : Q) (o_prime : Obs) (d : Q)
  : result DQNReplayBuffer :=
  obs ← set_row (obs_buf b) (ptr b) o;
  act ← set_item (act_buf b) (ptr b) a;
  rew ← set_item (rew_buf b) (ptr b) r;
  obs' ← set_row (obs_prime_buf b) (ptr b) o_prime;
  done ← set_item (done_buf b) (ptr b) d;
  if decide (capacity b = 0)%nat then Raise ZeroDivisionError else
  Ok {| obs_buf := obs;
        act_buf := act;
        rew_buf := rew;
        obs_prime_buf := obs';
        done_buf := done;
        ptr := (ptr b + 1) mod capacity b;
        size := (size b + 1) `min` capacity b;
        capacity := capacity b |}.

Definition store_transition (b : DQNReplayBuffer) (x : transition) : result DQNReplayBuffer :=
  store b (t_o x) (t_a x) (t_r x) (t_o_prime x) (t_d x).

(** A sequence of [store] calls, oldest first. *)
Fixpoint store_all (b : DQNReplayBuffer) (xs : list transition) : result DQNReplayBuffer :=
  match xs with
  | [] => Ok b
  | x :: xs' => b' ← store_transition b x; store_all b' xs'
  end.

(** [arr[sample_idxs]]: one row per index, IndexError past the end. *)
Definition get_item {A} (arr : list A) (i : nat) : result A :=
  match arr !! i with
  | Some x => Ok x
  | None => Raise IndexError
  end.

Definition take_rows {A} (arr : list A) (idxs : list nat) : result (list A) :=
  mapM (get_item arr) idxs.

(** The dictionary [sample] returns, one array per key. *)
Record batch := Batch {
  b_o : list Obs;
  b_a : list Q;
  b_r : list Q;
  b_o_prime : list Obs;
  b_d : list Q
}.

(** [sample(self, num_samples)]; [entropy] feeds [np.random.choice]. *)
Definition sample (b : DQNReplayBuffer) (num_samples : nat) (entropy : nat → nat)
  : result batch :=
  sample_idxs ← Np.random_choice (size b) num_samples entropy;
  o ← take_rows (obs_buf b) sample_idxs;
  a ← take_rows (act_buf b) sample_idxs;
  r ← take_rows (rew_buf b) sample_idxs;
  o' ← take_rows (obs_prime_buf b) sample_idxs;
  d ← take_rows (done_buf b) sample_idxs;
  Ok (Batch o a r o' d).

(** Row [i] of the five parallel arrays, read as one transition. *)
Definition row (b : DQNReplayBuffer) (i : nat) : option transition :=
  o ← obs_buf b !! i;
  a ← act_buf b !! i;
  r ← rew_buf b !! i;
  o' ← obs_prime_buf b !! i;
  d ← done_buf b !! i;
  Some (Transition o a r o' d).

(** The rows of a batch, read back as transitions. *)
Fixpoint batch_rows (os : list Obs) (acts rs : list Q) (os' : list Obs) (ds : list Q)
  : list transition :=
  match os, acts, rs, os', ds with
  | o :: os, a :: acts, r :: rs, o' :: os', d :: ds =>
      Transition o a r o' d :: batch_rows os acts rs os' ds
  | _, _, _, _, _ => []
  end.

Definition rows_of (bt : batch) : list transition :=
  batch_rows (b_o bt) (b_a bt) (b_r bt) (b_o_prime bt) (b_d bt).

(** The written part of the buffer: slots [0 .. size-1]. *)
Definition stored (b : DQNReplayBuffer) : list transition :=
  omap (row b) (seq 0 (size b)).

(** Rewards of the written slots, in slot order. *)
Definition stored_rewards (b : DQNReplayBuffer) : list Q := take (size b) (rew_buf b).

(** The [k] most recent elements of a history. *)
Definition most_recent {A} (k : nat) (hist : list A) : list A :=
  drop (length hist - k) hist.

Definition reward_only (r : Q) : transition := Transition [] 0 r [] 0.

(** Readings of transitions against the buffer's row shape, used in the
    statements below (they are not part of the class). *)

(** A transition whose observations have the [obs_dim] entries of the
    buffer's rows. *)
Definition fits (obs_dim : nat) (x : transition) : Prop :=
  length (t_o x) = obs_dim ∧ length (t_o_prime x) = obs_dim.

(** A transition whose observations numpy can write into rows of [obs_dim]
    entries. *)
Definition storable (obs_dim : nat) (x : transition) : Prop :=
  (length (t_o x) = obs_dim ∨ length (t_o x) = 1%nat) ∧
  (length (t_o_prime x) = obs_dim ∨ length (t_o_prime x) = 1%nat).

(** The transition as the arrays hold it after a store that succeeded: an
    observation of [obs_dim] entries as it is, one of a single entry spread
    over the row. *)
Definition fill (n : nat) (o : Obs) : Obs :=
  if decide (length o = n) then o else replicate n (default 0 (head o)).
Definition held (obs_dim : nat) (x : transition) : transition :=
  Transition (fill obs_dim (t_o x)) (t_a x) (t_r x) (fill obs_dim (t_o_prime x)) (t_d x).

End Buffer.

(** ** The exploration schedule (both trainers) *)

Module Schedule.

(** [epsilon_schedule = np.linspace(1, epsilon, start_steps)]. *)
Definition epsilon_schedule (epsilon : Q) (start_steps : nat) : list Q :=
  Np.linspace 1 epsilon start_steps.

(** [eps = epsilon if t >= start_steps else epsilon_schedule[t]], the first
    line of [get_action]. *)
Definition eps (epsilon : Q) (start_steps t : nat) : result Q :=
  if decide (start_steps ≤ t)%nat then Ok epsilon
  else Buffer.get_item (epsilon_schedule epsilon start_steps) t.

(** The schedule as the specification words it:
    [1.0 + (epsilon_min - 1.0) * min(step_index, start_steps) / start_steps]. *)
Definition spec_epsilon_at (epsilon_min : Q) (start_steps step_index : nat) : Q :=
  1 + (epsilon_min - 1) * Np.of_nat (step_index `min` start_steps)
      / Np.of_nat start_steps.

End Schedule.

(** ** The function approximator and the environment *)

(** The weights of a network: one flat array per layer tensor. *)
Definition params : Type := list (list Q).

(** What the trainers use of the networks that [q_network] builds and of the
    optimizer (tensorflow / keras, outside the repository's own code).  The
    main and the target network share one topology. *)
Class Approximator := {
  (** forward pass: one Q value per action *)
  q_vals : params → Buffer.Obs → list Q;
  (** the greedy action, [pi] / [pi_fn] *)
  pi_fn : params → Buffer.Obs → nat;
  (** [act_q_val]: the Q value of the action that was taken *)
  act_q_val : params → Buffer.Obs → Q → Q;
  (** state of the Adam optimizer and one minimisation step of [q_loss] on
      the main weights; the target weights enter only through the
      [stop_gradient] target *)
  opt_state : Type;
  q_updates : opt_state → params → params → Buffer.batch → opt_state * params;
  (** weights after initialisation, main and target *)
  init_main : params;
  init_targ : params;
  init_opt : opt_state
}.

(** [gym.spaces]. *)
Inductive space :=
  | Discrete (n : nat)
  | Box (shape : list nat)
  | MultiDiscrete (nvec : list nat)
  | MultiBinary (n : nat).

(** The gym environment protocol. *)
Class GymEnv := {
  env_state : Type;
  (** the environment [env_fn()] returns *)
  env_fn : env_state;
  action_space : env_state → space;
  (** [utils.get_dim_from_space(env.observation_space)] *)
  observation_dim : env_state → nat;
  env_reset : env_state → env_state * Buffer.Obs;
  env_step : env_state → nat → env_state * (Buffer.Obs * Q * bool)
}.

(** ** The training graph (same expressions in both trainers) *)

Module Graph.

Definition list_max (l : list Q) : Q :=
  match l with
  | [] => 0
  | x :: l' => foldl Qmax x l'
  end.

(** Modelled from the spec: [q_network] (rlalgs/algos/models.py and
    rlalgs/dqn/core.py) is not among the sources; its output [q_pi] is the
    Q value of the greedy action, [max_a' Q(observation, a')]. *)
Definition q_pi `{Approximator} (w : params) (o : Buffer.Obs) : Q :=
  list_max (q_vals w o).

(** [target = rew_ph + gamma*(1-done_ph)*q_pi_targ], elementwise over the
    batch. *)
Definition target (gamma : Q) (rew_ph done_ph q_pi_targ : list Q) : list Q :=
  zip_with Qplus rew_ph
    (zip_with Qmult ((λ d, gamma * (1 - d)) <$> done_ph) q_pi_targ).

(** [q_loss = tf.reduce_mean((tf.stop_gradient(target) - act_q_val)**2)]. *)
Definition q_loss (target act_q : list Q) : Q :=
  Np.mean ((λ x, x ^ 2) <$> zip_with Qminus target act_q).

(** The target tensor for a batch fed to the graph: [obs_prime_ph] goes
    through the target network. *)
Definition batch_target `{Approximator} (gamma : Q) (targ : params) (bt : Buffer.batch)
  : list Q :=
  target gamma (Buffer.b_r bt) (Buffer.b_d bt) (q_pi targ <$> Buffer.b_o_prime bt).

Definition batch_loss `{Approximator} (gamma : Q) (main targ : params) (bt : Buffer.batch)
  : Q :=
  q_loss (batch_target gamma targ bt)
         (zip_with (act_q_val main) (Buffer.b_o bt) (Buffer.b_a bt)).

(** The TD target of one transition as the specification words it. *)
Definition spec_td_target `{Approximator} (gamma : Q) (targ : params) (x : Buffer.transition)
  : Q :=
  Buffer.t_r x + gamma * (1 - Buffer.t_d x) * list_max (q_vals targ (Buffer.t_o_prime x)).

End Graph.

(** ** The older trainer, rlalgs/dqn/dqn.py *)

Module Episodic.
Section Trainer.
Context `{Approximator}.

(** The tensorflow session: the variables under the scopes "main" and
    "target", and the optimizer's slots. *)
Record session := Session {
  main_vars : params;
  target_vars : params;
  optimizer : opt_state
}.

(** [zip] stops at the shorter list: variables past it keep their value. *)
Definition assign_all (f : list Q → list Q → list Q) (main targ : params) : params :=
  zip_with f main targ ++ drop (length main) targ.

(** [target_init]: every target variable is assigned its main variable. *)
Definition target_init (s : session) : session :=
  Session (main_vars s)
          (assign_all (λ v_main v_targ, v_main) (main_vars s) (target_vars s))
          (optimizer s).

(** [polyak = 0.0995], a local constant of [dqn]. *)
Definition polyak : Q := 995 # 10000.

(** [v_targ.assign(polyak*v_targ + (1-polyak)*v_main)] for every pair of
    variables. *)
Definition target_update (s : session) : session :=
  Session (main_vars s)
          (assign_all (λ v_main v_targ,
                         zip_with Qplus (Qmult polyak <$> v_targ)
                                        (Qmult (1 - polyak) <$> v_main))
                      (main_vars s) (target_vars s))
          (optimizer s).

(** [sess.run([q_loss, q_train_op], feed_dict)]. *)
Definition run_train (gamma : Q) (s : session) (bt : Buffer.batch) : Q * session :=
  let loss := Graph.batch_loss gamma (main_vars s) (target_vars s) bt in
  let '(opt', main') := q_updates (optimizer s) (main_vars s) (target_vars s) bt in
  (loss, Session main' (target_vars s) opt').

(** [update(t)]; the debug print is left out. *)
Definition update (gamma : Q) (batch_size : nat) (buf : Buffer.DQNReplayBuffer)
    (s : session) (t : Z) (entropy : nat → nat) : result (Q * session) :=
  batch ← Buffer.sample buf batch_size entropy;
  let '(batch_loss, s1) := run_train gamma s batch in
  let s2 := if ((0 <? t) && (t mod 1000 =? 0))%Z then target_update s1 else s1 in
  Ok (batch_loss, s2).

End Trainer.
End Episodic.

(** ** The step-granularity trainer, rlalgs/algos/dqn/dqn.py *)

Module Stepwise.

(** The arguments of [dqn] that the training loop reads ([render_last], the
    logger and the model saving are left out with the code they steer). *)
Record config := Config {
  hidden_sizes : list nat;
  lr : Q;
  epochs : nat;
  epoch_steps : Z;
  batch_size : nat;
  seed : Z;
  replay_size : nat;
  epsilon : Q;
  gamma : Q;
  polyak : Q;
  start_steps : nat;
  target_update_freq : Z;
  render : bool;
  obs_dim : option nat
}.

(** What one step draws from numpy's generator: [np.random.rand(1)], the
    entropy of [np.random.choice(num_actions)] and that of
    [np.random.choice(self.size, num_samples)]. *)
Record draw := Draw {
  rand_u : Q;
  rand_a : nat;
  rand_idx : nat → nat
}.

(** Calls on the environment and on the replay buffer, in the order they
    happen.  [EnvStep] carries the action and the done flag that came back,
    [BufSample] the fill count at the call and the number of samples. *)
Inductive event :=
  | EnvMake
  | EnvRender
  | EnvReset
  | EnvStep (a : nat) (d : bool)
  | BufStore
  | BufSample (size num_samples : nat).

Section Trainer.
Context `{Approximator} `{GymEnv}.
(** The generator seeded by [np.random.seed(seed)], indexed by the global
    step, and the observation preprocessing. *)
Variable rng : nat → draw.
Variable preprocess_fn : Buffer.Obs → env_state → Buffer.Obs.

(** Modelled from the spec: [core.DQNReplayBuffer] of
    rlalgs/algos/dqn/core.py, the class of [buf], is not among the sources.
    It is the specification's ReplayBuffer ([store] writes at [ptr], then
    [ptr = (ptr + 1) mod capacity] and [size = min(size + 1, capacity)];
    [sample] draws from [0 .. size-1]), which is what the class of the same
    name in rlalgs/dqn/dqn.py does; that class stands for it. *)
Definition DQNReplayBuffer : Type := Buffer.DQNReplayBuffer.

(** Everything the closures of [dqn] share and mutate. *)
Record world := World {
  env : env_state;
  q_model : params;
  q_model_targ : params;
  q_optimizer : opt_state;
  buf : DQNReplayBuffer;
  total_t : nat;
  trace : list event
}.

(** Statements: they change the world and return or raise. *)
Definition M (A : Type) : Type := world → world * result A.

#[local] Instance M_ret : MRet M := λ A a w, (w, Ok a).
#[local] Instance M_bind : MBind M := λ A B f m w,
  match m w with
  | (w', Ok a) => f a w'
  | (w', Raise e) => (w', Raise e)
  end.

Definition get : M world := λ w, (w, Ok w).
Definition modify (f : world → world) : M unit := λ w, (f w, Ok tt).
Definition lift {A} (r : result A) : M A := λ w, (w, r).
Definition emit (e : event) : M unit :=
  modify (λ w, World (env w) (q_model w) (q_model_targ w) (q_optimizer w) (buf w)
                     (total_t w) (trace w ++ [e])).

Definition set_env (e : env_state) (w : world) : world :=
  World e (q_model w) (q_model_targ w) (q_optimizer w) (buf w) (total_t w) (trace w).
Definition set_buf (b : Buffer.DQNReplayBuffer) (w : world) : world :=
  World (env w) (q_model w) (q_model_targ w) (q_optimizer w) b (total_t w) (trace w).
Definition set_main (o : opt_state) (p : params) (w : world) : world :=
  World (env w) p (q_model_targ w) o (buf w) (total_t w) (trace w).
Definition set_targ (p : params) (w : world) : world :=
  World (env w) (q_model w) p (q_optimizer w) (buf w) (total_t w) (trace w).
Definition set_total_t (n : nat) (w : world) : world :=
  World (env w) (q_model w) (q_model_targ w) (q_optimizer w) (buf w) n (trace w).

(** [env.reset()], [env.step(a)], [env.render()]. *)
Definition reset : M Buffer.Obs :=
  w ← get;
  let '(e', o) := env_reset (env w) in
  _ ← modify (set_env e');
  _ ← emit EnvReset;
  mret o.

Definition step (a : nat) : M (Buffer.Obs * Q * bool) :=
  w ← get;
  let '(e', (o', r, d)) := env_step (env w) a in
  _ ← modify (set_env e');
  _ ← emit (EnvStep a d);
  mret (o', r, d).

Definition render_env : M unit := emit EnvRender.

(** [copy_network_weights()]:
    [q_model_targ.set_weights(q_model.get_weights())]. *)
Definition copy_network_weights : M unit :=
  modify (λ w, set_targ (q_model w) w).

(** [network_diff()]. *)
Definition network_diff (w : world) : Q :=
  foldl (λ total_diff '(m_val, t_val),
           total_diff + Np.sum (Qabs <$> zip_with Qminus m_val t_val))
        0 (zip (q_model w) (q_model_targ w)).

(** [get_action(o, t)]; [np.squeeze] only drops the batch axis. *)
Definition get_action (cfg : config) (num_actions : nat) (o : Buffer.Obs) (t : nat)
  : M nat :=
  eps ← lift (Schedule.eps (epsilon cfg) (start_steps cfg) t);
  if Np.ltb (rand_u (rng t)) eps
  then lift (Np.random_choice1 num_actions (rand_a (rng t)))
  else w ← get; mret (pi_fn (q_model w) o).

(** [q_train_fn(feed_list)]: returns [q_loss] and applies [q_updates]. *)
Definition q_train_fn (cfg : config) (bt : Buffer.batch) : M Q :=
  w ← get;
  let loss := Graph.batch_loss (gamma cfg) (q_model w) (q_model_targ w) bt in
  let '(opt', main') := q_updates (q_optimizer w) (q_model w) (q_model_targ w) bt in
  _ ← modify (set_main opt' main');
  mret loss.

(** The guard of the target copy in [update]. *)
Definition copy_due (cfg : config) (t : Z) : bool :=
  ((0 <? t) && ((target_update_freq cfg =? 1)
                || (t mod (target_update_freq cfg - 1) =? 0)))%Z.

(** [update(t)]; the logging of [network_diff()] is left out. *)
Definition update (cfg : config) (t : Z) : M Q :=
  w ← get;
  _ ← emit (BufSample (Buffer.size (buf w)) (batch_size cfg));
  batch ← lift (Buffer.sample (buf w) (batch_size cfg) (rand_idx (rng (total_t w))));
  batch_loss ← q_train_fn cfg batch;
  _ ← (if copy_due cfg t then copy_network_weights else mret tt);
  mret batch_loss.

(** [buf.store(o, a, r, o_prime, d)] from the trainer. *)
Definition buf_store (o : Buffer.Obs) (a : nat) (r : Q) (o_prime : Buffer.Obs) (d : bool)
  : M unit :=
  _ ← emit BufStore;
  w ← get;
  b' ← lift (Buffer.store (buf w) o (Np.of_nat a) r o_prime (Np.of_bool d));
  modify (set_buf b').

(** The local variables of [train_one_epoch]. *)
Record locals := Locals {
  o : Buffer.Obs;
  finished_rendering_this_epoch : bool;
  ep_len : nat;
  ep_ret : Q;
  ep_loss : list Q;
  epoch_ep_lens : list nat;
  epoch_ep_rets : list Q;
  epoch_ep_loss : list Q;
  t : Z
}.

(** What [train_one_epoch] returns:
    [epoch_ep_loss, epoch_ep_rets, epoch_ep_lens]. *)
Definition epoch_result : Type := list Q * list Q * list nat.

(** One pass through the body of [while True]: [inl] at the end of the body,
    [inr] at [break]. *)
Definition loop_body (cfg : config) (num_actions : nat) (l : locals)
  : M (locals + epoch_result) :=
  _ ← (if negb (finished_rendering_this_epoch l) && render cfg
       then render_env else mret tt);
  w ← get;
  a ← get_action cfg num_actions (o l) (total_t w);
  '(o_prime, r, d) ← step a;
  w ← get;
  let o_prime := preprocess_fn o_prime (env w) in
  _ ← buf_store (o l) a r o_prime d;
  batch_loss ← update cfg (t l);
  _ ← modify (λ w, set_total_t (total_t w + 1) w);
  let l1 := Locals o_prime (finished_rendering_this_epoch l)
                   (ep_len l + 1) (ep_ret l + r) (ep_loss l ++ [batch_loss])
                   (epoch_ep_lens l) (epoch_ep_rets l) (epoch_ep_loss l)
                   (t l + 1) in
  l2 ← (if d : bool return M locals then
          o0 ← reset;
          w ← get;
          mret (Locals (preprocess_fn o0 (env w)) true 0 0 []
                       (epoch_ep_lens l1 ++ [ep_len l1])
                       (epoch_ep_rets l1 ++ [ep_ret l1])
                       (epoch_ep_loss l1 ++ [Np.mean (ep_loss l1)])
                       (t l1))
        else mret l1);
  if (epoch_steps cfg <=? t l2)%Z
  then mret (inr (epoch_ep_loss l2, epoch_ep_rets l2, epoch_ep_lens l2 ++ [ep_len l2]))
  else mret (inl l2).

(** [while True: ...], with [None] when the fuel runs out first. *)
Fixpoint while_true (fuel : nat) (cfg : config) (num_actions : nat) (l : locals)
  : M (option epoch_result) :=
  match fuel with
  | O => mret None
  | S fuel' =>
      r ← loop_body cfg num_actions l;
      match r with
      | inl l' => while_true fuel' cfg num_actions l'
      | inr res => mret (Some res)
      end
  end.

(** [train_one_epoch()]. *)
Definition train_one_epoch (fuel : nat) (cfg : config) (num_actions : nat)
  : M (option epoch_result) :=
  o0 ← reset;
  w ← get;
  while_true fuel cfg num_actions
    (Locals (preprocess_fn o0 (env w)) false 0 0 [] [] [] [] 0%Z).

(** [for i in range(epochs): results = train_one_epoch() ...]; the logger
    calls are left out. *)
Fixpoint run_epochs (fuel : nat) (cfg : config) (num_actions : nat) (n : nat)
  : M (option (list epoch_result)) :=
  match n with
  | O => mret (Some [])
  | S n' =>
      r ← train_one_epoch fuel cfg num_actions;
      match r with
      | None => mret None
      | Some res =>
          rs ← run_epochs fuel cfg num_actions n';
          mret (cons res <$> rs)
      end
  end.

(** [dqn(env_fn, ...)] up to the end of training: the events of the run and
    what it returned or raised.  [fuel] bounds the passes of one epoch. *)
Definition dqn (fuel : nat) (cfg : config)
  : list event * result (option (list epoch_result)) :=
  if negb (target_update_freq cfg <=? epoch_steps cfg)%Z then ([], Raise AssertionError)
  else
    let env := env_fn in
    match action_space env with
    | Discrete n =>
        let obs_dim := default (observation_dim env) (obs_dim cfg) in
        let num_actions := n in
        let w0 := World env init_main init_targ init_opt
                        (Buffer.init obs_dim (replay_size cfg)) 0 [EnvMake] in
        let '(w, r) := (_ ← copy_network_weights;
                        run_epochs fuel cfg num_actions (epochs cfg)) w0 in
        (trace w, r)
    | _ => ([EnvMake], Raise NotImplementedError)
    end.

End Trainer.
End Stepwise.

(** ** A small concrete environment and approximator *)

Module Demo.

(** An environment whose episodes last [horizon] steps: the state counts the
    steps since the last reset, the observation is that count, every reward
    is 1. *)
Definition counting_env (sp : space) (horizon : nat) : GymEnv :=
  {| env_state := nat;
     env_fn := 0%nat;
     action_space := λ _, sp;
     observation_dim := λ _, 1%nat;
     env_reset := λ _, (0%nat, [0]);
     env_step := λ s _, (S s, ([Np.of_nat (S s)], 1, (S s =? horizon)%nat)) |}.

(** A two-action approximator whose Q values are its first weight tensor and
    whose optimizer adds one to every main weight. *)
Definition shift_net : Approximator :=
  {| q_vals := λ w _, default [] (w !! 0%nat);
     pi_fn := λ _ _, 0%nat;
     act_q_val := λ _ _ _, 0;
     opt_state := unit;
     q_updates := λ _ main _ _, (tt, (λ v : list Q, Qplus 1 <$> v) <$> main);
     init_main := [[0; 0]];
     init_targ := [[5; 7]];
     init_opt := tt |}.

(** A session of the older trainer with one tensor per network. *)
Definition session : @Episodic.session shift_net :=
  @Episodic.Session shift_net [[1; 2]] [[0; 10]] tt.

Definition rng : nat → Stepwise.draw := λ k, Stepwise.Draw (1 # 2) k (λ i, (i + k)%nat).

Definition preprocess_fn `{GymEnv} : Buffer.Obs → env_state → Buffer.Obs := λ o _, o.

(** [dqn] with [epochs], [epoch_steps] and [target_update_freq] given and the
    other arguments small. *)
Definition cfg (epochs : nat) (epoch_steps target_update_freq : Z) : Stepwise.config :=
  {| Stepwise.hidden_sizes := [64; 64]%nat;
     Stepwise.lr := 1 # 1000;
     Stepwise.epochs := epochs;
     Stepwise.epoch_steps := epoch_steps;
     Stepwise.batch_size := 2;
     Stepwise.seed := 0;
     Stepwise.replay_size := 4;
     Stepwise.epsilon := 1 # 20;
     Stepwise.gamma := 99 # 100;
     Stepwise.polyak := 995 # 1000;
     Stepwise.start_steps := 100;
     Stepwise.target_update_freq := target_update_freq;
     Stepwise.render := false;
     Stepwise.obs_dim := None |}.

(** The world of [dqn] on the counting environment when training starts. *)
Definition world0 (horizon : nat)
  : @Stepwise.world shift_net (counting_env (Discrete 2) horizon) :=
  @Stepwise.World shift_net (counting_env (Discrete 2) horizon)
    0%nat [[0; 0]] [[0; 0]] tt (Buffer.init 1 4) 0 [Stepwise.EnvMake].


End Demo.

(** ** Abstractions used in the proofs *)

Section Abstractions.
Import Buffer.

(** The five parallel arrays seen as one array of transitions. *)
Definition repr (b : Buffer.DQNReplayBuffer) (L : list transition) : Prop :=
  obs_buf b = t_o <$> L ∧ act_buf b = t_a <$> L ∧ rew_buf b = t_r <$> L ∧
  obs_prime_buf b = t_o_prime <$> L ∧ done_buf b = t_d <$> L ∧
  length L = capacity b.

Definition zero_row (obs_dim : nat) : transition :=
  Transition (replicate obs_dim 0) 0 0 (replicate obs_dim 0) 0.

(** Ring invariant after the history [ts] was stored: reading the slots from
    [ptr] round to [ptr - 1] gives the last [capacity] entries of the
    history, the initial zero rows counted as its prefix. *)
Definition ring_inv (obs_dim c : nat) (ts : list transition) (b : DQNReplayBuffer) : Prop :=
  ∃ L, repr b L ∧ capacity b = c ∧
       ptr b = (length ts mod c)%nat ∧ size b = (length ts `min` c)%nat ∧
       drop (ptr b) L ++ take (ptr b) L
       = drop (length ts) (replicate c (zero_row obs_dim) ++ ts).

(** The value of [Schedule.eps] in closed form: the samples of
    [np.linspace(1, epsilon, start_steps)] up to step [start_steps - 1], then
    [epsilon]. *)
Definition eps_value (epsilon : Q) (start_steps t : nat) : Q :=
  if decide (start_steps ≤ t)%nat then epsilon
  else if decide (1 < start_steps)%nat then
    if decide (t = start_steps - 1)%nat then epsilon
    else Np.of_nat t * ((epsilon - 1) / Np.of_nat (start_steps - 1)) + 1
  else Np.of_nat t * (epsilon - 1) + 1.

(** The schedule the code anneals along: linear from 1 at step 0 to
    [epsilon_min] at step [start_steps - 1]. *)
Definition linspace_epsilon_at (epsilon_min : Q) (start_steps step_index : nat) : Q :=
  1 + (epsilon_min - 1) * Np.of_nat (step_index `min` (start_steps - 1))
      / Np.of_nat (start_steps - 1).

End Abstractions.

(** Readings of a trace of the step-granularity trainer. *)
Module TraceSpec.
Import Stepwise.

(** A configuration with another [polyak]. *)
Definition with_polyak (p : Q) (cfg : config) : config :=
  Config (hidden_sizes cfg) (lr cfg) (epochs cfg) (epoch_steps cfg) (batch_size cfg)
         (seed cfg) (replay_size cfg) (epsilon cfg) (gamma cfg) p (start_steps cfg)
         (target_update_freq cfg) (render cfg) (obs_dim cfg).

(** No call on the environment after its creation. *)
Definition interaction (e : event) : bool :=
  match e with
  | EnvRender | EnvReset | EnvStep _ _ => true
  | _ => false
  end.
Definition no_interaction (tr : list event) : bool := forallb (λ e, negb (interaction e)) tr.

(** Every [sample] call comes right after a [store] call and finds a
    non-empty buffer.  The fold carries "fine so far" and "the last call
    was a store". *)
Definition guarded_step (acc : bool * bool) (e : event) : bool * bool :=
  match e with
  | BufStore => (acc.1, true)
  | BufSample size _ => (acc.1 && acc.2 && (1 <=? size)%nat, false)
  | _ => (acc.1, false)
  end.
Definition sampling_guarded (tr : list event) : bool :=
  (foldl guarded_step (true, false) tr).1.

(** The done flags of the environment steps, in order. *)
Definition done_flags (tr : list event) : list bool :=
  omap (λ e, match e with EnvStep _ d => Some d | _ => None end) tr.

(** Episode lengths read off the done flags: the finished episodes, then
    the length of the one in progress. *)
Definition episode_step (acc : list nat * nat) (d : bool) : list nat * nat :=
  if d then (acc.1 ++ [acc.2 + 1], 0)%nat else (acc.1, acc.2 + 1)%nat.
Definition episode_lengths (flags : list bool) : list nat :=
  let acc := foldl episode_step ([], 0%nat) flags in acc.1 ++ [acc.2].
Definition episodes_played (flags : list bool) : nat :=
  length (filter (λ d, d = true) flags).

(** The networks and the optimizer are as they were. *)
Definition same_nets `{Approximator} `{GymEnv} (w w' : world) : Prop :=
  q_model w' = q_model w ∧ q_model_targ w' = q_model_targ w ∧
  q_optimizer w' = q_optimizer w.

End TraceSpec.

(** ** The older trainer's loop, rlalgs/dqn/dqn.py *)

(** The closures of the older [dqn] share an environment, a tensorflow
    session, a replay buffer and the global [total_t]: the same state as in
    the step-granularity trainer, so [Stepwise.world], its statements and
    its events are used again; the session is the three network fields. *)
Module EpisodicRun.

(** The arguments of the older [dqn] that training reads. *)
Record config := Config {
  hidden_sizes : list nat;
  lr : Q;
  epochs : nat;
  epoch_steps : Z;
  batch_size : nat;
  seed : Z;
  replay_size : nat;
  epsilon : Q;
  gamma : Q;
  start_steps : nat;
  render : bool
}.

Section Trainer.
Context `{Approximator} `{GymEnv}.
Variable rng : nat → Stepwise.draw.
(** [utils.process_obs(o, env.observation_space)] (rlalgs/utils/utils.py, not
    among the sources). *)
Variable process_obs : Buffer.Obs → env_state → Buffer.Obs.

#[local] Existing Instance Stepwise.M_ret.
#[local] Existing Instance Stepwise.M_bind.

Definition session_of (w : Stepwise.world) : Episodic.session :=
  Episodic.Session (Stepwise.q_model w) (Stepwise.q_model_targ w) (Stepwise.q_optimizer w).

Definition set_session (s : Episodic.session) (w : Stepwise.world) : Stepwise.world :=
  Stepwise.World (Stepwise.env w) (Episodic.main_vars s) (Episodic.target_vars s)
                 (Episodic.optimizer s) (Stepwise.buf w) (Stepwise.total_t w)
                 (Stepwise.trace w).

(** [get_action(o)]: reads and advances the global [total_t]; the print is
    left out. *)
Definition get_action (cfg : config) (num_actions : nat) (o : Buffer.Obs)
  : Stepwise.M nat :=
  w ← Stepwise.get;
  eps ← Stepwise.lift (Schedule.eps (epsilon cfg) (start_steps cfg) (Stepwise.total_t w));
  _ ← Stepwise.modify (λ w, Stepwise.set_total_t (Stepwise.total_t w + 1) w);
  if Np.ltb (Stepwise.rand_u (rng (Stepwise.total_t w))) eps
  then Stepwise.lift (Np.random_choice1 num_actions
                        (Stepwise.rand_a (rng (Stepwise.total_t w))))
  else w' ← Stepwise.get;
       mret (pi_fn (Stepwise.q_model w') (process_obs o (Stepwise.env w'))).

(** [update(t)] as a statement on the shared state. *)
Definition update (cfg : config) (t : Z) : Stepwise.M Q :=
  w ← Stepwise.get;
  _ ← Stepwise.emit (Stepwise.BufSample (Buffer.size (Stepwise.buf w)) (batch_size cfg));
  r ← Stepwise.lift
         (Episodic.update (gamma cfg) (batch_size cfg) (Stepwise.buf w) (session_of w) t
                          (Stepwise.rand_idx (rng (Stepwise.total_t w))));
  _ ← Stepwise.modify (set_session r.2);
  mret r.1.

(** The variables of one episode, and of the epoch. *)
Record episode := Episode {
  o : Buffer.Obs;
  d : bool;
  ep_len : nat;
  ep_ret : Q;
  ep_loss : list Q;
  t : Z
}.

Record locals := Locals {
  finished_rendering_this_epoch : bool;
  epoch_ep_lens : list nat;
  epoch_ep_rets : list Q;
  epoch_ep_loss : list Q;
  epoch_t : Z
}.

Definition epoch_result : Type := list Q * list Q * list nat.

(** [while not d: ...] with its [break]; [None] when the fuel runs out. *)
Fixpoint episode_loop (fuel : nat) (cfg : config) (num_actions : nat) (s : episode)
  : Stepwise.M (option episode) :=
  match fuel with
  | O => mret None
  | S fuel' =>
      if d s then mret (Some s)
      else
        a ← get_action cfg num_actions (o s);
        '(o_prime, r, d') ← Stepwise.step a;
        _ ← Stepwise.buf_store (o s) a r o_prime d';
        batch_loss ← update cfg (t s);
        let s' := Episode o_prime d' (ep_len s + 1) (ep_ret s + r)
                          (ep_loss s ++ [batch_loss]) (t s + 1) in
        if (epoch_steps cfg <=? t s')%Z then mret (Some s')
        else episode_loop fuel' cfg num_actions s'
  end.

(** [while t < epoch_steps: ...]. *)
Fixpoint epoch_loop (fuel : nat) (cfg : config) (num_actions : nat) (l : locals)
  : Stepwise.M (option epoch_result) :=
  match fuel with
  | O => mret None
  | S fuel' =>
      if (epoch_t l <? epoch_steps cfg)%Z then
        _ ← (if negb (finished_rendering_this_epoch l) && render cfg
             then Stepwise.render_env else mret tt);
        o0 ← Stepwise.reset;
        r ← episode_loop (S fuel') cfg num_actions
               (Episode o0 false 0 0 [] (epoch_t l));
        match r with
        | None => mret None
        | Some s =>
            epoch_loop fuel' cfg num_actions
              (Locals true (epoch_ep_lens l ++ [ep_len s])
                      (epoch_ep_rets l ++ [ep_ret s])
                      (epoch_ep_loss l ++ [Np.mean (ep_loss s)]) (t s))
        end
      else mret (Some (epoch_ep_loss l, epoch_ep_rets l, epoch_ep_lens l))
  end.

(** [train_one_epoch()]. *)
Definition train_one_epoch (fuel : nat) (cfg : config) (num_actions : nat)
  : Stepwise.M (option epoch_result) :=
  epoch_loop fuel cfg num_actions (Locals false [] [] [] 0%Z).

Fixpoint run_epochs (fuel : nat) (cfg : config) (num_actions : nat) (n : nat)
  : Stepwise.M (option (list epoch_result)) :=
  match n with
  | O => mret (Some [])
  | S n' =>
      r ← train_one_epoch fuel cfg num_actions;
      match r with
      | None => mret None
      | Some res =>
          rs ← run_epochs fuel cfg num_actions n';
          mret (cons res <$> rs)
      end
  end.

(** The older [dqn(env_fn, ...)] up to the end of training; the logger and
    the final rendering are left out. *)
Definition dqn (fuel : nat) (cfg : config)
  : list Stepwise.event * result (option (list epoch_result)) :=
  let env := env_fn in
  match action_space env with
  | Discrete n =>
      let w0 := Stepwise.World env init_main init_targ init_opt
                  (Buffer.init (observation_dim env) (replay_size cfg)) 0
                  [Stepwise.EnvMake] in
      let '(w, r) := (_ ← Stepwise.modify (λ w, set_session (Episodic.target_init (session_of w)) w);
                      run_epochs fuel cfg n (epochs cfg)) w0 in
      (Stepwise.trace w, r)
  | _ => ([Stepwise.EnvMake], Raise NotImplementedError)
  end.

End Trainer.
End EpisodicRun.

(** A configuration of the older trainer on the counting environment. *)
Module DemoOld.

Definition cfg (epochs : nat) (epoch_steps : Z) (render : bool) : EpisodicRun.config :=
  {| EpisodicRun.hidden_sizes := [64]%nat;
     EpisodicRun.lr := 1 # 1000;
     EpisodicRun.epochs := epochs;
     EpisodicRun.epoch_steps := epoch_steps;
     EpisodicRun.batch_size := 2;
     EpisodicRun.seed := 0;
     EpisodicRun.replay_size := 4;
     EpisodicRun.epsilon := 1 # 20;
     EpisodicRun.gamma := 99 # 100;
     EpisodicRun.start_steps := 100;
     EpisodicRun.render := render |}.

End DemoOld.

(** Further readings of a run of the step-granularity trainer. *)
Module RunSpec.
Import Stepwise TraceSpec.

Definition is_render (e : event) : bool :=
  match e with
  | EnvRender => true
  | _ => false
  end.
Definition render_calls (tr : list event) : nat := length (filter (λ e, is_render e) tr).

Definition is_reset (e : event) : bool :=
  match e with
  | EnvReset => true
  | _ => false
  end.
Definition reset_calls (tr : list event) : nat := length (filter (λ e, is_reset e) tr).

(** The calls of one pass through the loop body that runs to its end. *)
Definition body_events (render_now : bool) (a : nat) (d : bool) (size num_samples : nat)
  : list event :=
  (if render_now then [EnvRender] else [])
  ++ [EnvStep a d; BufStore; BufSample size num_samples]
  ++ (if d then [EnvReset] else []).

(** Steps up to and including the first one that reports done (all of them
    when none does). *)
Fixpoint first_episode_steps (flags : list bool) : nat :=
  match flags with
  | [] => 0
  | d :: flags' => S (if d then 0 else first_episode_steps flags')
  end.

(** Two weight sets of one topology. *)
Definition same_shape (p1 p2 : params) : Prop :=
  Forall2 (λ v1 v2 : list Q, length v1 = length v2) p1 p2.

(** The actions of the environment steps, in order. *)
Definition actions (tr : list event) : list nat :=
  omap (λ e, match e with EnvStep a _ => Some a | _ => None end) tr.

Section Environment.
Context `{GymEnv}.
Variable preprocess_fn : Buffer.Obs → env_state → Buffer.Obs.

(** The observations the trainer hands to the buffer have [obs_dim] entries:
    those of [env.reset()] and of [env.step(a)], after [preprocess_fn]. *)
Definition observations_fit (obs_dim : nat) : Prop :=
  (∀ e, length (preprocess_fn (env_reset e).2 (env_reset e).1) = obs_dim) ∧
  (∀ e a, length (preprocess_fn (env_step e a).2.1.1 (env_step e a).1) = obs_dim).

(** The transitions the environment goes through from the state [e], with
    [o] the preprocessed observation at hand, under the actions [acts], a
    step that reports done being followed by a reset: the arguments of the
    [buf.store] calls in the loop of [train_one_epoch]. *)
Fixpoint transitions (e : env_state) (o : Buffer.Obs) (acts : list nat)
  : list Buffer.transition :=
  match acts with
  | [] => []
  | a :: acts' =>
      let e1 := (env_step e a).1 in
      let '(o_prime, r, d) := (env_step e a).2 in
      let o1 := preprocess_fn o_prime e1 in
      Buffer.Transition o (Np.of_nat a) r o1 (Np.of_bool d)
      :: (if d : bool
          then transitions (env_reset e1).1
                           (preprocess_fn (env_reset e1).2 (env_reset e1).1) acts'
          else transitions e1 o1 acts')
  end.

End Environment.

(** Rendering is confined to the first episode: with [render] set there is
    one [env.render()] right before every environment step as long as no
    step has reported done, and none afterwards; without [render] there is
    none at all.  The fold carries "fine so far", "no step has reported done
    yet" and "the last call was a render". *)
Definition render_step (render : bool) (acc : bool * bool * bool) (e : event)
  : bool * bool * bool :=
  let '(ok, first, rendered) := acc in
  match e with
  | EnvRender => (ok && render && first && negb rendered, first, true)
  | EnvStep _ d => (ok && Bool.eqb rendered (render && first), first && negb d, false)
  | _ => (ok && negb rendered, first, false)
  end.
Definition renders_first_episode_only (render : bool) (tr : list event) : bool :=
  (foldl (render_step render) (true, true, false) tr).1.1.

End RunSpec.


(** * Properties *)

(** ** The model on small inputs *)

Example store_wraps_around :
  Buffer.store_all (Buffer.init 0 2) (Buffer.reward_only <$> [1; 2; 3])
  = Ok (Buffer.MkBuffer [[]; []] [0; 0] [3; 2] [[]; []] [0; 0] 1 2 2).
Proof. vm_compute. reflexivity. Qed.

Example sample_reads_the_drawn_slots :
  Buffer.sample (Buffer.MkBuffer [[]; []; []; []] [0; 0; 0; 0] [5; 6; 3; 4]
                                 [[]; []; []; []] [0; 0; 0; 0] 2 4 4)
                3 (λ k, k + 2)%nat
  = Ok (Buffer.Batch [[]; []; []] [0; 0; 0] [3; 4; 5] [[]; []; []] [0; 0; 0]).
Proof. vm_compute. reflexivity. Qed.

Example sample_of_empty_buffer_raises :
  Buffer.sample (Buffer.init 1 4) 3 (λ k, k) = Raise ValueError.
Proof. reflexivity. Qed.

Example linspace_of_five :
  Qred <$> Np.linspace 1 (1 # 20) 5 = [1; 61 # 80; 21 # 40; 23 # 80; 1 # 20].
Proof. vm_compute. reflexivity. Qed.

Example store_checks_the_shape :
  Buffer.store (Buffer.init 3 2) [1; 2; 3] 0 1 [4; 5; 6] 0
  = Ok (Buffer.MkBuffer [[1; 2; 3]; [0; 0; 0]] [0; 0] [1; 0] [[4; 5; 6]; [0; 0; 0]]
                        [0; 0] 1 1 2) ∧
  Buffer.store (Buffer.init 3 2) [1; 2] 0 1 [4; 5; 6] 0 = Raise ValueError ∧
  Buffer.store (Buffer.init 3 2) [1; 2; 3] 0 1 [] 0 = Raise ValueError ∧
  Buffer.store (Buffer.init 3 2) [7] 0 1 [4; 5; 6] 0
  = Ok (Buffer.MkBuffer [[7; 7; 7]; [0; 0; 0]] [0; 0] [1; 0] [[4; 5; 6]; [0; 0; 0]]
                        [0; 0] 1 1 2) ∧
  Buffer.store (Buffer.init 3 0) [1; 2] 0 1 [4; 5; 6] 0 = Raise IndexError.
Proof. repeat split; vm_compute; reflexivity. Qed.

(** The reading of the render calls on small traces: a render before each
    step of the first episode passes; a step of the first episode without
    its render, a render after the first done, and any render when [render]
    is unset do not. *)
Example render_reading_on_small_traces :
  RunSpec.renders_first_episode_only true
    [Stepwise.EnvReset; Stepwise.EnvRender; Stepwise.EnvStep 0 false; Stepwise.BufStore;
     Stepwise.BufSample 1 2; Stepwise.EnvRender; Stepwise.EnvStep 1 true;
     Stepwise.BufStore; Stepwise.BufSample 2 2; Stepwise.EnvReset;
     Stepwise.EnvStep 0 false; Stepwise.BufStore; Stepwise.BufSample 3 2] = true ∧
  RunSpec.renders_first_episode_only true
    [Stepwise.EnvReset; Stepwise.EnvStep 0 false] = false ∧
  RunSpec.renders_first_episode_only true
    [Stepwise.EnvReset; Stepwise.EnvRender; Stepwise.EnvStep 0 true; Stepwise.EnvReset;
     Stepwise.EnvRender; Stepwise.EnvStep 0 false] = false ∧
  RunSpec.renders_first_episode_only false
    [Stepwise.EnvReset; Stepwise.EnvRender; Stepwise.EnvStep 0 false] = false ∧
  RunSpec.renders_first_episode_only false
    [Stepwise.EnvReset; Stepwise.EnvStep 0 false; Stepwise.BufStore] = true.
Proof. repeat split. Qed.

(** Two episodes of two steps in an epoch of four steps: the trace of the
    run and the episode lengths [2, 2, 0] it reports. *)
Example dqn_on_the_counting_env :
  ∃ losses,
    Stepwise.dqn (H := Demo.shift_net) (H0 := Demo.counting_env (Discrete 2) 2)
      Demo.rng Demo.preprocess_fn 4 (Demo.cfg 1 4 3)
    = ([Stepwise.EnvMake; Stepwise.EnvReset;
        Stepwise.EnvStep 0 false; Stepwise.BufStore; Stepwise.BufSample 1 2;
        Stepwise.EnvStep 1 true; Stepwise.BufStore; Stepwise.BufSample 2 2;
        Stepwise.EnvReset;
        Stepwise.EnvStep 0 false; Stepwise.BufStore; Stepwise.BufSample 3 2;
        Stepwise.EnvStep 1 true; Stepwise.BufStore; Stepwise.BufSample 4 2;
        Stepwise.EnvReset],
       Ok (Some [(losses, [2; 2], [2; 2; 0]%nat)])).
Proof. eexists. vm_compute. reflexivity. Qed.

(** ** Replay buffer *)

Section BufferFacts.
Import Buffer.

Lemma repr_row b L i : repr b L → row b i = L !! i.
Proof.
  unfold row. intros (-> & -> & -> & -> & -> & _).
  rewrite !list_lookup_fmap. by destruct (L !! i) as [[]|].
Qed.

Lemma omap_lookup_seq_from {A} (L : list A) j k :
  (j + k ≤ length L)%nat → omap (λ i, L !! i) (seq j k) = take k (drop j L).
Proof.
  revert j. induction k as [|k IH]; intros j Hk; simpl; [done|].
  destruct (lookup_lt_is_Some_2 L j) as [y Hy]; [lia|].
  rewrite Hy, (drop_S L y j Hy). simpl. f_equal. apply IH. lia.
Qed.

Lemma omap_lookup_seq {A} (L : list A) k :
  (k ≤ length L)%nat → omap (λ i, L !! i) (seq 0 k) = take k L.
Proof. intros Hk. by rewrite omap_lookup_seq_from, drop_0. Qed.

Lemma omap_pointwise {A B} (f g : A → option B) (l : list A) :
  (∀ x, f x = g x) → omap f l = omap g l.
Proof.
  intros Hfg. induction l as [|x l IH]; simpl; [done|].
  rewrite Hfg. destruct (g x); [f_equal|]; apply IH.
Qed.

Lemma repr_stored b L : repr b L → (size b ≤ capacity b)%nat → stored b = take (size b) L.
Proof.
  intros HL Hs. unfold stored.
  rewrite (omap_pointwise _ (λ i, L !! i)) by (intros i; by apply repr_row).
  apply omap_lookup_seq. destruct HL as (_ & _ & _ & _ & _ & ->). done.
Qed.

Lemma init_ring_inv obs_dim c : (1 ≤ c)%nat → ring_inv obs_dim c [] (init obs_dim c).
Proof.
  intros Hc. exists (replicate c (zero_row obs_dim)). unfold repr, init; simpl.
  rewrite !fmap_replicate, length_replicate, Nat.Div0.mod_0_l, app_nil_r.
  repeat split; try done. by rewrite app_nil_r.
Qed.

(** One turn of the ring on a single array. *)
Lemma ring_turn {A} (c n : nat) (L hist : list A) (x : A) :
  (1 ≤ c)%nat → length L = c → length hist = (c + n)%nat →
  drop (n mod c) L ++ take (n mod c) L = drop n hist →
  drop ((n mod c + 1) mod c) (<[(n mod c)%nat := x]> L)
    ++ take ((n mod c + 1) mod c) (<[(n mod c)%nat := x]> L)
  = drop (S n) (hist ++ [x]).
Proof.
  intros Hc HL Hh Hrot.
  assert (Hp : (n mod c < c)%nat) by (apply Nat.mod_upper_bound; lia).
  set (p := (n mod c)%nat) in *.
  destruct (lookup_lt_is_Some_2 L p) as [y Hy]; [lia|].
  rewrite (drop_S L y p Hy) in Hrot.
  rewrite drop_app_le by lia.
  rewrite (drop_S hist y n) in Hrot.
  2:{ destruct (lookup_lt_is_Some_2 hist n) as [z Hz]; [lia|].
      rewrite (drop_S hist z n Hz) in Hrot. simpl in Hrot. congruence. }
  simpl in Hrot. injection Hrot as Hrot. rewrite <- Hrot.
  destruct (decide (p + 1 = c)%nat) as [Heq|Hne].
  - rewrite Heq, Nat.Div0.mod_same. simpl. rewrite drop_0, app_nil_r.
    rewrite (drop_ge L (S p)) by lia. simpl.
    rewrite <- (take_drop p (<[p:=x]> L)) at 1.
    rewrite take_insert_ge by lia. f_equal.
    rewrite drop_insert_ge by lia. rewrite Nat.sub_diag.
    rewrite (drop_S L y p Hy). simpl. rewrite (drop_ge L (S p)) by lia. done.
  - rewrite (Nat.mod_small (p + 1) c) by lia.
    rewrite drop_insert_lt by lia. rewrite Nat.add_1_r.
    rewrite <- app_assoc. f_equal.
    rewrite (take_S_r (<[p:=x]> L) p x).
    + by rewrite take_insert_ge by lia.
    + apply list_lookup_insert_eq. lia.
Qed.

Lemma set_item_ok {A} (arr : list A) i x :
  (i < length arr)%nat → set_item arr i x = Ok (<[i:=x]> arr).
Proof. intros Hi. unfold set_item. by rewrite decide_True. Qed.

Lemma ring_inv_bounds obs_dim c ts b :
  (1 ≤ c)%nat → ring_inv obs_dim c ts b →
  (ptr b < c)%nat ∧ (size b ≤ c)%nat ∧ capacity b = c.
Proof.
  intros Hc (L & _ & Hcap & Hp & Hs & _). rewrite Hp, Hs.
  split; [apply Nat.mod_upper_bound; lia|]. split; [lia|done].
Qed.

Lemma length_fill n o : length (fill n o) = n.
Proof. unfold fill. destruct (decide _); [done|]. apply length_replicate. Qed.

Lemma held_fits obs_dim x : fits obs_dim (held obs_dim x).
Proof. split; apply length_fill. Qed.

Lemma fits_held obs_dim x : fits obs_dim x → held obs_dim x = x.
Proof.
  intros [Ho Ho']. destruct x as [o a r o' d]. unfold held, fill; simpl in *.
  by rewrite !decide_True.
Qed.

Lemma fits_storable obs_dim x : fits obs_dim x → storable obs_dim x.
Proof. intros [Ho Ho']. split; by left. Qed.

Lemma Forall_fits_held obs_dim ts : Forall (fits obs_dim) (held obs_dim <$> ts).
Proof. apply Forall_fmap, Forall_forall. intros x _. apply held_fits. Qed.

Lemma Forall_fits_held_eq obs_dim ts : Forall (fits obs_dim) ts → held obs_dim <$> ts = ts.
Proof.
  induction 1 as [|x ts Hx _ IH]; [done|]. by rewrite fmap_cons, IH, fits_held.
Qed.

(** numpy's broadcast of a vector into a row, case by case. *)
Lemma broadcast_to_cases n o :
  match broadcast_to n o with
  | Ok filled => filled = fill n o ∧ (length o = n ∨ length o = 1%nat)
  | Raise e => e = ValueError ∧ ¬ (length o = n ∨ length o = 1%nat)
  end.
Proof.
  unfold broadcast_to, fill. destruct (decide (length o = n)) as [Hn|Hn].
  - split; [done|by left].
  - destruct o as [|v [|v' o]]; simpl in *.
    + split; [done|]. intros [?|?]; [done|lia].
    + split; [done|by right].
    + split; [done|]. intros [?|?]; [done|lia].
Qed.

Lemma set_row_ok (arr : list Obs) i o old :
  arr !! i = Some old → (length o = length old ∨ length o = 1%nat) →
  set_row arr i o = Ok (<[i:=fill (length old) o]> arr).
Proof.
  intros Hi Hlen. unfold set_row. rewrite Hi.
  pose proof (broadcast_to_cases (length old) o) as Hb.
  destruct (broadcast_to (length old) o) as [filled|e].
  - destruct Hb as [-> _]. done.
  - destruct Hb as [_ Hno]. done.
Qed.

Lemma set_row_raise (arr : list Obs) i o old :
  arr !! i = Some old → ¬ (length o = length old ∨ length o = 1%nat) →
  set_row arr i o = Raise ValueError.
Proof.
  intros Hi Hlen. unfold set_row. rewrite Hi.
  pose proof (broadcast_to_cases (length old) o) as Hb.
  destruct (broadcast_to (length old) o) as [filled|e].
  - destruct Hb as [_ Hyes]. done.
  - destruct Hb as [-> _]. done.
Qed.

(** In the ring invariant of a history of fitting rows every row of the
    arrays has [obs_dim] entries. *)
Lemma ring_rows_fit obs_dim c ts (L : list transition) p :
  Forall (fits obs_dim) ts →
  drop p L ++ take p L = drop (length ts) (replicate c (zero_row obs_dim) ++ ts) →
  Forall (fits obs_dim) L.
Proof.
  intros Hts Hrot.
  assert (Hall : Forall (fits obs_dim) (drop p L ++ take p L)).
  { rewrite Hrot. apply Forall_drop, Forall_app. split; [|done].
    apply Forall_replicate. split; apply length_replicate. }
  apply Forall_app in Hall as [Hd Ht].
  rewrite <- (take_drop p L). apply Forall_app. done.
Qed.

(** A [store] of a storable transition on a buffer in the ring invariant
    succeeds, writes slot [ptr] and moves the cursor and the fill count as the
    code says. *)
Lemma store_ring_inv obs_dim c ts b x :
  (1 ≤ c)%nat → ring_inv obs_dim c ts b → Forall (fits obs_dim) ts →
  storable obs_dim x →
  ∃ b', store_transition b x = Ok b' ∧
        ring_inv obs_dim c (ts ++ [held obs_dim x]) b' ∧
        ptr b' = ((ptr b + 1) mod c)%nat ∧ size b' = ((size b + 1) `min` c)%nat ∧
        row b' (ptr b) = Some (held obs_dim x) ∧
        (∀ i, i ≠ ptr b → row b' i = row b i).
Proof.
  intros Hc Hinv Hfit [Hsto Hsto'].
  destruct (ring_inv_bounds _ _ _ _ Hc Hinv) as (Hptr & Hsz & Hcap).
  destruct Hinv as (L & HL & _ & Hp & Hs & Hrot).
  pose proof HL as (Ho & Ha & Hr & Ho' & Hd & Hlen).
  pose proof (ring_rows_fit _ _ _ _ _ Hfit Hrot) as HLfit.
  destruct (lookup_lt_is_Some_2 L (ptr b)) as [y Hy]; [lia|].
  destruct (Forall_lookup_1 _ _ _ _ HLfit Hy) as [Hyo Hyo'].
  unfold store_transition, store.
  rewrite (set_row_ok (obs_buf b) (ptr b) (t_o x) (t_o y))
    by (rewrite ?Ho, ?list_lookup_fmap, ?Hy, ?Hyo; done).
  rewrite (set_row_ok (obs_prime_buf b) (ptr b) (t_o_prime x) (t_o_prime y))
    by (rewrite ?Ho', ?list_lookup_fmap, ?Hy, ?Hyo'; done).
  rewrite !set_item_ok by (rewrite ?Ha, ?Hr, ?Hd, length_fmap; lia).
  simpl. rewrite decide_False by lia. rewrite Hyo, Hyo'.
  change (Transition (fill obs_dim (t_o x)) (t_a x) (t_r x)
                     (fill obs_dim (t_o_prime x)) (t_d x))
    with (held obs_dim x).
  set (hx := held obs_dim x).
  eexists; split; [reflexivity|].
  assert (HL' : repr
    {| obs_buf := <[ptr b:=fill obs_dim (t_o x)]> (obs_buf b);
       act_buf := <[ptr b:=t_a x]> (act_buf b);
       rew_buf := <[ptr b:=t_r x]> (rew_buf b);
       obs_prime_buf := <[ptr b:=fill obs_dim (t_o_prime x)]> (obs_prime_buf b);
       done_buf := <[ptr b:=t_d x]> (done_buf b);
       ptr := (ptr b + 1) mod capacity b;
       size := (size b + 1) `min` capacity b;
       capacity := capacity b |} (<[ptr b:=hx]> L)).
  { unfold repr; simpl. rewrite !list_fmap_insert, length_insert.
    by rewrite <- Ho, <- Ha, <- Hr, <- Ho', <- Hd. }
  split; [|split; [|split; [|split]]]; simpl.
  - exists (<[ptr b:=hx]> L). split; [done|]. simpl. split; [done|].
    rewrite length_app. simpl. rewrite Hcap.
    assert (Hp' : ((length ts + 1) mod c = (ptr b + 1) mod c)%nat).
    { rewrite Hp. by rewrite Nat.Div0.add_mod_idemp_l. }
    split; [done|]. split; [lia|].
    rewrite app_assoc. rewrite Hp in *.
    replace (length ts + 1)%nat with (S (length ts)) by lia.
    apply ring_turn; [done|lia| |done].
    rewrite length_app, length_replicate. done.
  - by rewrite Hcap.
  - by rewrite Hcap.
  - rewrite (repr_row _ _ _ HL'). apply list_lookup_insert_eq. lia.
  - intros i Hi. rewrite (repr_row _ _ _ HL'), (repr_row _ _ _ HL).
    by apply list_lookup_insert_ne.
Qed.

(** A [store] of a transition numpy cannot broadcast raises ValueError. *)
Lemma store_ring_inv_raise obs_dim c ts b x :
  (1 ≤ c)%nat → ring_inv obs_dim c ts b → Forall (fits obs_dim) ts →
  ¬ storable obs_dim x → store_transition b x = Raise ValueError.
Proof.
  intros Hc Hinv Hfit Hno.
  destruct (ring_inv_bounds _ _ _ _ Hc Hinv) as (Hptr & Hsz & Hcap).
  destruct Hinv as (L & HL & _ & Hp & Hs & Hrot).
  pose proof HL as (Ho & Ha & Hr & Ho' & Hd & Hlen).
  pose proof (ring_rows_fit _ _ _ _ _ Hfit Hrot) as HLfit.
  destruct (lookup_lt_is_Some_2 L (ptr b)) as [y Hy]; [lia|].
  destruct (Forall_lookup_1 _ _ _ _ HLfit Hy) as [Hyo Hyo'].
  assert (Hrow : obs_buf b !! ptr b = Some (t_o y))
    by (by rewrite Ho, list_lookup_fmap, Hy).
  assert (Hrow' : obs_prime_buf b !! ptr b = Some (t_o_prime y))
    by (by rewrite Ho', list_lookup_fmap, Hy).
  unfold store_transition, store.
  destruct (decide (length (t_o x) = obs_dim ∨ length (t_o x) = 1%nat)) as [Hyes|Hbad].
  - rewrite (set_row_ok _ _ _ _ Hrow) by (by rewrite Hyo).
    rewrite !set_item_ok by (rewrite ?Ha, ?Hr, ?Hd, length_fmap; lia). simpl.
    rewrite (set_row_raise _ _ _ _ Hrow'); [done|].
    rewrite Hyo'. intros Hyes'. apply Hno. by split.
  - rewrite (set_row_raise _ _ _ _ Hrow); [done|]. by rewrite Hyo.
Qed.

Lemma storable_dec obs_dim x : storable obs_dim x ∨ ¬ storable obs_dim x.
Proof.
  unfold storable.
  destruct (decide (length (t_o x) = obs_dim ∨ length (t_o x) = 1%nat));
    destruct (decide (length (t_o_prime x) = obs_dim ∨ length (t_o_prime x) = 1%nat));
    tauto.
Qed.

Lemma store_all_app b xs ys :
  store_all b (xs ++ ys) = (b' ← store_all b xs; store_all b' ys).
Proof.
  revert b. induction xs as [|x xs IH]; intros b; simpl; [done|].
  destruct (store_transition b x); simpl; [apply IH|done].
Qed.

Lemma store_all_ring_inv obs_dim c ts b xs :
  (1 ≤ c)%nat → ring_inv obs_dim c ts b → Forall (fits obs_dim) ts →
  Forall (storable obs_dim) xs →
  ∃ b', store_all b xs = Ok b' ∧ ring_inv obs_dim c (ts ++ (held obs_dim <$> xs)) b'.
Proof.
  intros Hc. revert ts b. induction xs as [|x xs IH]; intros ts b Hinv Hfit Hxs; simpl.
  - exists b. by rewrite app_nil_r.
  - apply Forall_cons in Hxs as [Hx Hxs].
    destruct (store_ring_inv _ _ _ _ x Hc Hinv Hfit Hx) as (b1 & -> & Hinv1 & _).
    simpl. destruct (IH _ _ Hinv1) as (b' & -> & Hinv'); [|done|].
    + apply Forall_app. split; [done|]. constructor; [apply held_fits|constructor].
    + exists b'. by rewrite <- app_assoc in Hinv'.
Qed.

(** Stores that all went through were stores of storable transitions. *)
Lemma store_all_storable obs_dim c ts b xs b' :
  (1 ≤ c)%nat → ring_inv obs_dim c ts b → Forall (fits obs_dim) ts →
  store_all b xs = Ok b' → Forall (storable obs_dim) xs.
Proof.
  intros Hc. revert ts b. induction xs as [|x xs IH]; intros ts b Hinv Hfit Hst;
    [constructor|].
  simpl in Hst.
  destruct (storable_dec obs_dim x) as [Hx|Hx].
  - constructor; [done|].
    destruct (store_ring_inv _ _ _ _ x Hc Hinv Hfit Hx) as (b1 & Hb1 & Hinv1 & _).
    rewrite Hb1 in Hst. simpl in Hst. eapply (IH _ _ Hinv1); [|done].
    apply Forall_app. split; [done|]. constructor; [apply held_fits|constructor].
  - by rewrite (store_ring_inv_raise _ _ _ _ x Hc Hinv Hfit Hx) in Hst.
Qed.

(** What the ring invariant says about the written slots. *)
Lemma ring_inv_stored obs_dim c ts b :
  (1 ≤ c)%nat → ring_inv obs_dim c ts b →
  ((length ts < c)%nat → stored b = ts) ∧
  ((c ≤ length ts)%nat →
     drop (ptr b) (stored b) ++ take (ptr b) (stored b) = most_recent c ts) ∧
  stored b ≡ₚ most_recent (length ts `min` c) ts.
Proof.
  intros Hc Hinv.
  destruct (ring_inv_bounds _ _ _ _ Hc Hinv) as (Hptr & Hsz & Hcap).
  destruct Hinv as (L & HL & _ & Hp & Hs & Hrot).
  pose proof HL as (_ & _ & _ & _ & _ & Hlen).
  rewrite (repr_stored b L HL) by lia.
  assert (Hsmall : (length ts < c)%nat → take (size b) L = ts).
  { intros Hlt. rewrite Hs, Nat.min_l by lia.
    rewrite Hp, Nat.mod_small in Hrot by lia.
    rewrite drop_app_le in Hrot by (rewrite length_replicate; lia).
    rewrite drop_replicate in Hrot.
    apply app_inj_2 in Hrot; [tauto|]. rewrite length_take. lia. }
  assert (Hfull : (c ≤ length ts)%nat →
    drop (ptr b) (take (size b) L) ++ take (ptr b) (take (size b) L)
    = most_recent c ts).
  { intros Hge. rewrite Hs, Nat.min_r by lia.
    rewrite (take_ge L c) by lia. rewrite Hrot. unfold most_recent.
    rewrite drop_app_ge by (rewrite length_replicate; lia).
    by rewrite length_replicate. }
  split; [done|]. split; [done|].
  destruct (decide (length ts < c)%nat) as [Hlt|Hge].
  - rewrite Hsmall by done. unfold most_recent.
    rewrite Nat.min_l by lia. by rewrite Nat.sub_diag, drop_0.
  - rewrite Nat.min_r by lia. rewrite <- Hfull by lia.
    rewrite <- (take_drop (ptr b) (take (size b) L)) at 1.
    apply Permutation_app_comm.
Qed.

Lemma take_rows_fmap {A B} (f : A → B) (L : list A) (idxs : list nat) :
  Forall (λ i, i < length L)%nat idxs →
  take_rows (f <$> L) idxs = Ok (f <$> omap (λ i, L !! i) idxs).
Proof.
  unfold take_rows. induction 1 as [|i idxs Hi _ IH]; [done|].
  destruct (lookup_lt_is_Some_2 L i Hi) as [y Hy].
  change (mapM (get_item (f <$> L)) (i :: idxs))
    with (z ← get_item (f <$> L) i; k ← mapM (get_item (f <$> L)) idxs; mret (z :: k)).
  rewrite IH. unfold get_item. rewrite list_lookup_fmap, Hy. simpl. by rewrite Hy.
Qed.

Lemma batch_rows_fmap (xs : list transition) :
  batch_rows (t_o <$> xs) (t_a <$> xs) (t_r <$> xs) (t_o_prime <$> xs) (t_d <$> xs) = xs.
Proof. induction xs as [|[] xs IH]; simpl; [done|]. f_equal. exact IH. Qed.

Lemma random_choice_range a n entropy :
  (1 ≤ a)%nat →
  ∃ idxs, Np.random_choice a n entropy = Ok idxs ∧ length idxs = n ∧
          Forall (λ i, i < a)%nat idxs.
Proof.
  intros Ha. unfold Np.random_choice. rewrite decide_False by lia.
  eexists; split; [done|]. rewrite length_fmap, length_seq. split; [done|].
  apply Forall_fmap, Forall_forall. intros k _. simpl.
  apply Nat.mod_upper_bound. lia.
Qed.

(** Every vector of [n] indices below [a], repetitions included, is the
    outcome of [np.random.choice(a, n)] for some entropy. *)
Lemma random_choice_onto a n idxs :
  (1 ≤ a)%nat → length idxs = n → Forall (λ i, i < a)%nat idxs →
  ∃ entropy, Np.random_choice a n entropy = Ok idxs.
Proof.
  intros Hpos Hn Hall. exists (λ k, default 0%nat (idxs !! k)).
  unfold Np.random_choice.
  destruct (decide (a = 0)%nat) as [->|Ha].
  - lia.
  - f_equal. apply list_eq. intros k.
    rewrite list_lookup_fmap.
    destruct (decide (k < n)%nat) as [Hk|Hk].
    + rewrite lookup_seq_lt by done. simpl.
      destruct (lookup_lt_is_Some_2 idxs k) as [i Hi]; [lia|].
      rewrite Hi. simpl. f_equal. apply Nat.mod_small.
      by eapply (Forall_lookup_1 _ _ _ _ Hall).
    + rewrite lookup_seq_ge by lia. simpl. symmetry.
      apply lookup_ge_None. lia.
Qed.

(** [sample] on a buffer in the ring invariant that holds something. *)
Lemma sample_ring_inv obs_dim c ts b n entropy :
  (1 ≤ c)%nat → ring_inv obs_dim c ts b → (1 ≤ size b)%nat →
  ∃ bt idxs,
    sample b n entropy = Ok bt ∧
    Np.random_choice (size b) n entropy = Ok idxs ∧
    length idxs = n ∧ Forall (λ i, i < size b)%nat idxs ∧
    Forall2 (λ i x, row b i = Some x) idxs (rows_of bt) ∧
    length (b_o bt) = n ∧ length (b_a bt) = n ∧ length (b_r bt) = n ∧
    length (b_o_prime bt) = n ∧ length (b_d bt) = n ∧
    Forall (λ x, x ∈ most_recent (length ts `min` c) ts) (rows_of bt).
Proof.
  intros Hc Hinv Hsize.
  destruct (ring_inv_bounds _ _ _ _ Hc Hinv) as (Hptr & Hsz & Hcap).
  destruct (ring_inv_stored _ _ _ _ Hc Hinv) as (_ & _ & Hperm).
  destruct Hinv as (L & HL & _ & _ & _ & _).
  pose proof HL as (Ho & Ha & Hr & Ho' & Hd & Hlen).
  destruct (random_choice_range (size b) n entropy Hsize) as (idxs & Hch & Hn & Hlt).
  assert (HltL : Forall (λ i, i < length L)%nat idxs).
  { eapply Forall_impl; [exact Hlt|]. simpl. intros. lia. }
  set (xs := omap (λ i, L !! i) idxs).
  assert (Hxs : Forall2 (λ i x, L !! i = Some x) idxs xs).
  { subst xs. clear Hlt Hn Hch. induction HltL as [|i idxs Hi _ IH]; [constructor|].
    destruct (lookup_lt_is_Some_2 L i Hi) as [y Hy]. simpl. rewrite Hy.
    by constructor. }
  exists (Batch (t_o <$> xs) (t_a <$> xs) (t_r <$> xs) (t_o_prime <$> xs) (t_d <$> xs)), idxs.
  assert (Hlenxs : length xs = n) by (by rewrite <- (Forall2_length _ _ _ Hxs)).
  split.
  { unfold sample. rewrite Hch. cbn.
    rewrite Ho, Ha, Hr, Ho', Hd, !take_rows_fmap by done. done. }
  split; [done|]. split; [done|]. split; [done|].
  unfold rows_of; simpl. rewrite batch_rows_fmap, !length_fmap.
  split.
  { eapply Forall2_impl; [exact Hxs|]. intros i x Hix. by rewrite (repr_row _ _ _ HL). }
  repeat (split; [done|]).
  apply Forall_forall. intros x Hx.
  rewrite <- Hperm, (repr_stored b L HL) by lia.
  apply list_elem_of_lookup in Hx as [k Hk].
  destruct (Forall2_lookup_r _ _ _ _ _ Hxs Hk) as (i & Hi & HLi).
  apply list_elem_of_lookup. exists i.
  rewrite lookup_take_lt; [done|].
  by eapply (Forall_lookup_1 _ _ _ _ Hlt).
Qed.

Lemma store_all_from_init obs_dim c ts b :
  (1 ≤ c)%nat → store_all (init obs_dim c) ts = Ok b →
  ring_inv obs_dim c (held obs_dim <$> ts) b.
Proof.
  intros Hc Hb.
  pose proof (store_all_storable obs_dim c [] (init obs_dim c) ts b Hc
                (init_ring_inv obs_dim c Hc) (Forall_nil_2 _) Hb) as Hsto.
  destruct (store_all_ring_inv obs_dim c [] (init obs_dim c) ts Hc
              (init_ring_inv obs_dim c Hc) (Forall_nil_2 _) Hsto) as (b' & Hb' & Hinv).
  rewrite Hb in Hb'. by injection Hb' as <-.
Qed.

Lemma store_all_init_ok obs_dim c ts :
  (1 ≤ c)%nat → Forall (storable obs_dim) ts →
  ∃ b, store_all (init obs_dim c) ts = Ok b.
Proof.
  intros Hc Hsto.
  destruct (store_all_ring_inv obs_dim c [] (init obs_dim c) ts Hc
              (init_ring_inv obs_dim c Hc) (Forall_nil_2 _) Hsto) as (b & Hb & _).
  by exists b.
Qed.

End BufferFacts.

(** C1. For every capacity [c >= 1] and every sequence [ts] of stores into a
    fresh buffer of that capacity, of transitions whose observations have the
    buffer's [obs_dim] entries, all stores succeed and the buffer then holds
    exactly the [min (length ts) c] most recently stored transitions: all of
    [ts] in order while it is not full, and, once full, the last [c] of them
    when read from [ptr] round the ring, the oldest being the next to be
    overwritten.  [ptr = length ts mod c] and [size = min (length ts) c], so
    [0 <= ptr < c] and [0 <= size <= c]; a further store of such a transition
    writes slot [ptr], leaves the other slots alone and sets
    [ptr = (ptr + 1) mod c], [size = min (size + 1) c].  (A store whose
    observation numpy cannot write into a row of [obs_dim] entries raises
    ValueError.)  Rewards [1..6] into capacity 4 leave the rewards
    [5, 6, 3, 4] in the slots, i.e. the set {3, 4, 5, 6}, with [ptr = 2] and
    [size = 4]. *)
Theorem store_keeps_most_recent (obs_dim c : nat) (ts : list Buffer.transition) :
  (1 ≤ c)%nat → Forall (Buffer.fits obs_dim) ts →
  (∃ b, Buffer.store_all (Buffer.init obs_dim c) ts = Ok b ∧
        Buffer.ptr b = (length ts mod c)%nat ∧
        Buffer.size b = (length ts `min` c)%nat ∧
        (0 ≤ Buffer.ptr b < c)%nat ∧ (0 ≤ Buffer.size b ≤ c)%nat ∧
        Buffer.stored b ≡ₚ Buffer.most_recent (length ts `min` c) ts ∧
        ((length ts < c)%nat → Buffer.stored b = ts) ∧
        ((c ≤ length ts)%nat →
           drop (Buffer.ptr b) (Buffer.stored b) ++ take (Buffer.ptr b) (Buffer.stored b)
           = Buffer.most_recent c ts) ∧
        (∀ x, Buffer.fits obs_dim x →
              ∃ b', Buffer.store_transition b x = Ok b' ∧
                    Buffer.row b' (Buffer.ptr b) = Some x ∧
                    (∀ i, i ≠ Buffer.ptr b → Buffer.row b' i = Buffer.row b i) ∧
                    Buffer.ptr b' = ((Buffer.ptr b + 1) mod c)%nat ∧
                    Buffer.size b' = ((Buffer.size b + 1) `min` c)%nat) ∧
        (∀ x, ¬ Buffer.storable obs_dim x →
              Buffer.store_transition b x = Raise ValueError)) ∧
  (∃ b, Buffer.store_all (Buffer.init 0 4) (Buffer.reward_only <$> [1; 2; 3; 4; 5; 6]) = Ok b ∧
        Buffer.stored_rewards b = [5; 6; 3; 4] ∧
        Buffer.stored_rewards b ≡ₚ [3; 4; 5; 6] ∧
        Buffer.ptr b = 2%nat ∧ Buffer.size b = 4%nat).
Proof.
  intros Hc Hfit. split.
  - destruct (store_all_ring_inv obs_dim c [] (Buffer.init obs_dim c) ts Hc
                (init_ring_inv obs_dim c Hc) (Forall_nil_2 _)) as (b & Hb & Hinv).
    { eapply Forall_impl; [exact Hfit|]. apply fits_storable. }
    simpl in Hinv. rewrite (Forall_fits_held_eq _ _ Hfit) in Hinv.
    exists b. split; [done|].
    destruct (ring_inv_bounds _ _ _ _ Hc Hinv) as (Hptr & Hsz & Hcap).
    destruct (ring_inv_stored _ _ _ _ Hc Hinv) as (Hsmall & Hfull & Hperm).
    pose proof Hinv as (L & _ & _ & Hp & Hs & _).
    repeat (split; [done || lia|]).
    split.
    + intros x Hx.
      destruct (store_ring_inv _ _ _ _ x Hc Hinv Hfit (fits_storable _ _ Hx))
        as (b' & ? & _ & ? & ? & Hrow & ?).
      rewrite (fits_held _ _ Hx) in Hrow. by exists b'.
    + intros x Hx. by apply (store_ring_inv_raise obs_dim c ts).
  - eexists. split; [vm_compute; reflexivity|]. simpl.
    split; [reflexivity|]. split; [|done].
    change [5; 6; 3; 4] with ([5; 6] ++ [3; 4]).
    apply (Permutation_app_comm [5; 6] [3; 4]).
Qed.

Lemma store_keeps_most_recent_witness :
  ∃ b, Buffer.store_all (Buffer.init 2 3)
         ((λ r, Buffer.Transition [r; 0] 1 r [r; 1] 0) <$> [1; 2; 3; 4; 5]) = Ok b ∧
       Buffer.ptr b = 2%nat ∧ Buffer.size b = 3%nat.
Proof.
  destruct (store_keeps_most_recent 2 3
              ((λ r, Buffer.Transition [r; 0] 1 r [r; 1] 0) <$> [1; 2; 3; 4; 5]))
    as [(b & Hb & Hp & Hs & _) _].
  - lia.
  - repeat constructor.
  - exists b. split; [exact Hb|]. split; [exact Hp|exact Hs].
Defined.

(** ** Exploration schedule *)

Section ScheduleFacts.

Lemma length_linspace start stop num : length (Np.linspace start stop num) = num.
Proof.
  unfold Np.linspace.
  repeat case_decide; rewrite ?length_insert, length_fmap, length_seq; done.
Qed.

Lemma eps_is_value epsilon start_steps t :
  Schedule.eps epsilon start_steps t = Ok (eps_value epsilon start_steps t).
Proof.
  unfold Schedule.eps, eps_value.
  destruct (decide (start_steps ≤ t)%nat) as [|Hlt]; [done|].
  unfold Buffer.get_item, Schedule.epsilon_schedule, Np.linspace.
  destruct (decide (1 < start_steps)%nat) as [Hbig|Hsmall].
  - rewrite decide_True by lia.
    destruct (decide (t = start_steps - 1)%nat) as [->|Hne].
    + rewrite list_lookup_insert_eq; [done|]. rewrite length_fmap, length_seq. lia.
    + rewrite list_lookup_insert_ne by done.
      rewrite list_lookup_fmap, lookup_seq_lt by lia. done.
  - rewrite decide_False by lia.
    rewrite list_lookup_fmap, lookup_seq_lt by lia. done.
Qed.

Lemma of_nat_le (i j : nat) : (i ≤ j)%nat → Np.of_nat i <= Np.of_nat j.
Proof. intros Hij. unfold Np.of_nat. rewrite <- Zle_Qle. lia. Qed.

Lemma of_nat_pos (i : nat) : (0 < i)%nat → 0 < Np.of_nat i.
Proof.
  intros Hi. unfold Np.of_nat. change 0 with (inject_Z 0). rewrite <- Zlt_Qlt. lia.
Qed.

Lemma of_nat_0 : Np.of_nat 0 == 0.
Proof. reflexivity. Qed.

(** Between the two ends every sample lies in [epsilon .. 1]. *)
Lemma ramp_bounds epsilon (n i : nat) :
  epsilon <= 1 → (i ≤ n)%nat → (0 < n)%nat →
  epsilon <= Np.of_nat i * ((epsilon - 1) / Np.of_nat n) + 1 <= 1.
Proof.
  intros He Hi Hn.
  pose proof (of_nat_pos n Hn) as HN. pose proof (of_nat_le i n Hi) as HI.
  pose proof (of_nat_le 0 i ltac:(lia)) as HI0. rewrite of_nat_0 in HI0.
  set (s := (epsilon - 1) / Np.of_nat n).
  assert (Hs : Np.of_nat n * s == epsilon - 1).
  { subst s. field. lra. }
  assert (Hs0 : s <= 0).
  { apply Qnot_lt_le. intros Hpos.
    assert (0 < Np.of_nat n * s) by (apply Qmult_lt_0_compat; done). lra. }
  split; nra.
Qed.

Lemma ramp_mono epsilon (n i j : nat) :
  epsilon <= 1 → (i ≤ j)%nat → (0 < n)%nat →
  Np.of_nat j * ((epsilon - 1) / Np.of_nat n) + 1
  <= Np.of_nat i * ((epsilon - 1) / Np.of_nat n) + 1.
Proof.
  intros He Hij Hn.
  pose proof (of_nat_pos n Hn) as HN. pose proof (of_nat_le i j Hij) as HI.
  set (s := (epsilon - 1) / Np.of_nat n).
  assert (Hs : Np.of_nat n * s == epsilon - 1).
  { subst s. field. lra. }
  assert (Hs0 : s <= 0).
  { apply Qnot_lt_le. intros Hpos.
    assert (0 < Np.of_nat n * s) by (apply Qmult_lt_0_compat; done). lra. }
  nra.
Qed.

Lemma eps_value_bounds epsilon start_steps t :
  epsilon <= 1 → epsilon <= eps_value epsilon start_steps t <= 1.
Proof.
  intros He. unfold eps_value. repeat case_decide; try lra.
  - apply ramp_bounds; [done|lia|lia].
  - assert (t = 0)%nat as -> by lia. rewrite of_nat_0. lra.
Qed.

Lemma eps_value_mono epsilon start_steps t1 t2 :
  epsilon <= 1 → (t1 ≤ t2)%nat →
  eps_value epsilon start_steps t2 <= eps_value epsilon start_steps t1.
Proof.
  intros He Ht.
  destruct (decide (t1 = t2)) as [->|Hne]; [lra|].
  pose proof (eps_value_bounds epsilon start_steps t1 He) as [Hlo _].
  unfold eps_value in *. repeat case_decide; try lra; try lia.
  apply ramp_mono; [done|lia|lia].
Qed.

Lemma eps_value_linspace epsilon start_steps t :
  (1 < start_steps)%nat →
  eps_value epsilon start_steps t == linspace_epsilon_at epsilon start_steps t.
Proof.
  intros Hss. unfold eps_value, linspace_epsilon_at.
  pose proof (of_nat_pos (start_steps - 1) ltac:(lia)) as HN.
  repeat case_decide; try lia.
  - rewrite Nat.min_r by lia. field. lra.
  - subst t. rewrite Nat.min_r by lia. field. lra.
  - rewrite Nat.min_l by lia. field. lra.
Qed.

End ScheduleFacts.

(** C3 (as the code has it).  For every [start_steps > 0] and every step the
    schedule returns a value.  With [start_steps > 1] it is
    [1 + (epsilon_min - 1) * min(step, start_steps - 1) / (start_steps - 1)]:
    the [start_steps] samples of [np.linspace(1, epsilon_min, start_steps)],
    which reach [epsilon_min] at step [start_steps - 1].  With
    [start_steps = 1] it is 1 at step 0 and [epsilon_min] afterwards.  For
    [start_steps = 100] and [epsilon_min = 0.05] the value at step 50 is
    [103/198] (about 0.5202) and at step 150 it is [0.05] itself. *)
Theorem eps_follows_linspace (epsilon : Q) (start_steps t : nat) :
  (0 < start_steps)%nat →
  (∃ e, Schedule.eps epsilon start_steps t = Ok e ∧
        ((1 < start_steps)%nat → e == linspace_epsilon_at epsilon start_steps t) ∧
        (start_steps = 1%nat → e == if decide (t = 0)%nat then 1 else epsilon)) ∧
  (∃ e50, Schedule.eps (1 # 20) 100 50 = Ok e50 ∧ e50 == 103 # 198) ∧
  Schedule.eps (1 # 20) 100 150 = Ok (1 # 20).
Proof.
  intros Hss. split; [|split].
  - exists (eps_value epsilon start_steps t). split; [apply eps_is_value|]. split.
    + apply eps_value_linspace.
    + intros ->. unfold eps_value. repeat case_decide; try lia; try reflexivity.
      subst t. rewrite of_nat_0. lra.
  - eexists. split; [vm_compute; reflexivity|]. reflexivity.
  - reflexivity.
Qed.

Lemma eps_follows_linspace_witness :
  ∃ e, Schedule.eps (1 # 10) 5 2 = Ok e ∧ e == linspace_epsilon_at (1 # 10) 5 2.
Proof.
  destruct (eps_follows_linspace (1 # 10) 5 2) as [(e & He & Hlin & _) _]; [lia|].
  exists e. split; [exact He|]. apply Hlin. lia.
Defined.

(** C3 as the specification states it fails: at [start_steps = 100],
    [epsilon_min = 0.05] and step 50 the code uses [103/198], the formula
    with divisor [start_steps] gives [21/40 = 0.525], and the two differ by
    more than 0.004. *)
Lemma eps_differs_from_spec_formula :
  Schedule.eps (1 # 20) 100 50 = Ok (1030 # 1980) ∧
  Schedule.spec_epsilon_at (1 # 20) 100 50 == 21 # 40 ∧
  ¬ (1030 # 1980 == Schedule.spec_epsilon_at (1 # 20) 100 50) ∧
  4 # 1000 < Schedule.spec_epsilon_at (1 # 20) 100 50 - (1030 # 1980).
Proof.
  split; [vm_compute; reflexivity|]. split; [reflexivity|]. split.
  - intros Heq. vm_compute in Heq. discriminate Heq.
  - reflexivity.
Qed.

(** C8. With [epsilon_min <= 1] and [start_steps > 0]: the schedule returns
    a value at every step and is non-increasing in the step; the value at
    step 0 is 1; at every step [k >= start_steps], [k = start_steps]
    included, it is [epsilon_min] itself. *)
Theorem eps_schedule_shape (epsilon : Q) (start_steps : nat) :
  epsilon <= 1 → (0 < start_steps)%nat →
  (∀ t1 t2, (t1 ≤ t2)%nat →
     ∃ e1 e2, Schedule.eps epsilon start_steps t1 = Ok e1 ∧
              Schedule.eps epsilon start_steps t2 = Ok e2 ∧ e2 <= e1) ∧
  (∃ e0, Schedule.eps epsilon start_steps 0 = Ok e0 ∧ e0 == 1) ∧
  (∀ k, (start_steps ≤ k)%nat → Schedule.eps epsilon start_steps k = Ok epsilon) ∧
  Schedule.eps epsilon start_steps start_steps = Ok epsilon.
Proof.
  intros He Hss. split; [|split; [|split]].
  - intros t1 t2 Ht. exists (eps_value epsilon start_steps t1), (eps_value epsilon start_steps t2).
    rewrite !eps_is_value. split; [done|]. split; [done|]. by apply eps_value_mono.
  - exists (eps_value epsilon start_steps 0). split; [apply eps_is_value|].
    unfold eps_value. repeat case_decide; try lia; rewrite ?of_nat_0; lra.
  - intros k Hk. unfold Schedule.eps. by rewrite decide_True.
  - unfold Schedule.eps. by rewrite decide_True.
Qed.

Lemma eps_schedule_shape_witness :
  (∃ e0, Schedule.eps (1 # 20) 100 0 = Ok e0 ∧ e0 == 1) ∧
  Schedule.eps (1 # 20) 100 100 = Ok (1 # 20).
Proof.
  destruct (eps_schedule_shape (1 # 20) 100) as (_ & H0 & _ & Hend).
  - unfold Qle. simpl. lia.
  - lia.
  - split; [exact H0|exact Hend].
Defined.

(** ** TD target *)

Section TargetFacts.
Context `{Approximator}.
Import Buffer.

Lemma batch_rows_lookup os acts rs os' ds k x :
  batch_rows os acts rs os' ds !! k = Some x →
  os !! k = Some (t_o x) ∧ acts !! k = Some (t_a x) ∧ rs !! k = Some (t_r x) ∧
  os' !! k = Some (t_o_prime x) ∧ ds !! k = Some (t_d x).
Proof.
  revert acts rs os' ds k.
  induction os as [|o os IH]; intros [|a acts] [|r rs] [|o' os'] [|d ds] k; try done.
  destruct k as [|k]; simpl.
  - intros [= <-]. done.
  - apply IH.
Qed.

Lemma target_lookup gamma rew done q k r d q' :
  rew !! k = Some r → done !! k = Some d → q !! k = Some q' →
  Graph.target gamma rew done q !! k = Some (r + gamma * (1 - d) * q').
Proof.
  intros Hr Hd Hq. unfold Graph.target.
  rewrite !lookup_zip_with, list_lookup_fmap, Hr, Hd, Hq. done.
Qed.

End TargetFacts.

(** C2. For every row of a batch fed to the training graph, the target the
    trainer computes is [reward + gamma * (1 - done) * max_a' Q_target(o', a')];
    when the row's done flag is set (stored as 1.0) the target is the reward,
    whatever the target network's Q values. *)
Theorem td_target_formula `{Approximator} (gamma : Q) (targ : params)
    (bt : Buffer.batch) (k : nat) (x : Buffer.transition) :
  Buffer.rows_of bt !! k = Some x →
  ∃ tgt, Graph.batch_target gamma targ bt !! k = Some tgt ∧
         tgt == Graph.spec_td_target gamma targ x ∧
         tgt == Buffer.t_r x + gamma * (1 - Buffer.t_d x)
                               * Graph.list_max (q_vals targ (Buffer.t_o_prime x)) ∧
         (Buffer.t_d x == Np.of_bool true → tgt == Buffer.t_r x).
Proof.
  intros Hx. apply batch_rows_lookup in Hx as (_ & _ & Hr & Ho' & Hd).
  eexists. split.
  - unfold Graph.batch_target. apply target_lookup; [done|done|].
    rewrite list_lookup_fmap, Ho'. reflexivity.
  - unfold Graph.spec_td_target, Graph.q_pi. split; [reflexivity|].
    split; [reflexivity|]. simpl. intros ->. ring.
Qed.

Lemma td_target_formula_witness :
  ∃ tgt, Graph.batch_target (H := Demo.shift_net) (99 # 100) [[5; 7]]
           (Buffer.Batch [[0]; [1]] [0; 1] [3; 4] [[1]; [2]] [0; 1]) !! 1%nat = Some tgt ∧
         tgt == 4.
Proof.
  destruct (td_target_formula (H := Demo.shift_net) (99 # 100) [[5; 7]]
              (Buffer.Batch [[0]; [1]] [0; 1] [3; 4] [[1]; [2]] [0; 1]) 1
              (Buffer.Transition [1] 1 4 [2] 1))
    as (tgt & Htgt & _ & _ & Hdone); [reflexivity|].
  exists tgt. split; [exact Htgt|]. apply Hdone. reflexivity.
Defined.

(** ** Interpolating target update of the older trainer *)

Section PolyakFacts.
Context `{Approximator}.

Lemma assign_all_lookup f (main targ : params) i vm vt :
  main !! i = Some vm → targ !! i = Some vt →
  Episodic.assign_all f main targ !! i = Some (f vm vt).
Proof.
  unfold params in *. intros Hm Ht. unfold Episodic.assign_all.
  rewrite lookup_app_l.
  - by rewrite lookup_zip_with, Hm, Ht.
  - rewrite length_zip_with. apply lookup_lt_Some in Hm, Ht. lia.
Qed.


End PolyakFacts.

(** ** The step-granularity trainer *)

Section TrainerFacts.
Context `{Approximator} `{GymEnv}.
Variable rng : nat → Stepwise.draw.
Variable preprocess_fn : Buffer.Obs → env_state → Buffer.Obs.
Import Stepwise TraceSpec.

Abbreviation M := (Stepwise.M).
Notation "m >>= f" := (mbind (MBind := Stepwise.M_bind) f m) (at level 60, right associativity).

Lemma bind_run {A B} (m : M A) (f : A → M B) (w : world) :
  (m >>= f) w = match m w with
                | (w', Ok a) => f a w'
                | (w', Raise e) => (w', Raise e)
                end.
Proof. reflexivity. Qed.

#[local] Arguments Buffer.store : simpl never.
#[local] Arguments Buffer.sample : simpl never.
#[local] Arguments Schedule.eps : simpl never.
#[local] Arguments Graph.batch_loss : simpl never.
#[local] Arguments copy_due : simpl never.

Ltac mrun := repeat (rewrite bind_run; simpl).

Lemma get_action_run cfg n ob t w w' r :
  get_action rng cfg n ob t w = (w', r) → w' = w.
Proof.
  unfold get_action. rewrite bind_run. unfold lift.
  destruct (Schedule.eps _ _ _) as [e|e]; [|congruence].
  destruct (Np.ltb _ _); [congruence|]. rewrite bind_run. unfold get, mret, Stepwise.M_ret. congruence.
Qed.

Lemma step_run a w w' r :
  step a w = (w', r) →
  ∃ o' rew d, r = Ok (o', rew, d) ∧ trace w' = trace w ++ [EnvStep a d] ∧
              buf w' = buf w ∧ total_t w' = total_t w ∧ same_nets w w'.
Proof.
  unfold step. rewrite bind_run. unfold get.
  destruct (env_step (env w) a) as [e' [[o' rew] d]].
  rewrite !bind_run. simpl. intros [= <- <-]. by exists o', rew, d.
Qed.

Lemma reset_run w w' r :
  reset w = (w', r) →
  ∃ o0, r = Ok o0 ∧ trace w' = trace w ++ [EnvReset] ∧
        buf w' = buf w ∧ total_t w' = total_t w ∧ same_nets w w'.
Proof.
  unfold reset. rewrite bind_run. unfold get.
  destruct (env_reset (env w)) as [e' o0].
  rewrite !bind_run. simpl. intros [= <- <-]. by exists o0.
Qed.

Lemma store_size_pos b ob a r o' d b' :
  Buffer.store b ob a r o' d = Ok b' → (1 ≤ Buffer.size b')%nat.
Proof.
  unfold Buffer.store. 
  repeat (match goal with
          | |- context [Buffer.set_row ?arr ?i ?x] =>
              destruct (Buffer.set_row arr i x); simpl; [|discriminate]
          | |- context [Buffer.set_item ?arr ?i ?x] =>
              destruct (Buffer.set_item arr i x); simpl; [|discriminate]
          end).
  destruct (decide (Buffer.capacity b = 0)%nat); [discriminate|].
  intros [= <-]. simpl. lia.
Qed.

Lemma buf_store_run ob a r o' d w w' res :
  buf_store ob a r o' d w = (w', res) →
  trace w' = trace w ++ [BufStore] ∧ total_t w' = total_t w ∧ same_nets w w' ∧
  (∀ u, res = Ok u → (1 ≤ Buffer.size (buf w'))%nat).
Proof.
  unfold buf_store. mrun. unfold lift.
  destruct (Buffer.store _ _ _ _ _ _) as [b'|e] eqn:Hst; simpl.
  - intros [= <- <-]. simpl. repeat split; try done.
    intros _ _. by eapply store_size_pos.
  - intros [= <- <-]. simpl. repeat split; try done.
Qed.

Lemma update_run cfg t w w' res :
  update rng cfg t w = (w', res) →
  trace w' = trace w ++ [BufSample (Buffer.size (buf w)) (batch_size cfg)] ∧
  buf w' = buf w ∧ total_t w' = total_t w ∧
  (∀ loss, res = Ok loss →
     (copy_due cfg t = true → q_model_targ w' = q_model w') ∧
     (copy_due cfg t = false → q_model_targ w' = q_model_targ w)).
Proof.
  unfold update. mrun. unfold lift.
  destruct (Buffer.sample _ _ _) as [bt|e]; simpl.
  2:{ intros [= <- <-]. simpl. repeat split; try done. }
  unfold q_train_fn. mrun.
  destruct (q_updates _ _ _ _) as [opt' main']. mrun.
  destruct (copy_due cfg t); simpl; intros [= <- <-]; simpl; repeat split; try done.
Qed.

Lemma omap_app_flags (tr1 tr2 : list event) :
  done_flags (tr1 ++ tr2) = done_flags tr1 ++ done_flags tr2.
Proof. unfold done_flags. apply omap_app. Qed.

(** One pass through the loop body: the calls it makes, and what it does to
    the episode counters. *)
Lemma loop_body_run cfg n l w w' res :
  loop_body rng preprocess_fn cfg n l w = (w', res) →
  ∃ evs, trace w' = trace w ++ evs ∧
    (∀ acc, (foldl guarded_step acc evs).1 = acc.1) ∧
    match res with
    | Raise _ => True
    | Ok r =>
        ∃ d, done_flags evs = [d] ∧ total_t w' = (total_t w + 1)%nat ∧
          (copy_due cfg (t l) = true → q_model_targ w' = q_model w') ∧
          (copy_due cfg (t l) = false → q_model_targ w' = q_model_targ w) ∧
          match r with
          | inl l' =>
              (epoch_ep_lens l', ep_len l') = episode_step (epoch_ep_lens l, ep_len l) d ∧
              t l' = (t l + 1)%Z ∧ (t l' < epoch_steps cfg)%Z ∧
              length (epoch_ep_rets l')
              = (length (epoch_ep_rets l) + (if d then 1 else 0))%nat
          | inr (_, rets, lens) =>
              lens = (episode_step (epoch_ep_lens l, ep_len l) d).1
                     ++ [(episode_step (epoch_ep_lens l, ep_len l) d).2] ∧
              (epoch_steps cfg ≤ t l + 1)%Z ∧
              length rets = (length (epoch_ep_rets l) + (if d then 1 else 0))%nat
          end
    end.
Proof.
  unfold loop_body. rewrite bind_run.
  set (pre := if negb (finished_rendering_this_epoch l) && render cfg
              then [EnvRender] else []).
  assert (Hpre : ∀ acc, (foldl guarded_step acc pre).1 = acc.1).
  { intros acc. subst pre. by destruct (negb _ && _). }
  assert (Hpref : done_flags pre = []).
  { subst pre. by destruct (negb _ && _). }
  destruct ((if negb (finished_rendering_this_epoch l) && render cfg
             then render_env else mret tt) w) as [w0 r0] eqn:Hr0.
  assert (Hw0 : r0 = Ok tt ∧ trace w0 = trace w ++ pre ∧ buf w0 = buf w ∧
                total_t w0 = total_t w ∧ same_nets w w0).
  { subst pre. destruct (negb _ && _); injection Hr0 as <- <-; simpl;
      rewrite ?app_nil_r; done. }
  destruct Hw0 as (-> & Htr0 & Hbuf0 & Htt0 & Hn0). clear Hr0.
  mrun.
  destruct (get_action rng cfg n (o l) (total_t w0) w0) as [w1 [a|e]] eqn:Hact;
    apply get_action_run in Hact as ->.
  2:{ intros [= <- <-]. exists pre. done. }
  mrun.
  destruct (step a w0) as [w2 r2] eqn:Hstep.
  apply step_run in Hstep as (o' & rew & d & -> & Htr2 & Hbuf2 & Htt2 & Hn2).
  mrun.
  destruct (buf_store (o l) a rew (preprocess_fn o' (env w2)) d w2) as [w3 r3] eqn:Hst.
  apply buf_store_run in Hst as (Htr3 & Htt3 & Hn3 & Hsz3).
  destruct r3 as [[]|e].
  2:{ intros [= <- <-]. exists (pre ++ [EnvStep a d; BufStore]).
      split; [rewrite Htr3, Htr2, Htr0, <- !app_assoc; done|].
      split; [|done]. intros acc. rewrite foldl_app. simpl. apply Hpre. }
  specialize (Hsz3 tt eq_refl).
  mrun.
  destruct (update rng cfg (t l) w3) as [w4 r4] eqn:Hup.
  apply update_run in Hup as (Htr4 & Hbuf4 & Htt4 & Hcopy).
  assert (Hguard : ∀ acc,
    (foldl guarded_step acc
       (pre ++ [EnvStep a d; BufStore;
                BufSample (Buffer.size (buf w3)) (batch_size cfg)])).1 = acc.1).
  { intros acc. rewrite foldl_app. simpl. rewrite Hpre.
    destruct (Buffer.size (buf w3)); [lia|]. by rewrite !andb_true_r. }
  assert (Htrace4 : trace w4 = trace w ++ pre ++
            [EnvStep a d; BufStore; BufSample (Buffer.size (buf w3)) (batch_size cfg)]).
  { rewrite Htr4, Htr3, Htr2, Htr0, <- !app_assoc. done. }
  destruct r4 as [loss|e].
  2:{ intros [= <- <-]. eexists. split; [exact Htrace4|]. done. }
  specialize (Hcopy loss eq_refl) as [Hdue Hnot].
  assert (Hdue' : copy_due cfg (t l) = true → q_model_targ w4 = q_model w4) by done.
  assert (Hnot' : copy_due cfg (t l) = false → q_model_targ w4 = q_model_targ w).
  { intros Hc. rewrite (Hnot Hc).
    destruct Hn3 as (_ & -> & _), Hn2 as (_ & -> & _), Hn0 as (_ & -> & _). done. }
  mrun.
  destruct d.
  - mrun.
    destruct (reset _) as [w5 r5] eqn:Hres.
    apply reset_run in Hres as (o0 & -> & Htr5 & Hbuf5 & Htt5 & Hn5).
    simpl in Htr5, Hbuf5, Htt5. destruct Hn5 as (Hm5 & Ht5 & _). simpl in Hm5, Ht5.
    simpl. mrun.
    destruct (epoch_steps cfg <=? t l + 1)%Z eqn:Hend;
      intros [= <- <-];
      exists (pre ++ [EnvStep a true; BufStore;
                      BufSample (Buffer.size (buf w3)) (batch_size cfg)] ++ [EnvReset]);
      (split; [rewrite Htr5, Htrace4, <- !app_assoc; reflexivity|]);
      (split; [intros acc; rewrite app_assoc, foldl_app; simpl; apply Hguard|]);
      exists true;
      (split; [by rewrite omap_app_flags, Hpref|]);
      (split; [lia|]); rewrite Hm5, Ht5;
      (split; [done|]); (split; [done|]); simpl.
    + split; [done|]. split; [lia|]. rewrite length_app. simpl. lia.
    + split; [done|]. split; [done|]. split; [lia|]. rewrite length_app. simpl. lia.
  - simpl. mrun.
    destruct (epoch_steps cfg <=? t l + 1)%Z eqn:Hend;
      intros [= <- <-];
      exists (pre ++ [EnvStep a false; BufStore;
                      BufSample (Buffer.size (buf w3)) (batch_size cfg)]);
      (split; [simpl; exact Htrace4|]);
      (split; [exact Hguard|]);
      exists false;
      (split; [by rewrite omap_app_flags, Hpref|]);
      (split; [simpl; lia|]);
      (split; [done|]); (split; [done|]); simpl.
    + split; [done|]. split; [lia|]. lia.
    + split; [done|]. split; [done|]. split; [lia|]. lia.
Qed.

Lemma episodes_played_cons d flags :
  episodes_played (d :: flags) = ((if d then 1 else 0) + episodes_played flags)%nat.
Proof. unfold episodes_played. by destruct d. Qed.

Lemma foldl_episode_step_played acc flags :
  length (foldl episode_step acc flags).1 = (length acc.1 + episodes_played flags)%nat.
Proof.
  revert acc. induction flags as [|d flags IH]; intros acc.
  - unfold episodes_played. simpl. lia.
  - simpl. rewrite IH, episodes_played_cons. destruct d; simpl; [|lia].
    rewrite length_app. simpl. lia.
Qed.

(** The whole [while True] loop. *)
Lemma while_true_run fuel cfg n l w w' res :
  while_true rng preprocess_fn fuel cfg n l w = (w', res) →
  ∃ evs, trace w' = trace w ++ evs ∧
    (∀ acc, (foldl guarded_step acc evs).1 = acc.1) ∧
    match res with
    | Ok (Some (_, rets, lens)) =>
        lens = (foldl episode_step (epoch_ep_lens l, ep_len l) (done_flags evs)).1
               ++ [(foldl episode_step (epoch_ep_lens l, ep_len l) (done_flags evs)).2] ∧
        length rets = (length (epoch_ep_rets l) + episodes_played (done_flags evs))%nat ∧
        (t l + Z.of_nat (length (done_flags evs)) = Z.max (t l + 1) (epoch_steps cfg))%Z ∧
        total_t w' = (total_t w + length (done_flags evs))%nat
    | _ => True
    end.
Proof.
  revert l w. induction fuel as [|fuel IH]; intros l w; simpl.
  - intros [= <- <-]. exists []. by rewrite app_nil_r.
  - rewrite bind_run.
    destruct (loop_body rng preprocess_fn cfg n l w) as [w1 r1] eqn:Hbody.
    apply loop_body_run in Hbody as (evs1 & Htr1 & Hg1 & Hres1).
    destruct r1 as [[l1|[[loss rets] lens]]|e].
    + destruct Hres1 as (d & Hfl & Htt & _ & _ & Hacc & Ht & Hlt & Hrets).
      intros Hrest. apply IH in Hrest as (evs2 & Htr2 & Hg2 & Hres2).
      exists (evs1 ++ evs2). split; [by rewrite Htr2, Htr1, app_assoc|].
      split; [intros acc; by rewrite foldl_app, Hg2, Hg1|].
      destruct res as [[[[loss rets] lens]|]|]; try done.
      destruct Hres2 as (Hlens & Hlen & Hsteps & Htot).
      rewrite omap_app_flags, Hfl. simpl. rewrite <- Hacc.
      split; [done|]. rewrite episodes_played_cons.
      split; [lia|]. split; lia.
    + intros [= <- <-]. exists evs1. split; [done|]. split; [done|].
      destruct Hres1 as (d & Hfl & Htt & _ & _ & Hlens & Hend & Hrets).
      rewrite Hfl. simpl. split; [done|]. rewrite episodes_played_cons.
      unfold episodes_played at 1. simpl. split; [lia|]. split; lia.
    + intros [= <- <-]. exists evs1. done.
Qed.

(** Enough fuel: the loop reaches its [break]. *)
Lemma while_true_fuel fuel cfg n l w w' :
  (Z.to_nat (epoch_steps cfg - t l) ≤ fuel)%nat → (1 ≤ fuel)%nat →
  while_true rng preprocess_fn fuel cfg n l w ≠ (w', Ok None).
Proof.
  revert l w. induction fuel as [|fuel IH]; intros l w Hfuel Hpos; [lia|]. simpl.
  rewrite bind_run.
  destruct (loop_body rng preprocess_fn cfg n l w) as [w1 r1] eqn:Hbody.
  apply loop_body_run in Hbody as (evs1 & Htr1 & Hg1 & Hres1).
  destruct r1 as [[l1|res1]|e]; [|done|done].
  destruct Hres1 as (d & _ & _ & _ & _ & _ & Ht & Hlt & _).
  apply IH; lia.
Qed.

Lemma train_one_epoch_run fuel cfg n w w' res :
  train_one_epoch rng preprocess_fn fuel cfg n w = (w', res) →
  ∃ evs, trace w' = trace w ++ evs ∧
    (∀ acc, (foldl guarded_step acc evs).1 = acc.1) ∧
    match res with
    | Ok (Some (_, rets, lens)) =>
        lens = episode_lengths (done_flags evs) ∧
        length rets = episodes_played (done_flags evs) ∧
        Z.of_nat (length (done_flags evs)) = Z.max 1 (epoch_steps cfg) ∧
        total_t w' = (total_t w + length (done_flags evs))%nat
    | _ => True
    end.
Proof.
  unfold train_one_epoch. rewrite bind_run.
  destruct (reset w) as [w1 r1] eqn:Hres.
  apply reset_run in Hres as (o0 & -> & Htr1 & _ & Htt1 & _).
  mrun. intros Hloop.
  apply while_true_run in Hloop as (evs & Htr & Hg & Hres).
  exists (EnvReset :: evs). split; [by rewrite Htr, Htr1, <- app_assoc|].
  split; [intros acc; simpl; by rewrite Hg|].
  destruct res as [[[[loss rets] lens]|]|]; try done. simpl in Hres.
  destruct Hres as (Hlens & Hlen & Hsteps & Htot).
  change (done_flags (EnvReset :: evs)) with (done_flags evs).
  unfold episode_lengths. split; [done|]. split; [done|]. split; [lia|lia].
Qed.

Lemma train_one_epoch_fuel fuel cfg n w w' :
  (Z.to_nat (Z.max 1 (epoch_steps cfg)) ≤ fuel)%nat →
  train_one_epoch rng preprocess_fn fuel cfg n w ≠ (w', Ok None).
Proof.
  intros Hfuel. unfold train_one_epoch. rewrite bind_run.
  destruct (reset w) as [w1 r1] eqn:Hres.
  apply reset_run in Hres as (o0 & -> & _). mrun.
  apply while_true_fuel; simpl; lia.
Qed.

Lemma run_epochs_run fuel cfg n k w w' res :
  run_epochs rng preprocess_fn fuel cfg n k w = (w', res) →
  ∃ evs, trace w' = trace w ++ evs ∧
         (∀ acc, (foldl guarded_step acc evs).1 = acc.1).
Proof.
  revert w w' res. induction k as [|k IH]; intros w w' res; simpl.
  - intros [= <- <-]. exists []. by rewrite app_nil_r.
  - rewrite bind_run.
    destruct (train_one_epoch rng preprocess_fn fuel cfg n w) as [w1 r1] eqn:Hep.
    apply train_one_epoch_run in Hep as (evs1 & Htr1 & Hg1 & _).
    destruct r1 as [[res1|]|e]; try (intros [= <- <-]; by exists evs1).
    rewrite bind_run.
    destruct (run_epochs rng preprocess_fn fuel cfg n k w1) as [w2 r2] eqn:Hrest.
    apply IH in Hrest as (evs2 & Htr2 & Hg2).
    intros Hfin. exists (evs1 ++ evs2).
    assert (w' = w2) as -> by (destruct r2; by injection Hfin).
    split; [by rewrite Htr2, Htr1, app_assoc|].
    intros acc. by rewrite foldl_app, Hg2, Hg1.
Qed.

Lemma loop_body_polyak p cfg n l :
  loop_body rng preprocess_fn (with_polyak p cfg) n l
  = loop_body rng preprocess_fn cfg n l.
Proof. reflexivity. Qed.

Lemma while_true_polyak p fuel cfg n l w :
  while_true rng preprocess_fn fuel (with_polyak p cfg) n l w
  = while_true rng preprocess_fn fuel cfg n l w.
Proof.
  revert l w. induction fuel as [|fuel IH]; intros l w; simpl; [done|].
  rewrite !bind_run, loop_body_polyak.
  destruct (loop_body rng preprocess_fn cfg n l w) as [w1 [[l1|r]|e]]; [apply IH|done|done].
Qed.

Lemma train_one_epoch_polyak p fuel cfg n w :
  train_one_epoch rng preprocess_fn fuel (with_polyak p cfg) n w
  = train_one_epoch rng preprocess_fn fuel cfg n w.
Proof.
  unfold train_one_epoch. rewrite !bind_run.
  destruct (reset w) as [w1 [o0|e]]; [|done]. mrun. apply while_true_polyak.
Qed.

Lemma run_epochs_polyak p fuel cfg n k w :
  run_epochs rng preprocess_fn fuel (with_polyak p cfg) n k w
  = run_epochs rng preprocess_fn fuel cfg n k w.
Proof.
  revert w. induction k as [|k IH]; intros w; simpl; [done|].
  rewrite !bind_run, train_one_epoch_polyak.
  destruct (train_one_epoch rng preprocess_fn fuel cfg n w) as [w1 [[r|]|e]]; try done.
  rewrite !bind_run, IH. done.
Qed.

Lemma dqn_polyak p fuel cfg :
  dqn rng preprocess_fn fuel (with_polyak p cfg) = dqn rng preprocess_fn fuel cfg.
Proof.
  unfold dqn. simpl.
  destruct (negb _); [done|].
  destruct (action_space env_fn); try done.
  rewrite !bind_run. simpl. by rewrite run_epochs_polyak.
Qed.

Lemma episode_lengths_last_done flags :
  last flags = Some true →
  ∃ pre k, episode_lengths flags = pre ++ [k; 0%nat] ∧ (1 ≤ k)%nat ∧
           length (episode_lengths flags) = S (episodes_played flags).
Proof.
  intros Hlast. unfold episode_lengths.
  rewrite length_app, foldl_episode_step_played. simpl.
  destruct flags as [|d flags _] using rev_ind; [done|].
  rewrite last_snoc in Hlast. injection Hlast as ->.
  rewrite foldl_app. simpl.
  exists (foldl episode_step ([], 0%nat) flags).1,
         ((foldl episode_step ([], 0%nat) flags).2 + 1)%nat.
  rewrite <- app_assoc. simpl. split; [done|]. split; lia.
Qed.

Lemma dqn_sampling_guarded fuel cfg :
  sampling_guarded (dqn rng preprocess_fn fuel cfg).1 = true.
Proof.
  unfold dqn.
  destruct (negb _); [done|].
  destruct (action_space env_fn); try done.
  rewrite bind_run. simpl.
  match goal with
  | |- context [run_epochs ?r ?p ?f ?c ?n ?k ?w0] =>
      destruct (run_epochs r p f c n k w0) as [w r0] eqn:Hrun
  end.
  apply run_epochs_run in Hrun as (evs & Htr & Hg). simpl in *.
  rewrite Htr. unfold sampling_guarded. simpl. by rewrite Hg.
Qed.

End TrainerFacts.




(** C7. On a buffer of capacity [c >= 1] that has been stored into, hence
    with [size >= 1], [sample(n)] succeeds for every [n >= 0]: it draws [n]
    indices below [size], returns [n] rows in each of its five arrays, row
    [k] being slot [idxs k], and every row is one of the currently stored
    (most recent) transitions, as the arrays hold them ([Buffer.held]: the
    transition itself when its observations have the buffer's [obs_dim]
    entries).  Any vector of [n] indices below [size], repetitions allowed,
    can be the draw.  In every run of the step-granularity trainer each
    [sample] call comes right after a [store] call and finds [size >= 1].
    (That the draws are uniform and independent is numpy's contract for
    [np.random.choice], taken as given.) *)
Theorem sample_returns_stored_rows `{Approximator} `{GymEnv}
    (rng : nat → Stepwise.draw) (preprocess_fn : Buffer.Obs → env_state → Buffer.Obs)
    (obs_dim c : nat) (ts : list Buffer.transition) (b : Buffer.DQNReplayBuffer)
    (n : nat) (entropy : nat → nat) :
  (1 ≤ c)%nat → Buffer.store_all (Buffer.init obs_dim c) ts = Ok b →
  (1 ≤ Buffer.size b)%nat →
  (∃ bt idxs,
     Buffer.sample b n entropy = Ok bt ∧
     Np.random_choice (Buffer.size b) n entropy = Ok idxs ∧
     length idxs = n ∧ Forall (λ i, i < Buffer.size b)%nat idxs ∧
     Forall2 (λ i x, Buffer.row b i = Some x) idxs (Buffer.rows_of bt) ∧
     length (Buffer.b_o bt) = n ∧ length (Buffer.b_a bt) = n ∧
     length (Buffer.b_r bt) = n ∧ length (Buffer.b_o_prime bt) = n ∧
     length (Buffer.b_d bt) = n ∧
     Forall (λ x, x ∈ Buffer.most_recent (length ts `min` c) (Buffer.held obs_dim <$> ts))
            (Buffer.rows_of bt) ∧
     (Forall (Buffer.fits obs_dim) ts →
      Forall (λ x, x ∈ Buffer.most_recent (length ts `min` c) ts) (Buffer.rows_of bt))) ∧
  (∀ idxs, length idxs = n → Forall (λ i, i < Buffer.size b)%nat idxs →
           ∃ entropy', Np.random_choice (Buffer.size b) n entropy' = Ok idxs) ∧
  (∀ fuel cfg,
     TraceSpec.sampling_guarded (Stepwise.dqn rng preprocess_fn fuel cfg).1 = true).
Proof.
  intros Hc Hb Hsize. split; [|split].
  - pose proof (store_all_from_init _ _ _ _ Hc Hb) as Hinv.
    destruct (sample_ring_inv obs_dim c _ b n entropy Hc Hinv Hsize)
      as (bt & idxs & ? & ? & ? & ? & ? & ? & ? & ? & ? & ? & Hrows).
    rewrite length_fmap in Hrows.
    exists bt, idxs. repeat (split; [done|]).
    intros Hfit. by rewrite (Forall_fits_held_eq _ _ Hfit) in Hrows.
  - intros idxs Hn Hlt. by apply random_choice_onto.
  - intros fuel cfg. apply dqn_sampling_guarded.
Qed.

Lemma sample_returns_stored_rows_witness :
  ∃ bt, Buffer.sample
          (Buffer.MkBuffer [[]; []; []; []] [0; 0; 0; 0] [5; 6; 3; 4] [[]; []; []; []]
                    [0; 0; 0; 0] 2 4 4) 3 (λ k, k) = Ok bt ∧
        length (Buffer.b_r bt) = 3%nat.
Proof.
  destruct (sample_returns_stored_rows (H := Demo.shift_net)
              (H0 := Demo.counting_env (Discrete 2) 3) Demo.rng Demo.preprocess_fn
              0 4 (Buffer.reward_only <$> [1; 2; 3; 4; 5; 6])
              (Buffer.MkBuffer [[]; []; []; []] [0; 0; 0; 0] [5; 6; 3; 4] [[]; []; []; []]
                        [0; 0; 0; 0] 2 4 4) 3 (λ k, k))
    as [(bt & idxs & Hs & _ & _ & _ & _ & _ & _ & Hr & _) _].
  - lia.
  - vm_compute. reflexivity.
  - simpl. lia.
  - exists bt. split; [exact Hs|exact Hr].
Defined.

(** C6. Both configuration errors end [dqn] before any environment reset,
    step or render: with [target_update_freq > epoch_steps] the assertion
    fails before the environment is even created; with a non-discrete action
    space (and a passing assertion) NotImplementedError is raised right after
    [env_fn()].  [epoch_steps = 100] with [target_update_freq = 200] is an
    instance of the first. *)
Theorem config_errors_before_interaction `{Approximator} `{GymEnv}
    (rng : nat → Stepwise.draw) (preprocess_fn : Buffer.Obs → env_state → Buffer.Obs)
    (fuel : nat) (cfg : Stepwise.config) :
  ((Stepwise.epoch_steps cfg < Stepwise.target_update_freq cfg)%Z →
     Stepwise.dqn rng preprocess_fn fuel cfg = ([], Raise AssertionError)) ∧
  ((Stepwise.target_update_freq cfg ≤ Stepwise.epoch_steps cfg)%Z →
   (∀ n, action_space env_fn ≠ Discrete n) →
     Stepwise.dqn rng preprocess_fn fuel cfg
     = ([Stepwise.EnvMake], Raise NotImplementedError)) ∧
  ((Stepwise.epoch_steps cfg < Stepwise.target_update_freq cfg)%Z
   ∨ (∀ n, action_space env_fn ≠ Discrete n) →
     ∃ e, (Stepwise.dqn rng preprocess_fn fuel cfg).2 = Raise e ∧
          TraceSpec.no_interaction (Stepwise.dqn rng preprocess_fn fuel cfg).1 = true) ∧
  (Stepwise.epoch_steps cfg = 100%Z → Stepwise.target_update_freq cfg = 200%Z →
     Stepwise.dqn rng preprocess_fn fuel cfg = ([], Raise AssertionError)).
Proof.
  assert (Hassert : (Stepwise.epoch_steps cfg < Stepwise.target_update_freq cfg)%Z →
            Stepwise.dqn rng preprocess_fn fuel cfg = ([], Raise AssertionError)).
  { intros Hlt. unfold Stepwise.dqn.
    destruct (Z.leb_spec (Stepwise.target_update_freq cfg) (Stepwise.epoch_steps cfg));
      [lia|done]. }
  assert (Hspace : (∀ n, action_space env_fn ≠ Discrete n) →
            ∃ e, (Stepwise.dqn rng preprocess_fn fuel cfg).2 = Raise e ∧
                 TraceSpec.no_interaction (Stepwise.dqn rng preprocess_fn fuel cfg).1 = true).
  { intros Hnd. unfold Stepwise.dqn.
    destruct (negb _); [by eexists|].
    destruct (action_space env_fn) as [n| | |] eqn:Hsp; try (by eexists).
    by destruct (Hnd n). }
  split; [done|]. split; [|split].
  - intros Hle Hnd. unfold Stepwise.dqn.
    destruct (Z.leb_spec (Stepwise.target_update_freq cfg) (Stepwise.epoch_steps cfg));
      [|lia]. simpl.
    destruct (action_space env_fn) as [n| | |] eqn:Hsp; try done.
    by destruct (Hnd n).
  - intros [Hlt|Hnd]; [|by apply Hspace].
    rewrite (Hassert Hlt). by eexists.
  - intros Hes Hfreq. apply Hassert. lia.
Qed.

Lemma config_errors_before_interaction_witness :
  Stepwise.dqn (H := Demo.shift_net) (H0 := Demo.counting_env (Box [2%nat]) 3)
    Demo.rng Demo.preprocess_fn 10 (Demo.cfg 1 100 200) = ([], Raise AssertionError) ∧
  Stepwise.dqn (H := Demo.shift_net) (H0 := Demo.counting_env (Box [2%nat]) 3)
    Demo.rng Demo.preprocess_fn 10 (Demo.cfg 1 6 3)
  = ([Stepwise.EnvMake], Raise NotImplementedError).
Proof.
  split.
  - destruct (config_errors_before_interaction (H := Demo.shift_net)
                (H0 := Demo.counting_env (Box [2%nat]) 3)
                Demo.rng Demo.preprocess_fn 10 (Demo.cfg 1 100 200)) as (Hassert & _).
    apply Hassert. simpl. lia.
  - destruct (config_errors_before_interaction (H := Demo.shift_net)
                (H0 := Demo.counting_env (Box [2%nat]) 3)
                Demo.rng Demo.preprocess_fn 10 (Demo.cfg 1 6 3)) as (_ & Hspace & _).
    apply Hspace.
    + simpl. lia.
    + intros n. simpl. discriminate.
Defined.

(** C9. In the step-granularity trainer the value of [polyak] changes
    nothing: [update] and the whole run of [dqn] are the same for every value
    of it.  Every [update] that returns leaves the target weights either
    untouched (no copy due) or equal to the main weights (copy due), and
    [copy_network_weights] is the plain overwrite of the target by the main
    weights. *)
Theorem polyak_has_no_effect `{Approximator} `{GymEnv}
    (rng : nat → Stepwise.draw) (preprocess_fn : Buffer.Obs → env_state → Buffer.Obs) :
  (∀ p fuel cfg,
     Stepwise.dqn rng preprocess_fn fuel (TraceSpec.with_polyak p cfg)
     = Stepwise.dqn rng preprocess_fn fuel cfg) ∧
  (∀ p cfg t w,
     Stepwise.update rng (TraceSpec.with_polyak p cfg) t w = Stepwise.update rng cfg t w) ∧
  (∀ cfg t w w' loss,
     Stepwise.update rng cfg t w = (w', Ok loss) →
     (Stepwise.copy_due cfg t = true → Stepwise.q_model_targ w' = Stepwise.q_model w') ∧
     (Stepwise.copy_due cfg t = false →
        Stepwise.q_model_targ w' = Stepwise.q_model_targ w)) ∧
  (∀ w, Stepwise.copy_network_weights w
        = (Stepwise.set_targ (Stepwise.q_model w) w, Ok tt)).
Proof.
  split; [|split; [|split]].
  - intros p fuel cfg. apply dqn_polyak.
  - reflexivity.
  - intros cfg t w w' loss Hup.
    apply update_run in Hup as (_ & _ & _ & Hcopy). by apply (Hcopy loss).
  - reflexivity.
Qed.

(** C4 (the code against the claim).  With [polyak = 0] and
    [target_update_freq = 3] the copy is due at steps 2, 4 and 6 of an epoch
    of 7 steps, every second step and not every third; with
    [target_update_freq = 2] it is due at every step after the first, as
    with [target_update_freq = 1].  In general, for
    [target_update_freq >= 2], it is due at every positive multiple of
    [target_update_freq - 1]. *)
Theorem hard_copy_period_is_freq_minus_one :
  Stepwise.copy_due (TraceSpec.with_polyak 0 (Demo.cfg 1 7 3))
    <$> [0; 1; 2; 3; 4; 5; 6]%Z
  = [false; false; true; false; true; false; true] ∧
  Stepwise.copy_due (TraceSpec.with_polyak 0 (Demo.cfg 1 7 2)) <$> [0; 1; 2; 3; 4]%Z
  = Stepwise.copy_due (TraceSpec.with_polyak 0 (Demo.cfg 1 7 1)) <$> [0; 1; 2; 3; 4]%Z ∧
  (∀ cfg k, (2 ≤ Stepwise.target_update_freq cfg)%Z → (1 ≤ k)%Z →
     Stepwise.copy_due cfg (k * (Stepwise.target_update_freq cfg - 1)) = true).
Proof.
  split; [reflexivity|]. split; [reflexivity|].
  intros cfg k Hf Hk. unfold Stepwise.copy_due.
  rewrite Z.mod_mul by lia.
  rewrite Z.eqb_refl, orb_true_r, andb_true_r. apply Z.ltb_lt. nia.
Qed.

(** C10. An epoch given enough fuel ([max(1, epoch_steps)] passes) reaches
    its [break] unless a call raises.  The list of episode lengths it
    returns is the lengths of the episodes that finished during the epoch
    followed by the length of the one in progress; the list of returns has
    one entry per finished episode; the epoch takes [max(1, epoch_steps)]
    steps.  So when the last step of the epoch reports done, the list ends
    with the finished episode's length [k >= 1] and then a 0, and has one
    entry more than episodes were played. *)
Theorem done_on_last_step_adds_zero_length `{Approximator} `{GymEnv}
    (rng : nat → Stepwise.draw) (preprocess_fn : Buffer.Obs → env_state → Buffer.Obs)
    (fuel : nat) (cfg : Stepwise.config) (num_actions : nat) (w : Stepwise.world) :
  (Z.to_nat (Z.max 1 (Stepwise.epoch_steps cfg)) ≤ fuel)%nat →
  match Stepwise.train_one_epoch rng preprocess_fn fuel cfg num_actions w with
  | (_, Ok None) => False
  | (_, Raise _) => True
  | (w', Ok (Some (_, rets, lens))) =>
      ∃ evs, Stepwise.trace w' = Stepwise.trace w ++ evs ∧
        lens = TraceSpec.episode_lengths (TraceSpec.done_flags evs) ∧
        length rets = TraceSpec.episodes_played (TraceSpec.done_flags evs) ∧
        Z.of_nat (length (TraceSpec.done_flags evs)) = Z.max 1 (Stepwise.epoch_steps cfg) ∧
        (last (TraceSpec.done_flags evs) = Some true →
           ∃ pre k, lens = pre ++ [k; 0%nat] ∧ (1 ≤ k)%nat ∧
                    length lens = S (length rets))
  end.
Proof.
  intros Hfuel.
  destruct (Stepwise.train_one_epoch rng preprocess_fn fuel cfg num_actions w)
    as [w' res] eqn:Hrun.
  destruct res as [[[[loss rets] lens]|]|e]; [| |done].
  - apply train_one_epoch_run in Hrun as (evs & Htr & _ & Hlens & Hrets & Hsteps & _).
    exists evs. repeat (split; [done|]).
    intros Hlast. subst lens. rewrite Hrets.
    by apply episode_lengths_last_done.
  - by apply train_one_epoch_fuel in Hrun.
Qed.

Lemma done_on_last_step_adds_zero_length_witness :
  ∃ w' loss rets,
    Stepwise.train_one_epoch Demo.rng Demo.preprocess_fn 6 (Demo.cfg 1 6 1) 2
      (Demo.world0 3) = (w', Ok (Some (loss, rets, [3; 3; 0]%nat))) ∧
    length rets = 2%nat.
Proof.
  pose proof (done_on_last_step_adds_zero_length Demo.rng Demo.preprocess_fn
                6 (Demo.cfg 1 6 1) 2 (Demo.world0 3)) as Hthm.
  destruct (Stepwise.train_one_epoch Demo.rng Demo.preprocess_fn 6 (Demo.cfg 1 6 1) 2
              (Demo.world0 3)) as [w' [[[[loss rets] lens]|]|e]] eqn:Hrun.
  - destruct Hthm as (evs & _ & _ & Hrets & _); [simpl; lia|].
    vm_compute in Hrun. injection Hrun as <- <- <- <-.
    eexists _, _, _. split; reflexivity.
  - exfalso. apply Hthm. simpl. lia.
  - vm_compute in Hrun. discriminate Hrun.
Defined.

(** * Further properties of the code *)

(** ** Replay buffer: errors and shape *)

Section BufferEdges.
Import Buffer.

Lemma store_zero_capacity obs_dim x :
  store_transition (init obs_dim 0) x = Raise IndexError.
Proof. reflexivity. Qed.

Lemma ring_inv_size_zero obs_dim c ts b :
  (1 ≤ c)%nat → ring_inv obs_dim c ts b → (size b = 0%nat ↔ ts = []).
Proof.
  intros Hc (L & _ & _ & _ & Hs & _). rewrite Hs. split.
  - intros Hmin. destruct ts as [|x ts]; [done|].
    change (length (x :: ts)) with (S (length ts)) in Hmin. lia.
  - by intros ->.
Qed.

Lemma ring_inv_lengths obs_dim c ts b :
  ring_inv obs_dim c ts b →
  length (obs_buf b) = c ∧ length (act_buf b) = c ∧ length (rew_buf b) = c ∧
  length (obs_prime_buf b) = c ∧ length (done_buf b) = c ∧ capacity b = c.
Proof.
  intros (L & (-> & -> & -> & -> & -> & Hlen) & Hcap & _).
  rewrite !length_fmap. rewrite Hlen, Hcap. done.
Qed.

Lemma ring_inv_unwritten obs_dim c ts b i :
  (1 ≤ c)%nat → ring_inv obs_dim c ts b → (length ts ≤ i < c)%nat →
  row b i = Some (zero_row obs_dim).
Proof.
  intros Hc Hinv Hi.
  destruct Hinv as (L & HL & Hcap & Hp & Hs & Hrot).
  pose proof HL as (_ & _ & _ & _ & _ & Hlen).
  rewrite (repr_row _ _ _ HL).
  rewrite Hp, Nat.mod_small in Hrot by lia.
  rewrite drop_app_le in Hrot by (rewrite length_replicate; lia).
  rewrite drop_replicate in Hrot.
  apply app_inj_2 in Hrot as [Hdrop _]; [|rewrite length_take; lia].
  rewrite <- (take_drop (length ts) L), lookup_app_r by (rewrite length_take; lia).
  rewrite Hdrop, length_take, lookup_replicate. split; [done|lia].
Qed.

End BufferEdges.

(** X1. A buffer of capacity 0 refuses every store with IndexError (the
    write at slot 0 fails before the modulo is reached), so no sequence of
    stores into it gets past the first.  On a buffer of capacity [c >= 1]
    that went through the stores [ts], [sample(n)] with [n >= 1] raises
    ValueError exactly when nothing was stored, and returns a batch
    otherwise. *)
Theorem buffer_error_cases (obs_dim c : nat) (ts : list Buffer.transition)
    (b : Buffer.DQNReplayBuffer) (n : nat) (entropy : nat → nat) :
  (1 ≤ c)%nat → (1 ≤ n)%nat → Buffer.store_all (Buffer.init obs_dim c) ts = Ok b →
  (Buffer.sample b n entropy = Raise ValueError ↔ ts = []) ∧
  (ts ≠ [] → ∃ bt, Buffer.sample b n entropy = Ok bt) ∧
  (∀ x xs, Buffer.store_all (Buffer.init obs_dim 0) (x :: xs) = Raise IndexError).
Proof.
  intros Hc _ Hb. pose proof (store_all_from_init _ _ _ _ Hc Hb) as Hinv.
  assert (Hzero : Buffer.size b = 0%nat ↔ ts = []).
  { rewrite (ring_inv_size_zero _ _ _ _ Hc Hinv). by destruct ts. }
  assert (Hok : ts ≠ [] → ∃ bt, Buffer.sample b n entropy = Ok bt).
  { intros Hne.
    destruct (sample_ring_inv obs_dim c _ b n entropy Hc Hinv) as (bt & _ & Hbt & _).
    - destruct (Buffer.size b) eqn:Hsz; [|lia]. destruct Hne. by apply Hzero.
    - by exists bt. }
  split; [|split; [done|done]].
  split.
  - intros Hraise. destruct ts as [|x ts']; [done|].
    destruct Hok as [bt Hbt]; [done|]. congruence.
  - intros Hnil. apply Hzero in Hnil. unfold Buffer.sample, Np.random_choice.
    rewrite Hnil. done.
Qed.

Lemma buffer_error_cases_witness :
  ∃ bt, Buffer.sample
          (Buffer.MkBuffer [[]; []] [0; 0] [3; 2] [[]; []] [0; 0] 1 2 2) 1 (λ k, k)
        = Ok bt.
Proof.
  destruct (buffer_error_cases 0 2 (Buffer.reward_only <$> [1; 2; 3])
              (Buffer.MkBuffer [[]; []] [0; 0] [3; 2] [[]; []] [0; 0] 1 2 2) 1 (λ k, k))
    as (_ & Hok & _).
  - lia.
  - lia.
  - vm_compute. reflexivity.
  - apply Hok. discriminate.
Defined.

(** X2. Stores never resize the buffer: after any stores into a fresh
    buffer of capacity [c >= 1] each of the five arrays still has [c] rows
    and [capacity] is [c]; every slot not yet written (index from the number
    of stores up to [c - 1]) still holds the zeros of [__init__]. *)
Theorem store_keeps_shape (obs_dim c : nat) (ts : list Buffer.transition)
    (b : Buffer.DQNReplayBuffer) :
  (1 ≤ c)%nat → Buffer.store_all (Buffer.init obs_dim c) ts = Ok b →
  length (Buffer.obs_buf b) = c ∧ length (Buffer.act_buf b) = c ∧
  length (Buffer.rew_buf b) = c ∧ length (Buffer.obs_prime_buf b) = c ∧
  length (Buffer.done_buf b) = c ∧ Buffer.capacity b = c ∧
  (∀ i, (length ts ≤ i < c)%nat →
        Buffer.row b i
        = Some (Buffer.Transition (replicate obs_dim 0) 0 0 (replicate obs_dim 0) 0)).
Proof.
  intros Hc Hb. pose proof (store_all_from_init _ _ _ _ Hc Hb) as Hinv.
  destruct (ring_inv_lengths _ _ _ _ Hinv) as (? & ? & ? & ? & ? & ?).
  repeat (split; [done|]).
  intros i Hi. apply (ring_inv_unwritten obs_dim c (Buffer.held obs_dim <$> ts)); [done..|].
  by rewrite length_fmap.
Qed.

Lemma store_keeps_shape_witness :
  Buffer.row (Buffer.MkBuffer [[0; 0]; [0; 0]; [0; 0]] [0; 0; 0] [7; 0; 0]
                              [[0; 0]; [0; 0]; [0; 0]] [1; 0; 0] 1 1 3) 2
  = Some (Buffer.Transition [0; 0] 0 0 [0; 0] 0).
Proof.
  destruct (store_keeps_shape 2 3 [Buffer.Transition [0; 0] 0 7 [0; 0] 1]
              (Buffer.MkBuffer [[0; 0]; [0; 0]; [0; 0]] [0; 0; 0] [7; 0; 0]
                               [[0; 0]; [0; 0]; [0; 0]] [1; 0; 0] 1 1 3))
    as (_ & _ & _ & _ & _ & _ & Hzero).
  - lia.
  - vm_compute. reflexivity.
  - apply Hzero. simpl. lia.
Defined.

(** ** Exploration schedule: range and slope *)

Section ScheduleRange.

Lemma of_nat_S (i : nat) : Np.of_nat (S i) == Np.of_nat i + 1.
Proof.
  unfold Np.of_nat. rewrite Nat2Z.inj_succ, <- Z.add_1_r, inject_Z_plus. reflexivity.
Qed.

Lemma eps_value_step epsilon start_steps t :
  (t + 1 < start_steps)%nat →
  eps_value epsilon start_steps t - eps_value epsilon start_steps (t + 1)
  == (1 - epsilon) / Np.of_nat (start_steps - 1).
Proof.
  intros Ht. unfold eps_value.
  pose proof (of_nat_pos (start_steps - 1) ltac:(lia)) as HN.
  rewrite !(decide_False (P := (start_steps ≤ _)%nat)) by lia.
  rewrite !(decide_True (P := (1 < start_steps)%nat)) by lia.
  rewrite (decide_False (P := (t = start_steps - 1)%nat)) by lia.
  destruct (decide (t + 1 = start_steps - 1)%nat) as [Hlast|Hmid].
  - assert (HNt : Np.of_nat (start_steps - 1) == Np.of_nat t + 1).
    { rewrite <- Hlast, Nat.add_1_r. apply of_nat_S. }
    rewrite HNt in *. field. lra.
  - rewrite Nat.add_1_r, of_nat_S. field. lra.
Qed.

End ScheduleRange.

(** X3. With [epsilon <= 1] the exploration probability that [get_action]
    uses is, at every step, a value between [epsilon] and 1 (so a
    probability when [epsilon >= 0]); while the schedule is still annealing
    ([t + 1 < start_steps]) it drops by the same amount
    [(1 - epsilon) / (start_steps - 1)] from each step to the next. *)
Theorem eps_stays_in_range (epsilon : Q) (start_steps t : nat) :
  epsilon <= 1 →
  ∃ e, Schedule.eps epsilon start_steps t = Ok e ∧
       epsilon <= e <= 1 ∧ (0 <= epsilon → 0 <= e) ∧
       ((t + 1 < start_steps)%nat →
          ∃ e', Schedule.eps epsilon start_steps (t + 1) = Ok e' ∧
                e - e' == (1 - epsilon) / Np.of_nat (start_steps - 1)).
Proof.
  intros He. exists (eps_value epsilon start_steps t).
  pose proof (eps_value_bounds epsilon start_steps t He) as [Hlo Hhi].
  split; [apply eps_is_value|]. split; [done|]. split; [lra|].
  intros Ht. exists (eps_value epsilon start_steps (t + 1)).
  split; [apply eps_is_value|]. by apply eps_value_step.
Qed.

Lemma eps_stays_in_range_witness :
  ∃ e, Schedule.eps (1 # 10) 10 3 = Ok e ∧ 1 # 10 <= e <= 1.
Proof.
  destruct (eps_stays_in_range (1 # 10) 10 3) as (e & He & Hrange & _).
  - unfold Qle. simpl. lia.
  - exists e. split; [exact He|exact Hrange].
Defined.

(** ** Loss *)

Section LossFacts.

Lemma sum_nonneg (l : list Q) : Forall (λ x, 0 <= x) l → 0 <= Np.sum l.
Proof.
  induction 1 as [|x l Hx _ IH]; simpl; [lra|]. change (0 <= x + Np.sum l). lra.
Qed.

Lemma sum_zero (l : list Q) :
  Forall (λ x, 0 <= x) l → Np.sum l == 0 → Forall (λ x, x == 0) l.
Proof.
  induction 1 as [|x l Hx Hl IH]; [constructor|].
  change (x + Np.sum l == 0 → Forall (λ y, y == 0) (x :: l)). intros Hsum.
  pose proof (sum_nonneg l Hl). constructor; [lra|]. apply IH. lra.
Qed.

Lemma sum_all_zero (l : list Q) : Forall (λ x, x == 0) l → Np.sum l == 0.
Proof.
  induction 1 as [|x l Hx _ IH]; [reflexivity|].
  change (x + Np.sum l == 0). lra.
Qed.

Lemma squares_nonneg (l : list Q) : Forall (λ x, 0 <= x) ((λ x, x ^ 2) <$> l).
Proof. apply Forall_fmap, Forall_forall. intros x _. simpl. nra. Qed.

Lemma mean_nonneg (l : list Q) : Forall (λ x, 0 <= x) l → 0 <= Np.mean l.
Proof.
  intros Hl. unfold Np.mean, Qdiv. apply Qmult_le_0_compat; [by apply sum_nonneg|].
  apply Qinv_le_0_compat. apply (of_nat_le 0). lia.
Qed.

Lemma mean_zero (l : list Q) : l ≠ [] → (Np.mean l == 0 ↔ Np.sum l == 0).
Proof.
  intros Hne. unfold Np.mean.
  assert (0 < Np.of_nat (length l)) as Hlen.
  { apply of_nat_pos. destruct l; [done|simpl; lia]. }
  split; intros Hz.
  - assert (Np.sum l == Np.sum l / Np.of_nat (length l) * Np.of_nat (length l)) as ->
      by (field; lra).
    rewrite Hz. ring.
  - rewrite Hz. field. lra.
Qed.

End LossFacts.

(** X4. The loss [q_loss] is never negative; for a non-empty batch whose
    target and prediction tensors have the same length it is zero exactly
    when every prediction equals its target. *)
Theorem q_loss_nonneg_and_zero (target act_q : list Q) :
  0 <= Graph.q_loss target act_q ∧
  (length target = length act_q → target ≠ [] →
     (Graph.q_loss target act_q == 0 ↔ Forall2 Qeq target act_q)).
Proof.
  unfold Graph.q_loss. split; [apply mean_nonneg, squares_nonneg|].
  intros Hlen Hne. rewrite mean_zero.
  2:{ destruct target, act_q; simpl in *; done. }
  split.
  - intros Hsum. apply sum_zero in Hsum; [|apply squares_nonneg].
    clear Hne. revert act_q Hlen Hsum.
    induction target as [|x target IH]; intros [|y act_q] Hlen Hall; try done.
    simpl in Hall. apply Forall_cons in Hall as [Hxy Hall].
    constructor; [simpl in Hxy; nra|]. apply IH; [by injection Hlen|done].
  - intros Heq. apply sum_all_zero. clear Hlen Hne.
    induction Heq as [|x y target act_q Hxy _ IH]; [constructor|].
    simpl. constructor; [|exact IH]. simpl. rewrite Hxy. ring.
Qed.

Lemma q_loss_nonneg_and_zero_witness :
  Graph.q_loss [1; 2] [1; 2] == 0.
Proof.
  destruct (q_loss_nonneg_and_zero [1; 2] [1; 2]) as [_ Hzero].
  apply Hzero; [reflexivity|discriminate|].
  constructor; [reflexivity|]. constructor; [reflexivity|constructor].
Defined.

(** ** The older trainer's target network *)

Section TargetSyncFacts.
Context `{Approximator}.

Lemma zip_with_keep_left {A B} (l : list A) (k : list B) :
  zip_with (λ x _, x) l k = take (length k) l.
Proof.
  revert k. induction l as [|x l IH]; intros [|y k]; simpl; try done.
  by rewrite IH.
Qed.

Lemma assign_all_same_point f (main : params) :
  Episodic.assign_all f main main = (λ v, f v v) <$> main.
Proof.
  unfold params in *. unfold Episodic.assign_all. rewrite drop_all, app_nil_r.
  induction main as [|v main IH]; simpl; [done|]. by rewrite IH.
Qed.

Lemma interpolate_same (v : list Q) :
  Forall2 Qeq
    (zip_with Qplus (Qmult Episodic.polyak <$> v) (Qmult (1 - Episodic.polyak) <$> v)) v.
Proof.
  induction v as [|x v IH]; simpl; [constructor|].
  constructor; [ring|exact IH].
Qed.

End TargetSyncFacts.

(** X5. [target_init] overwrites the target variables by the main ones,
    pair by pair: with as many target as main variables the target then is
    the main network, a second [target_init] changes nothing, and a
    [target_update] run on networks in sync leaves every target entry equal
    to its main entry.  In general the first [length target] main variables
    are copied and surplus target variables keep their value.  The main
    variables and the optimizer are never touched. *)
Theorem target_init_syncs `{Approximator} (s : Episodic.session) :
  Episodic.target_vars (Episodic.target_init s)
  = take (length (Episodic.target_vars s)) (Episodic.main_vars s)
    ++ drop (length (Episodic.main_vars s)) (Episodic.target_vars s) ∧
  Episodic.main_vars (Episodic.target_init s) = Episodic.main_vars s ∧
  Episodic.optimizer (Episodic.target_init s) = Episodic.optimizer s ∧
  (length (Episodic.main_vars s) = length (Episodic.target_vars s) →
     Episodic.target_vars (Episodic.target_init s) = Episodic.main_vars s ∧
     Episodic.target_init (Episodic.target_init s) = Episodic.target_init s ∧
     Forall2 (Forall2 Qeq)
       (Episodic.target_vars (Episodic.target_update (Episodic.target_init s)))
       (Episodic.main_vars s)).
Proof.
  assert (Hgen : Episodic.target_vars (Episodic.target_init s)
            = take (length (Episodic.target_vars s)) (Episodic.main_vars s)
              ++ drop (length (Episodic.main_vars s)) (Episodic.target_vars s)).
  { simpl. unfold Episodic.assign_all. by rewrite zip_with_keep_left. }
  split; [done|]. split; [done|]. split; [done|].
  intros Hlen.
  assert (Hsync : Episodic.target_vars (Episodic.target_init s) = Episodic.main_vars s).
  { rewrite Hgen, Hlen, take_ge, drop_all, app_nil_r by lia. done. }
  split; [done|]. split.
  - destruct s as [main targ opt]. simpl in *. unfold Episodic.target_init. simpl.
    f_equal. rewrite Hsync. unfold Episodic.assign_all.
    by rewrite zip_with_keep_left, take_ge, drop_all, app_nil_r by lia.
  - simpl. simpl in Hsync. rewrite Hsync, assign_all_same_point.
    apply Forall2_fmap_l, Forall_Forall2_diag, Forall_forall.
    intros v _. apply interpolate_same.
Qed.

Lemma target_init_syncs_witness :
  Episodic.target_vars (Episodic.target_init Demo.session) = [[1; 2]].
Proof.
  destruct (target_init_syncs Demo.session) as (_ & _ & _ & Hsync).
  destruct Hsync as (Heq & _); [reflexivity|]. exact Heq.
Defined.

(** X6. One [target_update] moves every target entry towards its main
    entry without passing it: the new entry lies between the old target
    entry and the main entry, and its distance to the main entry is the old
    distance times [polyak = 0.0995]. *)
Theorem target_update_contracts `{Approximator} (s : Episodic.session)
    (i j : nat) (v_main v_targ : list Q) (m t : Q) :
  Episodic.main_vars s !! i = Some v_main →
  Episodic.target_vars s !! i = Some v_targ →
  v_main !! j = Some m → v_targ !! j = Some t →
  ∃ v n, Episodic.target_vars (Episodic.target_update s) !! i = Some v ∧
         v !! j = Some n ∧
         n - m == Episodic.polyak * (t - m) ∧
         Qabs (n - m) == (995 # 10000) * Qabs (t - m) ∧
         (t <= m → t <= n <= m) ∧ (m <= t → m <= n <= t).
Proof.
  intros Hm Ht Hmj Htj.
  exists (zip_with Qplus (Qmult Episodic.polyak <$> v_targ)
                         (Qmult (1 - Episodic.polyak) <$> v_main)),
         (Episodic.polyak * t + (1 - Episodic.polyak) * m).
  split; [simpl; erewrite assign_all_lookup by eassumption; reflexivity|].
  split; [by rewrite lookup_zip_with, !list_lookup_fmap, Hmj, Htj|].
  assert (Hgap : Episodic.polyak * t + (1 - Episodic.polyak) * m - m
                 == Episodic.polyak * (t - m)) by ring.
  split; [exact Hgap|]. split.
  - rewrite Hgap, Qabs_Qmult. reflexivity.
  - unfold Episodic.polyak. split; intros Hle; split; lra.
Qed.

Lemma target_update_contracts_witness :
  ∃ v n, Episodic.target_vars (Episodic.target_update Demo.session) !! 0%nat = Some v ∧
         v !! 1%nat = Some n ∧ 2 <= n <= 10.
Proof.
  destruct (target_update_contracts Demo.session 0 1 [1; 2] [0; 10] 2 10)
    as (v & n & Hv & Hn & _ & _ & _ & Hbetween); try reflexivity.
  exists v, n. split; [exact Hv|]. split; [exact Hn|].
  apply Hbetween. unfold Qle. simpl. lia.
Defined.

(** ** The step-granularity trainer: actions and the network distance *)

Section ActionFacts.
Context `{Approximator} `{GymEnv}.
Variable rng : nat → Stepwise.draw.
Import Stepwise TraceSpec RunSpec.

Lemma get_action_value cfg n ob t w :
  get_action rng cfg n ob t w
  = (w, if Np.ltb (rand_u (rng t)) (eps_value (epsilon cfg) (start_steps cfg) t)
        then Np.random_choice1 n (rand_a (rng t))
        else Ok (pi_fn (q_model w) ob)).
Proof.
  unfold get_action. rewrite bind_run. unfold lift. rewrite eps_is_value.
  by destruct (Np.ltb _ _).
Qed.

Lemma ltb_lt (x y : Q) : Np.ltb x y = true ↔ x < y.
Proof.
  unfold Np.ltb. rewrite negb_true_iff. split.
  - intros Hb. apply Qnot_le_lt. intros Hle. apply Qle_bool_iff in Hle. congruence.
  - intros Hlt. destruct (Qle_bool y x) eqn:Hb; [|done].
    apply Qle_bool_iff in Hb. lra.
Qed.

Lemma sum_abs_nonneg (l : list Q) : 0 <= Np.sum (Qabs <$> l).
Proof.
  apply sum_nonneg, Forall_fmap, Forall_forall. intros x _. apply Qabs_nonneg.
Qed.

Lemma foldl_diff_acc (a : Q) (l : list (list Q * list Q)) :
  foldl (λ total_diff '(m_val, t_val),
           total_diff + Np.sum (Qabs <$> zip_with Qminus m_val t_val)) a l
  == a + foldl (λ total_diff '(m_val, t_val),
                  total_diff + Np.sum (Qabs <$> zip_with Qminus m_val t_val)) 0 l.
Proof.
  revert a. induction l as [|[m t] l IH]; intros a; simpl; [ring|].
  rewrite IH, (IH (0 + _)). ring.
Qed.

Lemma abs_diff_zero (m t : list Q) :
  length m = length t → Np.sum (Qabs <$> zip_with Qminus m t) == 0 → Forall2 Qeq m t.
Proof.
  intros Hlen Hsum. apply sum_zero in Hsum.
  2:{ apply Forall_fmap, Forall_forall. intros x _. apply Qabs_nonneg. }
  revert t Hlen Hsum. induction m as [|x m IH]; intros [|y t] Hlen Hall; try done.
  change (Forall (λ z, z == 0) (Qabs (x - y) :: (Qabs <$> zip_with Qminus m t))) in Hall.
  apply Forall_cons in Hall as [Hxy Hall].
  constructor; [|apply IH; [by injection Hlen|done]].
  revert Hxy. apply Qabs_case; intros; lra.
Qed.

Lemma abs_diff_same (m t : list Q) :
  Forall2 Qeq m t → Np.sum (Qabs <$> zip_with Qminus m t) == 0.
Proof.
  intros Heq. apply sum_all_zero.
  induction Heq as [|x y m t Hxy _ IH]; [constructor|].
  change (Forall (λ z, z == 0) (Qabs (x - y) :: (Qabs <$> zip_with Qminus m t))).
  constructor; [|exact IH].
  assert (x - y == 0) as -> by lra. reflexivity.
Qed.

Lemma diff_cons (m t : list Q) (l : list (list Q * list Q)) :
  foldl (λ total_diff '(m_val, t_val),
           total_diff + Np.sum (Qabs <$> zip_with Qminus m_val t_val)) 0 ((m, t) :: l)
  == Np.sum (Qabs <$> zip_with Qminus m t)
     + foldl (λ total_diff '(m_val, t_val),
                total_diff + Np.sum (Qabs <$> zip_with Qminus m_val t_val)) 0 l.
Proof. simpl. rewrite foldl_diff_acc. ring. Qed.

Lemma diff_nonneg (l : list (list Q * list Q)) :
  0 <= foldl (λ total_diff '(m_val, t_val),
                total_diff + Np.sum (Qabs <$> zip_with Qminus m_val t_val)) 0 l.
Proof.
  induction l as [|[m t] l IH]; [simpl; lra|].
  rewrite diff_cons. pose proof (sum_abs_nonneg (zip_with Qminus m t)). lra.
Qed.

Lemma diff_zero_iff (main targ : params) :
  same_shape main targ →
  foldl (λ total_diff '(m_val, t_val),
           total_diff + Np.sum (Qabs <$> zip_with Qminus m_val t_val)) 0 (zip main targ)
  == 0 ↔ Forall2 (Forall2 Qeq) main targ.
Proof.
  induction 1 as [|m t main targ Hlen _ IH].
  - split; [constructor|reflexivity].
  - change (zip (m :: main) (t :: targ)) with ((m, t) :: zip main targ).
    rewrite diff_cons.
    pose proof (sum_abs_nonneg (zip_with Qminus m t)) as Hm.
    pose proof (diff_nonneg (zip main targ)) as Hrest.
    split.
    + intros Hsum. constructor; [apply abs_diff_zero; [done|lra]|]. apply IH. lra.
    + intros Heq. apply Forall2_cons in Heq as [Hmt Heq].
      apply abs_diff_same in Hmt. apply IH in Heq. lra.
Qed.

Lemma same_shape_refl (p : params) : same_shape p p.
Proof. apply Forall_Forall2_diag, Forall_forall. done. Qed.

End ActionFacts.

(** X7. [get_action] never fails when there is at least one action and
    never changes anything: it returns the random draw, an action below
    [num_actions], when [np.random.rand] falls below the scheduled epsilon,
    and the greedy action [pi_fn] otherwise.  At global step 0 of a schedule
    with [start_steps >= 1] epsilon is 1, so the action is always the random
    one. *)
Theorem get_action_epsilon_greedy `{Approximator} `{GymEnv}
    (rng : nat → Stepwise.draw) (cfg : Stepwise.config) (num_actions : nat)
    (ob : Buffer.Obs) (t : nat) (w : Stepwise.world) :
  (1 ≤ num_actions)%nat →
  ∃ a e, Schedule.eps (Stepwise.epsilon cfg) (Stepwise.start_steps cfg) t = Ok e ∧
         Stepwise.get_action rng cfg num_actions ob t w = (w, Ok a) ∧
         (Stepwise.rand_u (rng t) < e →
            a = (Stepwise.rand_a (rng t) mod num_actions)%nat ∧ (a < num_actions)%nat) ∧
         (e <= Stepwise.rand_u (rng t) → a = pi_fn (Stepwise.q_model w) ob) ∧
         (t = 0%nat → (1 ≤ Stepwise.start_steps cfg)%nat → Stepwise.rand_u (rng t) < 1 →
            a = (Stepwise.rand_a (rng t) mod num_actions)%nat).
Proof.
  intros Hn. rewrite get_action_value.
  set (e := eps_value (Stepwise.epsilon cfg) (Stepwise.start_steps cfg) t).
  assert (Hrandom : Np.random_choice1 num_actions (Stepwise.rand_a (rng t))
                    = Ok (Stepwise.rand_a (rng t) mod num_actions)%nat).
  { unfold Np.random_choice1. by rewrite decide_False by lia. }
  assert (He0 : t = 0%nat → (1 ≤ Stepwise.start_steps cfg)%nat → e == 1).
  { intros -> Hss. subst e. unfold eps_value.
    repeat case_decide; try lia; rewrite ?of_nat_0; lra. }
  destruct (Np.ltb (Stepwise.rand_u (rng t)) e) eqn:Hlt.
  - apply ltb_lt in Hlt. rewrite Hrandom.
    exists (Stepwise.rand_a (rng t) mod num_actions)%nat, e.
    split; [apply eps_is_value|]. split; [done|]. split; [|split; [|done]].
    + intros _. split; [done|]. apply Nat.mod_upper_bound. lia.
    + intros Hge. lra.
  - assert (Hge : e <= Stepwise.rand_u (rng t)).
    { apply Qnot_lt_le. intros Hu. apply ltb_lt in Hu. congruence. }
    exists (pi_fn (Stepwise.q_model w) ob), e.
    split; [apply eps_is_value|]. split; [done|]. split; [|split; [done|]].
    + intros Hu. lra.
    + intros Ht Hss Hu. rewrite (He0 Ht Hss) in Hge. lra.
Qed.

Lemma get_action_epsilon_greedy_witness :
  Stepwise.get_action Demo.rng (Demo.cfg 1 6 1) 2 [0] 0 (Demo.world0 3)
  = (Demo.world0 3, Ok 0%nat).
Proof.
  destruct (get_action_epsilon_greedy Demo.rng (Demo.cfg 1 6 1) 2 [0] 0 (Demo.world0 3))
    as (a & e & _ & Hact & _ & _ & Hzero); [lia|].
  rewrite Hact. f_equal. f_equal. apply Hzero; [reflexivity|simpl; lia|reflexivity].
Defined.

(** X8. [network_diff] is never negative; it is 0 right after
    [copy_network_weights]; and for two weight sets of one topology it is 0
    exactly when every target entry equals its main entry. *)
Theorem network_diff_measures_sync `{Approximator} `{GymEnv} (w : Stepwise.world) :
  0 <= Stepwise.network_diff w ∧
  (∀ w' u, Stepwise.copy_network_weights w = (w', Ok u) → Stepwise.network_diff w' == 0) ∧
  (RunSpec.same_shape (Stepwise.q_model w) (Stepwise.q_model_targ w) →
     (Stepwise.network_diff w == 0
      ↔ Forall2 (Forall2 Qeq) (Stepwise.q_model w) (Stepwise.q_model_targ w))).
Proof.
  unfold Stepwise.network_diff. split; [apply diff_nonneg|]. split.
  - intros w' u [= <- _]. simpl. apply diff_zero_iff; [apply same_shape_refl|].
    apply Forall_Forall2_diag, Forall_forall. intros v _.
    apply Forall_Forall2_diag, Forall_forall. reflexivity.
  - apply diff_zero_iff.
Qed.

Lemma network_diff_measures_sync_witness :
  Stepwise.network_diff (Demo.world0 3) == 0.
Proof.
  destruct (network_diff_measures_sync (Demo.world0 3)) as (_ & _ & Hiff).
  apply Hiff.
  - constructor; [reflexivity|constructor].
  - constructor; [|constructor].
    constructor; [reflexivity|]. constructor; [reflexivity|constructor].
Defined.

(** ** The step-granularity trainer: runs that cannot fail *)

Section RunFacts.
Context `{Approximator} `{GymEnv}.
Variable rng : nat → Stepwise.draw.
Variable preprocess_fn : Buffer.Obs → env_state → Buffer.Obs.
Import Stepwise TraceSpec RunSpec.

#[local] Arguments Buffer.store : simpl never.
#[local] Arguments Buffer.sample : simpl never.
#[local] Arguments Schedule.eps : simpl never.
#[local] Arguments Graph.batch_loss : simpl never.
#[local] Arguments copy_due : simpl never.
#[local] Arguments get_action : simpl never.
#[local] Arguments step : simpl never.
#[local] Arguments reset : simpl never.
#[local] Arguments buf_store : simpl never.
#[local] Arguments update : simpl never.

Ltac run_binds := repeat (rewrite bind_run; simpl).

Lemma get_action_ok cfg n ob t w :
  (1 ≤ n)%nat →
  ∃ a, get_action rng cfg n ob t w = (w, Ok a) ∧
       ((a < n)%nat ∨ a = pi_fn (q_model w) ob).
Proof.
  intros Hn. rewrite get_action_value.
  destruct (Np.ltb _ _).
  - unfold Np.random_choice1. rewrite decide_False by lia.
    eexists. split; [done|]. left. apply Nat.mod_upper_bound. lia.
  - eexists. split; [done|]. by right.
Qed.

Lemma buf_store_ok ob a r o' d w b' :
  Buffer.store (buf w) ob (Np.of_nat a) r o' (Np.of_bool d) = Ok b' →
  buf_store ob a r o' d w
  = (World (env w) (q_model w) (q_model_targ w) (q_optimizer w) b' (total_t w)
           (trace w ++ [BufStore]), Ok tt).
Proof.
  intros Hst. unfold buf_store. run_binds. unfold lift. by rewrite Hst.
Qed.


Lemma update_ok cfg t w bt :
  Buffer.sample (buf w) (batch_size cfg) (rand_idx (rng (total_t w))) = Ok bt →
  ∃ w' loss, update rng cfg t w = (w', Ok loss) ∧
    trace w' = trace w ++ [BufSample (Buffer.size (buf w)) (batch_size cfg)] ∧
    buf w' = buf w ∧ total_t w' = total_t w ∧ env w' = env w.
Proof.
  intros Hs. unfold update. run_binds. unfold lift. rewrite Hs. simpl.
  unfold q_train_fn. run_binds.
  destruct (q_updates _ _ _ _) as [opt' main']. run_binds.
  destruct (copy_due cfg t); simpl; by eexists _, _.
Qed.

Lemma step_value a w :
  step a w
  = (World (env_step (env w) a).1 (q_model w) (q_model_targ w) (q_optimizer w) (buf w)
           (total_t w) (trace w ++ [EnvStep a (env_step (env w) a).2.2]),
     Ok (env_step (env w) a).2).
Proof.
  unfold step. rewrite bind_run. unfold get.
  by destruct (env_step (env w) a) as [e' [[o' rew] d]].
Qed.

Lemma reset_value w :
  reset w
  = (World (env_reset (env w)).1 (q_model w) (q_model_targ w) (q_optimizer w) (buf w)
           (total_t w) (trace w ++ [EnvReset]),
     Ok (env_reset (env w)).2).
Proof.
  unfold reset. rewrite bind_run. unfold get.
  by destruct (env_reset (env w)) as [e' o0].
Qed.

Lemma length_transitions e ob acts :
  length (transitions preprocess_fn e ob acts) = length acts.
Proof.
  revert e ob. induction acts as [|a acts IH]; intros e ob; simpl; [done|].
  destruct (env_step e a) as [e1 [[o' rew] d]]. simpl.
  destruct d; by rewrite IH.
Qed.

Lemma transitions_fit obs_dim e ob acts :
  observations_fit preprocess_fn obs_dim → length ob = obs_dim →
  Forall (Buffer.fits obs_dim) (transitions preprocess_fn e ob acts).
Proof.
  intros [Hreset Hstep]. revert e ob.
  induction acts as [|a acts IH]; intros e ob Hob; simpl; [constructor|].
  pose proof (Hstep e a) as Ho1.
  destruct (env_step e a) as [e1 [[o' rew] d]]. simpl in *.
  constructor; [by split|].
  destruct d; apply IH; [apply Hreset|done].
Qed.

Lemma transitions_cons e ob a acts :
  transitions preprocess_fn e ob (a :: acts)
  = Buffer.Transition ob (Np.of_nat a) (env_step e a).2.1.2
      (preprocess_fn (env_step e a).2.1.1 (env_step e a).1)
      (Np.of_bool (env_step e a).2.2)
    :: (if (env_step e a).2.2
        then transitions preprocess_fn (env_reset (env_step e a).1).1
               (preprocess_fn (env_reset (env_step e a).1).2
                              (env_reset (env_step e a).1).1) acts
        else transitions preprocess_fn (env_step e a).1
               (preprocess_fn (env_step e a).2.1.1 (env_step e a).1) acts).
Proof. simpl. by destruct (env_step e a) as [e1 [[o' r] d]]. Qed.

#[local] Arguments transitions : simpl never.

(** One pass through the loop body on a buffer that came from stores, with
    observations that fit its rows. *)
Lemma loop_body_ok cfg n l w obs_dim c ts :
  (1 ≤ c)%nat → (1 ≤ n)%nat →
  Buffer.store_all (Buffer.init obs_dim c) ts = Ok (buf w) →
  observations_fit preprocess_fn obs_dim → length (o l) = obs_dim →
  ∃ w' r a,
    loop_body rng preprocess_fn cfg n l w = (w', Ok r) ∧
    Buffer.store_all (Buffer.init obs_dim c)
      (ts ++ transitions preprocess_fn (env w) (o l) [a]) = Ok (buf w') ∧
    total_t w' = (total_t w + 1)%nat ∧
    trace w' = trace w
               ++ body_events (negb (finished_rendering_this_epoch l) && render cfg)
                              a (env_step (env w) a).2.2
                              ((length ts + 1) `min` c) (batch_size cfg) ∧
    ((a < n)%nat ∨ a = pi_fn (q_model w) (o l)) ∧
    match r with
    | inl l' =>
        finished_rendering_this_epoch l'
        = finished_rendering_this_epoch l || (env_step (env w) a).2.2 ∧
        length (o l') = obs_dim ∧
        ∀ acts, transitions preprocess_fn (env w) (o l) (a :: acts)
                = transitions preprocess_fn (env w) (o l) [a]
                  ++ transitions preprocess_fn (env w') (o l') acts
    | inr _ => True
    end.
Proof.
  intros Hc Hn Hts Hfit Hol.
  pose proof (store_all_from_init _ _ _ _ Hc Hts) as Hinv.
  unfold loop_body. rewrite bind_run.
  set (rnow := negb (finished_rendering_this_epoch l) && render cfg).
  set (w0 := if rnow
             then World (env w) (q_model w) (q_model_targ w) (q_optimizer w) (buf w)
                        (total_t w) (trace w ++ [EnvRender])
             else w).
  assert (Hpre : (if rnow then render_env else mret (MRet := M_ret) tt) w = (w0, Ok tt)).
  { subst w0. by destruct rnow. }
  rewrite Hpre. clear Hpre.
  assert (Hw0 : trace w0 = trace w ++ (if rnow then [EnvRender] else []) ∧
                buf w0 = buf w ∧ total_t w0 = total_t w ∧ q_model w0 = q_model w ∧
                env w0 = env w).
  { subst w0. destruct rnow; simpl; rewrite ?app_nil_r; done. }
  destruct Hw0 as (Htr0 & Hbuf0 & Htt0 & Hq0 & Henv0). clearbody w0.
  run_binds.
  destruct (get_action_ok cfg n (o l) (total_t w0) w0 Hn) as (a & Hact & Hrange).
  rewrite Hact. run_binds. rewrite step_value, Henv0.
  pose proof (proj2 Hfit (env w) a) as Ho1.
  pose proof (proj1 Hfit (env_step (env w) a).1) as Ho0.
  destruct (env_step (env w) a) as [e1 [[o' rew] d]] eqn:Hstep.
  simpl in Ho1, Ho0. simpl. run_binds.
  set (w2 := World e1 (q_model w0) (q_model_targ w0) (q_optimizer w0) (buf w0)
                   (total_t w0) (trace w0 ++ [EnvStep a d])).
  set (x := Buffer.Transition (o l) (Np.of_nat a) rew (preprocess_fn o' e1)
                              (Np.of_bool d)).
  assert (Hx : Buffer.fits obs_dim x) by (by split).
  assert (Hone : transitions preprocess_fn (env w) (o l) [a] = [x]).
  { rewrite transitions_cons, Hstep. simpl. by destruct d. }
  destruct (store_ring_inv obs_dim c _ (buf w) x Hc Hinv (Forall_fits_held _ _)
              (fits_storable _ _ Hx)) as (b' & Hst & Hinv' & _).
  assert (Hts' : Buffer.store_all (Buffer.init obs_dim c) (ts ++ [x]) = Ok b').
  { rewrite store_all_app, Hts. simpl. by rewrite Hst. }
  unfold Buffer.store_transition in Hst. simpl in Hst.
  rewrite <- Hbuf0 in Hst.
  rewrite (buf_store_ok (o l) a rew (preprocess_fn o' e1) d w2 b' Hst). run_binds.
  set (w3 := World e1 (q_model w0) (q_model_targ w0) (q_optimizer w0) b'
                   (total_t w0) ((trace w0 ++ [EnvStep a d]) ++ [BufStore])).
  assert (Hsize : Buffer.size b' = ((length ts + 1) `min` c)%nat).
  { destruct Hinv' as (L & _ & _ & _ & Hs & _).
    by rewrite Hs, length_app, length_fmap. }
  destruct (sample_ring_inv obs_dim c _ b' (batch_size cfg)
              (rand_idx (rng (total_t w3))) Hc Hinv') as (bt & _ & Hsample & _);
    [lia|].
  destruct (update_ok cfg (t l) w3 bt Hsample)
    as (w4 & loss & Hup & Htr4 & Hbuf4 & Htt4 & Henv4).
  rewrite Hup. run_binds. simpl in Htr4, Hbuf4, Htt4, Henv4.
  assert (Htrace4 : trace w4 = trace w ++ (if rnow then [EnvRender] else [])
            ++ [EnvStep a d; BufStore; BufSample ((length ts + 1) `min` c) (batch_size cfg)]).
  { rewrite Htr4, Htr0, Hsize, <- !app_assoc. done. }
  assert (Hrange' : (a < n)%nat ∨ a = pi_fn (q_model w) (o l)) by (by rewrite <- Hq0).
  destruct d.
  - run_binds. rewrite reset_value. run_binds. rewrite Henv4.
    destruct (epoch_steps cfg <=? t l + 1)%Z;
      eexists _, _, a; (split; [reflexivity|]); simpl;
      rewrite Hstep, Hone, Hbuf4, Htt4, Htt0, Htrace4;
      unfold body_events; rewrite <- !app_assoc; simpl;
      repeat (split; [done|]); try done.
    split; [by rewrite orb_true_r|]. split; [done|].
    intros acts. by rewrite transitions_cons, Hstep.
  - simpl. run_binds.
    destruct (epoch_steps cfg <=? t l + 1)%Z;
      eexists _, _, a; (split; [reflexivity|]); simpl;
      rewrite Hstep, Hone, Hbuf4, Htt4, Htt0, Htrace4;
      unfold body_events; rewrite ?app_nil_r; simpl;
      repeat (split; [done|]); try done.
    split; [by rewrite orb_false_r|]. split; [done|].
    intros acts. rewrite transitions_cons, Hstep. simpl. by rewrite Henv4.
Qed.

Lemma body_events_flags rnow a d size bs :
  done_flags (body_events rnow a d size bs) = [d].
Proof. by destruct rnow, d. Qed.

Lemma body_events_actions rnow a d size bs :
  actions (body_events rnow a d size bs) = [a].
Proof. by destruct rnow, d. Qed.

Lemma actions_app tr1 tr2 : actions (tr1 ++ tr2) = actions tr1 ++ actions tr2.
Proof. unfold actions. apply omap_app. Qed.


Lemma render_calls_app tr1 tr2 :
  render_calls (tr1 ++ tr2) = (render_calls tr1 + render_calls tr2)%nat.
Proof. unfold render_calls. by rewrite filter_app, length_app. Qed.

Lemma body_events_renders rnow a d size bs :
  render_calls (body_events rnow a d size bs) = if rnow then 1%nat else 0%nat.
Proof. by destruct rnow, d. Qed.

(** The whole loop on a buffer that came from stores, with enough fuel. *)
Lemma while_true_ok fuel cfg n l w obs_dim c ts :
  (1 ≤ c)%nat → (1 ≤ n)%nat →
  Buffer.store_all (Buffer.init obs_dim c) ts = Ok (buf w) →
  observations_fit preprocess_fn obs_dim → length (o l) = obs_dim →
  (Z.to_nat (epoch_steps cfg - t l) ≤ fuel)%nat → (1 ≤ fuel)%nat →
  ∃ w' res evs,
    while_true rng preprocess_fn fuel cfg n l w = (w', Ok (Some res)) ∧
    Buffer.store_all (Buffer.init obs_dim c)
      (ts ++ transitions preprocess_fn (env w) (o l) (actions evs)) = Ok (buf w') ∧
    total_t w' = (total_t w + length (actions evs))%nat ∧
    trace w' = trace w ++ evs.
Proof.
  intros Hc Hn. revert l w ts.
  induction fuel as [|fuel IH]; intros l w ts Hts Hfit Hol Hfuel Hpos; [lia|].
  destruct (loop_body_ok cfg n l w obs_dim c ts Hc Hn Hts Hfit Hol)
    as (w1 & r & a & Hbody & Hts1 & Htt1 & Htr1 & _ & Hnext).
  simpl. rewrite bind_run, Hbody.
  pose proof (loop_body_run _ _ _ _ _ _ _ _ Hbody) as (evs0 & _ & _ & Hres).
  destruct r as [l1|res].
  - destruct Hres as (d0 & _ & _ & _ & _ & _ & Ht1 & Hlt1 & _).
    destruct Hnext as (_ & Hol1 & Hcons).
    destruct (IH l1 w1 _ Hts1 Hfit Hol1) as (w' & res & evs & Hrun & Hts' & Htt' & Htr');
      [lia|lia|].
    eexists w', res, (body_events _ a _ _ _ ++ evs).
    split; [done|].
    rewrite actions_app, body_events_actions. simpl.
    split; [by rewrite Hcons, app_assoc|].
    split; [lia|]. by rewrite Htr', Htr1, app_assoc.
  - eexists w1, res, (body_events _ a _ _ _).
    rewrite body_events_actions. done.
Qed.

Lemma train_one_epoch_ok fuel cfg n w obs_dim c ts :
  (1 ≤ c)%nat → (1 ≤ n)%nat →
  Buffer.store_all (Buffer.init obs_dim c) ts = Ok (buf w) →
  observations_fit preprocess_fn obs_dim →
  (Z.to_nat (Z.max 1 (epoch_steps cfg)) ≤ fuel)%nat →
  ∃ w' res evs,
    train_one_epoch rng preprocess_fn fuel cfg n w = (w', Ok (Some res)) ∧
    Buffer.store_all (Buffer.init obs_dim c)
      (ts ++ transitions preprocess_fn (env_reset (env w)).1
               (preprocess_fn (env_reset (env w)).2 (env_reset (env w)).1)
               (actions evs)) = Ok (buf w') ∧
    total_t w' = (total_t w + length (actions evs))%nat ∧
    trace w' = trace w ++ evs.
Proof.
  intros Hc Hn Hts Hfit Hfuel. unfold train_one_epoch.
  rewrite bind_run, reset_value. run_binds.
  match goal with
  | |- context [while_true _ _ _ _ _ ?l0 ?w1] =>
      destruct (while_true_ok fuel cfg n l0 w1 obs_dim c ts Hc Hn Hts Hfit)
        as (w' & res & evs & Hrun & Hts' & Htt' & Htr');
        [apply (proj1 Hfit)|simpl; lia|lia|]
  end.
  exists w', res, (EnvReset :: evs).
  split; [done|]. split; [done|]. split; [done|].
  simpl in Htr'. by rewrite Htr', <- app_assoc.
Qed.

Lemma episode_step_sum acc flags :
  (list_sum (foldl episode_step acc flags).1 + (foldl episode_step acc flags).2
   = list_sum acc.1 + acc.2 + length flags)%nat.
Proof.
  revert acc. induction flags as [|d flags IH]; intros acc; simpl; [lia|].
  rewrite IH. destruct d; simpl; [|lia]. rewrite list_sum_app. simpl. lia.
Qed.

Lemma episode_step_finished acc flags :
  Forall (λ k, 1 ≤ k)%nat acc.1 →
  Forall (λ k, 1 ≤ k)%nat (foldl episode_step acc flags).1.
Proof.
  revert acc. induction flags as [|d flags IH]; intros acc Hacc; simpl; [done|].
  apply IH. destruct d; simpl; [|done].
  apply Forall_app. split; [done|]. constructor; [lia|constructor].
Qed.

Lemma episode_step_prefix acc flags :
  ∃ q, (foldl episode_step acc flags).1 = acc.1 ++ q.
Proof.
  revert acc. induction flags as [|d flags IH]; intros acc; simpl.
  - exists []. by rewrite app_nil_r.
  - destruct (IH (episode_step acc d)) as [q Hq]. rewrite Hq.
    destruct d; simpl; [|by exists q]. exists ([(acc.2 + 1)%nat] ++ q).
    by rewrite app_assoc.
Qed.

Lemma episode_lengths_sum flags : list_sum (episode_lengths flags) = length flags.
Proof.
  unfold episode_lengths. rewrite list_sum_app. simpl.
  pose proof (episode_step_sum ([], 0%nat) flags) as Hsum. simpl in Hsum. lia.
Qed.

Lemma episode_lengths_first k flags :
  hd 0%nat ((foldl episode_step ([], k) flags).1 ++ [(foldl episode_step ([], k) flags).2])
  = (k + (match flags with [] => 0 | _ => first_episode_steps flags end))%nat.
Proof.
  revert k. induction flags as [|d flags IH]; intros k; simpl; [lia|].
  destruct d; simpl.
  - destruct (episode_step_prefix ([(k + 1)%nat], 0%nat) flags) as [q Hq].
    rewrite Hq. simpl. lia.
  - rewrite IH. destruct flags; simpl; lia.
Qed.

Lemma epoch_result_counts fuel cfg n w w' loss rets lens :
  train_one_epoch rng preprocess_fn fuel cfg n w = (w', Ok (Some (loss, rets, lens))) →
  list_sum lens = Z.to_nat (Z.max 1 (epoch_steps cfg)) ∧
  length lens = S (length rets) ∧
  total_t w' = (total_t w + Z.to_nat (Z.max 1 (epoch_steps cfg)))%nat ∧
  ∃ finished current, lens = finished ++ [current] ∧
                      Forall (λ k, 1 ≤ k)%nat finished ∧ length finished = length rets.
Proof.
  intros Hrun.
  apply train_one_epoch_run in Hrun as (evs & _ & _ & Hlens & Hrets & Hsteps & Htot).
  subst lens. rewrite episode_lengths_sum. unfold episode_lengths.
  rewrite length_app, foldl_episode_step_played. simpl.
  split; [lia|]. split; [lia|]. split; [lia|].
  eexists _, _. split; [reflexivity|]. split.
  - by apply episode_step_finished.
  - rewrite foldl_episode_step_played. simpl. lia.
Qed.




(** One pass through the loop body, however it ends: where it renders. *)
Lemma loop_body_render cfg n l w w' res :
  loop_body rng preprocess_fn cfg n l w = (w', res) →
  ∃ evs, trace w' = trace w ++ evs ∧
    (∀ ok,
       match res with
       | Ok (inl l') =>
           foldl (render_step (render cfg))
                 (ok, negb (finished_rendering_this_epoch l), false) evs
           = (ok, negb (finished_rendering_this_epoch l'), false)
       | _ =>
           (foldl (render_step (render cfg))
                  (ok, negb (finished_rendering_this_epoch l), false) evs).1.1 = ok
       end) ∧
    match res with
    | Ok r =>
        ∃ a d sz,
          evs = body_events (negb (finished_rendering_this_epoch l) && render cfg)
                            a d sz (batch_size cfg) ∧
          match r with
          | inl l' =>
              finished_rendering_this_epoch l' = finished_rendering_this_epoch l || d
          | inr _ => True
          end
    | Raise _ => True
    end.
Proof.
  unfold loop_body. rewrite bind_run.
  set (rnow := negb (finished_rendering_this_epoch l) && render cfg).
  set (w0 := if rnow
             then World (env w) (q_model w) (q_model_targ w) (q_optimizer w) (buf w)
                        (total_t w) (trace w ++ [EnvRender])
             else w).
  assert (Hpre : (if rnow then render_env else mret (MRet := M_ret) tt) w = (w0, Ok tt)).
  { subst w0. by destruct rnow. }
  rewrite Hpre. clear Hpre.
  assert (Htr0 : trace w0 = trace w ++ (if rnow then [EnvRender] else [])).
  { subst w0. destruct rnow; simpl; rewrite ?app_nil_r; done. }
  clearbody w0. run_binds.
  destruct (get_action rng cfg n (o l) (total_t w0) w0) as [w1 [a|e]] eqn:Hact;
    apply get_action_run in Hact as ->.
  2:{ intros [= <- <-]. exists (if rnow then [EnvRender] else []).
      split; [done|]. split; [|done]. intros ok. subst rnow.
      by destruct ok, (finished_rendering_this_epoch l), (render cfg). }
  run_binds. rewrite step_value.
  destruct (env_step (env w0) a) as [e1 [[o' rew] d]]. simpl. run_binds.
  match goal with
  | |- context [buf_store ?ob ?a ?r ?o1 ?d ?w2] =>
      destruct (buf_store ob a r o1 d w2) as [w3 r3] eqn:Hst
  end.
  apply buf_store_run in Hst as (Htr3 & _). simpl in Htr3.
  destruct r3 as [[]|e].
  2:{ intros [= <- <-]. exists ((if rnow then [EnvRender] else []) ++ [EnvStep a d; BufStore]).
      split; [by rewrite Htr3, Htr0, <- !app_assoc|]. split; [|done].
      intros ok. subst rnow.
      by destruct ok, (finished_rendering_this_epoch l), (render cfg), d. }
  run_binds.
  destruct (update rng cfg (t l) w3) as [w4 r4] eqn:Hup.
  apply update_run in Hup as (Htr4 & _).
  assert (Htrace4 : trace w4 = trace w ++ (if rnow then [EnvRender] else []) ++
            [EnvStep a d; BufStore; BufSample (Buffer.size (buf w3)) (batch_size cfg)]).
  { rewrite Htr4, Htr3, Htr0, <- !app_assoc. done. }
  destruct r4 as [loss|e].
  2:{ intros [= <- <-]. eexists. split; [exact Htrace4|]. split; [|done].
      intros ok. subst rnow.
      by destruct ok, (finished_rendering_this_epoch l), (render cfg), d. }
  run_binds.
  destruct d.
  - run_binds. rewrite reset_value. run_binds.
    destruct (epoch_steps cfg <=? t l + 1)%Z;
      intros [= <- <-];
      exists (body_events rnow a true (Buffer.size (buf w3)) (batch_size cfg));
      (split; [simpl; rewrite Htrace4; unfold body_events;
               by rewrite <- !app_assoc|]);
      (split; [intros ok; subst rnow; simpl;
               by destruct ok, (finished_rendering_this_epoch l), (render cfg)|]);
      exists a, true, (Buffer.size (buf w3)); (split; [done|]); simpl;
      by rewrite ?orb_true_r.
  - simpl. run_binds.
    destruct (epoch_steps cfg <=? t l + 1)%Z;
      intros [= <- <-];
      exists (body_events rnow a false (Buffer.size (buf w3)) (batch_size cfg));
      (split; [simpl; rewrite Htrace4; unfold body_events;
               by rewrite ?app_nil_r|]);
      (split; [intros ok; subst rnow; simpl;
               by destruct ok, (finished_rendering_this_epoch l), (render cfg)|]);
      exists a, false, (Buffer.size (buf w3)); (split; [done|]); simpl;
      by rewrite ?orb_false_r.
Qed.

(** The whole loop, however it ends. *)
Lemma while_true_render fuel cfg n l w w' res :
  while_true rng preprocess_fn fuel cfg n l w = (w', res) →
  ∃ evs, trace w' = trace w ++ evs ∧
    (∀ ok, (foldl (render_step (render cfg))
                  (ok, negb (finished_rendering_this_epoch l), false) evs).1.1 = ok) ∧
    (∀ r, res = Ok (Some r) →
       render_calls evs
       = if negb (finished_rendering_this_epoch l) && render cfg
         then first_episode_steps (done_flags evs) else 0%nat).
Proof.
  revert l w. induction fuel as [|fuel IH]; intros l w; simpl.
  - intros [= <- <-]. exists []. rewrite app_nil_r. done.
  - rewrite bind_run.
    destruct (loop_body rng preprocess_fn cfg n l w) as [w1 r1] eqn:Hbody.
    apply loop_body_render in Hbody as (evs1 & Htr1 & Hfold1 & Hev1).
    destruct r1 as [[l1|res1]|e].
    + intros Hrest. apply IH in Hrest as (evs2 & Htr2 & Hfold2 & Hcount2).
      destruct Hev1 as (a & d & sz & -> & Hfin).
      eexists (_ ++ evs2). split; [by rewrite Htr2, Htr1, app_assoc|].
      split.
      * intros ok. by rewrite foldl_app, Hfold1, Hfold2.
      * intros r Hr. rewrite render_calls_app, body_events_renders, (Hcount2 r Hr).
        rewrite omap_app_flags, body_events_flags, Hfin. simpl.
        destruct (finished_rendering_this_epoch l), (render cfg), d; simpl; lia.
    + intros [= <- <-]. exists evs1. split; [done|]. split; [done|].
      intros r _. destruct Hev1 as (a & d & sz & -> & _).
      rewrite body_events_renders, body_events_flags. simpl.
      by destruct (negb _ && _), d.
    + intros [= <- <-]. exists evs1. done.
Qed.

Lemma train_one_epoch_render fuel cfg n w w' res :
  train_one_epoch rng preprocess_fn fuel cfg n w = (w', res) →
  ∃ evs, trace w' = trace w ++ evs ∧
    renders_first_episode_only (render cfg) evs = true ∧
    (∀ r, res = Ok (Some r) →
       render_calls evs
       = if render cfg then first_episode_steps (done_flags evs) else 0%nat).
Proof.
  unfold train_one_epoch. rewrite bind_run, reset_value. run_binds.
  intros Hloop. apply while_true_render in Hloop as (evs & Htr & Hfold & Hcount).
  simpl in Htr, Hfold, Hcount.
  exists (EnvReset :: evs). split; [by rewrite Htr, <- app_assoc|].
  split; [apply (Hfold true)|exact Hcount].
Qed.

(** Once the reading has failed it stays failed; and with [render] unset a
    trace that passes holds no render call. *)
Lemma render_step_failed render first rendered tr :
  (foldl (render_step render) (false, first, rendered) tr).1.1 = false.
Proof.
  revert first rendered. induction tr as [|e tr IH]; intros first rendered; [done|].
  destruct e; simpl; apply IH.
Qed.

Lemma no_render_without_flag acc tr :
  (foldl (render_step false) acc tr).1.1 = true → render_calls tr = 0%nat.
Proof.
  revert acc. induction tr as [|e tr IH]; intros [[ok first] rendered] Hok; [done|].
  destruct e; simpl in Hok; try (exact (IH _ Hok)).
  rewrite andb_false_r in Hok. simpl in Hok.
  by rewrite render_step_failed in Hok.
Qed.

End RunFacts.

(** X9. Whenever [train_one_epoch] returns, the episode lengths it reports
    add up to the number of steps of the epoch, [max(1, epoch_steps)] (an
    epoch always takes at least one step), and the global step counter has
    advanced by as much; the list is the lengths of the finished episodes,
    each at least 1 and one per reported return, followed by one entry for
    the episode in progress. *)
Theorem epoch_lengths_add_up `{Approximator} `{GymEnv}
    (rng : nat → Stepwise.draw) (preprocess_fn : Buffer.Obs → env_state → Buffer.Obs)
    (fuel : nat) (cfg : Stepwise.config) (num_actions : nat) (w w' : Stepwise.world)
    (loss rets : list Q) (lens : list nat) :
  Stepwise.train_one_epoch rng preprocess_fn fuel cfg num_actions w
  = (w', Ok (Some (loss, rets, lens))) →
  list_sum lens = Z.to_nat (Z.max 1 (Stepwise.epoch_steps cfg)) ∧
  length lens = S (length rets) ∧
  Stepwise.total_t w'
  = (Stepwise.total_t w + Z.to_nat (Z.max 1 (Stepwise.epoch_steps cfg)))%nat ∧
  ∃ finished current, lens = finished ++ [current] ∧
                      Forall (λ k, 1 ≤ k)%nat finished ∧ length finished = length rets.
Proof. apply epoch_result_counts. Qed.

Lemma epoch_lengths_add_up_witness :
  ∃ w' loss rets lens,
    Stepwise.train_one_epoch Demo.rng Demo.preprocess_fn 5 (Demo.cfg 1 5 1) 2 (Demo.world0 3)
    = (w', Ok (Some (loss, rets, lens))) ∧
    list_sum lens = 5%nat.
Proof.
  pose proof (epoch_lengths_add_up Demo.rng Demo.preprocess_fn 5 (Demo.cfg 1 5 1) 2
                (Demo.world0 3)) as Hthm.
  destruct (Stepwise.train_one_epoch Demo.rng Demo.preprocess_fn 5 (Demo.cfg 1 5 1) 2
              (Demo.world0 3)) as [w' [[[[loss rets] lens]|]|e]] eqn:Hrun.
  - exists w', loss, rets, lens. split; [reflexivity|].
    destruct (Hthm w' loss rets lens eq_refl) as [Hsum _]. exact Hsum.
  - vm_compute in Hrun. discriminate Hrun.
  - vm_compute in Hrun. discriminate Hrun.
Defined.

(** X10. An epoch cannot fail on a sound state: with at least one action, a
    buffer of capacity [c >= 1] that went through the stores [ts],
    preprocessed observations of the environment that have the buffer's
    [obs_dim] entries, and fuel for [max(1, epoch_steps)] passes,
    [train_one_epoch] returns.  It has then stored one transition per step:
    the buffer is the one that storing, after [ts], the transitions [xs] of
    the environment under the actions the epoch took produces, where [xs]
    starts from the epoch's first reset.  So its fill count is
    [min(length ts + steps, c)] and it holds the most recent of the
    transitions stored so far, those of the epoch as they are. *)
Theorem epoch_cannot_fail `{Approximator} `{GymEnv}
    (rng : nat → Stepwise.draw) (preprocess_fn : Buffer.Obs → env_state → Buffer.Obs)
    (fuel : nat) (cfg : Stepwise.config) (num_actions : nat) (w : Stepwise.world)
    (obs_dim c : nat) (ts : list Buffer.transition) :
  (1 ≤ c)%nat → (1 ≤ num_actions)%nat →
  Buffer.store_all (Buffer.init obs_dim c) ts = Ok (Stepwise.buf w) →
  RunSpec.observations_fit preprocess_fn obs_dim →
  (Z.to_nat (Z.max 1 (Stepwise.epoch_steps cfg)) ≤ fuel)%nat →
  ∃ w' res evs xs,
    Stepwise.train_one_epoch rng preprocess_fn fuel cfg num_actions w
    = (w', Ok (Some res)) ∧
    Stepwise.trace w' = Stepwise.trace w ++ evs ∧
    xs = RunSpec.transitions preprocess_fn (env_reset (Stepwise.env w)).1
           (preprocess_fn (env_reset (Stepwise.env w)).2 (env_reset (Stepwise.env w)).1)
           (RunSpec.actions evs) ∧
    length xs = Z.to_nat (Z.max 1 (Stepwise.epoch_steps cfg)) ∧
    Forall (Buffer.fits obs_dim) xs ∧
    Buffer.store_all (Buffer.init obs_dim c) (ts ++ xs) = Ok (Stepwise.buf w') ∧
    Buffer.size (Stepwise.buf w') = ((length ts + length xs) `min` c)%nat ∧
    Buffer.stored (Stepwise.buf w')
    ≡ₚ Buffer.most_recent ((length ts + length xs) `min` c)
                          ((Buffer.held obs_dim <$> ts) ++ xs).
Proof.
  intros Hc Hn Hts Hfit Hfuel.
  destruct (train_one_epoch_ok rng preprocess_fn fuel cfg num_actions w obs_dim c ts
              Hc Hn Hts Hfit Hfuel)
    as (w' & [[loss rets] lens] & evs & Hrun & Hts' & Htt & Htr).
  pose proof (epoch_result_counts _ _ _ _ _ _ _ _ _ _ Hrun) as (_ & _ & Htot & _).
  eexists w', (loss, rets, lens), evs, _.
  split; [done|]. split; [done|]. split; [reflexivity|].
  assert (Hxs : Forall (Buffer.fits obs_dim)
            (RunSpec.transitions preprocess_fn (env_reset (Stepwise.env w)).1
               (preprocess_fn (env_reset (Stepwise.env w)).2
                              (env_reset (Stepwise.env w)).1)
               (RunSpec.actions evs))).
  { apply transitions_fit; [done|]. apply (proj1 Hfit). }
  rewrite length_transitions.
  split; [lia|]. split; [done|]. split; [done|].
  pose proof (store_all_from_init _ _ _ _ Hc Hts') as Hinv.
  rewrite fmap_app, (Forall_fits_held_eq _ _ Hxs) in Hinv.
  destruct (ring_inv_stored _ _ _ _ Hc Hinv) as (_ & _ & Hperm).
  destruct Hinv as (L & _ & _ & _ & Hs & _).
  rewrite length_app, length_fmap, length_transitions in Hs, Hperm. done.
Qed.

Lemma epoch_cannot_fail_witness :
  ∃ w' res, Stepwise.train_one_epoch Demo.rng Demo.preprocess_fn 6 (Demo.cfg 1 6 1) 2
              (Demo.world0 3) = (w', Ok (Some res)) ∧
            Buffer.size (Stepwise.buf w') = 4%nat.
Proof.
  destruct (epoch_cannot_fail Demo.rng Demo.preprocess_fn 6 (Demo.cfg 1 6 1) 2
              (Demo.world0 3) 1 4 [])
    as (w' & res & evs & xs & Hrun & _ & _ & Hlen & _ & _ & Hsize & _).
  - lia.
  - lia.
  - reflexivity.
  - split; intros; reflexivity.
  - simpl. lia.
  - exists w', res. split; [exact Hrun|]. rewrite Hsize, Hlen. reflexivity.
Defined.

(** X11. In every epoch, however it ends, rendering is confined to the first
    episode: with [render] set [env.render()] is called once right before
    every environment step for as long as no step has reported done, and
    never afterwards; without [render] it is never called.  When the epoch
    returns, the number of render calls is therefore the first entry of the
    episode lengths it reports (with [render] set), or 0. *)
Theorem render_only_first_episode `{Approximator} `{GymEnv}
    (rng : nat → Stepwise.draw) (preprocess_fn : Buffer.Obs → env_state → Buffer.Obs)
    (fuel : nat) (cfg : Stepwise.config) (num_actions : nat) (w w' : Stepwise.world)
    (res : result (option Stepwise.epoch_result)) :
  Stepwise.train_one_epoch rng preprocess_fn fuel cfg num_actions w = (w', res) →
  ∃ evs,
    Stepwise.trace w' = Stepwise.trace w ++ evs ∧
    RunSpec.renders_first_episode_only (Stepwise.render cfg) evs = true ∧
    (Stepwise.render cfg = false → RunSpec.render_calls evs = 0%nat) ∧
    (∀ loss rets lens, res = Ok (Some (loss, rets, lens)) →
       RunSpec.render_calls evs = if Stepwise.render cfg then hd 0%nat lens else 0%nat).
Proof.
  intros Hrun.
  destruct (train_one_epoch_render _ _ _ _ _ _ _ _ Hrun) as (evs & Htr & Hok & Hcount).
  exists evs. split; [done|]. split; [done|]. split.
  - intros Hoff. rewrite Hoff in Hok. by apply (no_render_without_flag _ _ Hok).
  - intros loss rets lens ->. rewrite (Hcount _ eq_refl).
    destruct (Stepwise.render cfg); [|done].
    pose proof (train_one_epoch_run _ _ _ _ _ _ _ _ Hrun)
      as (evs' & Htr' & _ & Hlens & _ & Hsteps & _).
    assert (evs' = evs) as -> by (rewrite Htr in Htr'; by apply app_inv_head in Htr').
    subst lens. unfold TraceSpec.episode_lengths.
    rewrite episode_lengths_first.
    destruct (TraceSpec.done_flags evs); [simpl in Hsteps; lia|done].
Qed.

Lemma render_only_first_episode_witness :
  ∃ w' res evs,
    Stepwise.train_one_epoch Demo.rng Demo.preprocess_fn 5
      (Stepwise.Config [64; 64]%nat (1 # 1000) 1 5 2 0 4 (1 # 20) (99 # 100)
                       (995 # 1000) 100 1 true None)
      2 (Demo.world0 3) = (w', res) ∧
    Stepwise.trace w' = Stepwise.trace (Demo.world0 3) ++ evs ∧
    RunSpec.renders_first_episode_only true evs = true.
Proof.
  pose proof (render_only_first_episode Demo.rng Demo.preprocess_fn 5
                (Stepwise.Config [64; 64]%nat (1 # 1000) 1 5 2 0 4 (1 # 20) (99 # 100)
                                 (995 # 1000) 100 1 true None)
                2 (Demo.world0 3)) as Hthm.
  destruct (Stepwise.train_one_epoch Demo.rng Demo.preprocess_fn 5
              (Stepwise.Config [64; 64]%nat (1 # 1000) 1 5 2 0 4 (1 # 20) (99 # 100)
                               (995 # 1000) 100 1 true None)
              2 (Demo.world0 3)) as [w' res] eqn:Hrun.
  destruct (Hthm w' res eq_refl) as (evs & Htr & Hok & _).
  exists w', res, evs. split; [reflexivity|]. split; [exact Htr|exact Hok].
Defined.

(** ** The step-granularity trainer: whole runs *)

Section DqnFacts.
Context `{Approximator} `{GymEnv}.
Variable rng : nat → Stepwise.draw.
Variable preprocess_fn : Buffer.Obs → env_state → Buffer.Obs.
Import Stepwise TraceSpec RunSpec.


End DqnFacts.







(** ** The older trainer's loop *)

Section OldRunFacts.
Context `{Approximator} `{GymEnv}.
Variable rng : nat → Stepwise.draw.
Variable process_obs : Buffer.Obs → env_state → Buffer.Obs.
Import TraceSpec RunSpec.

#[local] Existing Instance Stepwise.M_ret.
#[local] Existing Instance Stepwise.M_bind.
#[local] Arguments Buffer.store : simpl never.
#[local] Arguments Buffer.sample : simpl never.
#[local] Arguments Schedule.eps : simpl never.
#[local] Arguments Episodic.update : simpl never.
#[local] Arguments Stepwise.step : simpl never.
#[local] Arguments Stepwise.reset : simpl never.
#[local] Arguments Stepwise.buf_store : simpl never.
#[local] Arguments EpisodicRun.get_action : simpl never.
#[local] Arguments EpisodicRun.update : simpl never.

Ltac run_binds := repeat (rewrite bind_run; simpl).

Lemma old_get_action_run cfg n ob w w' r :
  EpisodicRun.get_action rng process_obs cfg n ob w = (w', r) →
  Stepwise.trace w' = Stepwise.trace w ∧ Stepwise.buf w' = Stepwise.buf w ∧
  same_nets w w' ∧ Stepwise.total_t w' = (Stepwise.total_t w + 1)%nat.
Proof.
  unfold EpisodicRun.get_action. run_binds. unfold Stepwise.lift.
  rewrite eps_is_value. run_binds.
  destruct (Np.ltb _ _); [|run_binds]; intros [= <- _]; done.
Qed.

Lemma old_get_action_ok cfg n ob w :
  (1 ≤ n)%nat → ∃ w' a, EpisodicRun.get_action rng process_obs cfg n ob w = (w', Ok a).
Proof.
  intros Hn. unfold EpisodicRun.get_action. run_binds. unfold Stepwise.lift.
  rewrite eps_is_value. run_binds.
  destruct (Np.ltb _ _); [|run_binds; by eexists _, _].
  unfold Np.random_choice1. rewrite decide_False by lia. by eexists _, _.
Qed.

Lemma old_update_target gamma bs b s t entropy loss s' :
  Episodic.update gamma bs b s t entropy = Ok (loss, s') →
  ¬ (0 < t ∧ t mod 1000 = 0)%Z →
  Episodic.target_vars s' = Episodic.target_vars s.
Proof.
  unfold Episodic.update. destruct (Buffer.sample b bs entropy) as [bt|e]; [|done].
  simpl. unfold Episodic.run_train.
  destruct (q_updates _ _ _ _) as [opt' main'].
  destruct ((0 <? t)%Z && (t mod 1000 =? 0)%Z) eqn:Hdue.
  - apply andb_true_iff in Hdue as [H1 H2]. apply Z.ltb_lt in H1. apply Z.eqb_eq in H2.
    intros _ Hnot. by destruct Hnot.
  - by intros [= _ <-].
Qed.

Lemma old_update_run cfg t w w' r :
  EpisodicRun.update rng cfg t w = (w', r) →
  Stepwise.trace w'
  = Stepwise.trace w
    ++ [Stepwise.BufSample (Buffer.size (Stepwise.buf w)) (EpisodicRun.batch_size cfg)] ∧
  Stepwise.buf w' = Stepwise.buf w ∧ Stepwise.total_t w' = Stepwise.total_t w ∧
  (∀ loss, r = Ok loss → ¬ (0 < t ∧ t mod 1000 = 0)%Z →
     Stepwise.q_model_targ w' = Stepwise.q_model_targ w).
Proof.
  unfold EpisodicRun.update. run_binds. unfold Stepwise.lift.
  destruct (Episodic.update _ _ _ _ _ _) as [[loss s']|e] eqn:Hup; run_binds.
  - intros [= <- <-]. simpl. repeat (split; [done|]).
    intros _ _ Hnot. by apply (old_update_target _ _ _ _ _ _ _ _ Hup).
  - intros [= <- <-]. simpl. repeat (split; [done|]). done.
Qed.

Lemma reset_calls_app tr1 tr2 :
  reset_calls (tr1 ++ tr2) = (reset_calls tr1 + reset_calls tr2)%nat.
Proof. unfold reset_calls. by rewrite filter_app, length_app. Qed.

Lemma small_step_not_due (t : Z) : (0 ≤ t < 1000)%Z → ¬ (0 < t ∧ t mod 1000 = 0)%Z.
Proof. intros Ht [Hpos Hmod]. rewrite Z.mod_small in Hmod by lia. lia. Qed.

(** One episode: the inner [while not d] loop. *)
Lemma episode_loop_run fuel cfg n s w w' res :
  EpisodicRun.episode_loop rng process_obs fuel cfg n s w = (w', res) →
  ∃ evs, Stepwise.trace w' = Stepwise.trace w ++ evs ∧
    (∀ acc, (foldl guarded_step acc evs).1 = acc.1) ∧
    render_calls evs = 0%nat ∧ reset_calls evs = 0%nat ∧
    match res with
    | Ok (Some s') =>
        EpisodicRun.ep_len s' = (EpisodicRun.ep_len s + length (done_flags evs))%nat ∧
        EpisodicRun.t s' = (EpisodicRun.t s + Z.of_nat (length (done_flags evs)))%Z ∧
        Stepwise.total_t w' = (Stepwise.total_t w + length (done_flags evs))%nat ∧
        (EpisodicRun.d s = false → (1 ≤ length (done_flags evs))%nat) ∧
        ((EpisodicRun.t s < EpisodicRun.epoch_steps cfg)%Z →
           (EpisodicRun.t s' ≤ EpisodicRun.epoch_steps cfg)%Z) ∧
        ((0 ≤ EpisodicRun.t s)%Z → (EpisodicRun.t s' ≤ 1000)%Z →
           Stepwise.q_model_targ w' = Stepwise.q_model_targ w)
    | _ => True
    end.
Proof.
  revert s w. induction fuel as [|fuel IH]; intros s w; simpl.
  - intros [= <- <-]. exists []. by rewrite app_nil_r.
  - destruct (EpisodicRun.d s) eqn:Hd.
    + intros [= <- <-]. exists []. rewrite app_nil_r. simpl.
      repeat (split; [done || lia|]). done.
    + rewrite bind_run.
      destruct (EpisodicRun.get_action rng process_obs cfg n (EpisodicRun.o s) w)
        as [w1 r1] eqn:Hact.
      apply old_get_action_run in Hact as (Htr1 & Hbuf1 & Hn1 & Htt1).
      destruct r1 as [a|e].
      2:{ intros [= <- <-]. exists []. by rewrite app_nil_r. }
      run_binds.
      destruct (Stepwise.step a w1) as [w2 r2] eqn:Hstep.
      apply step_run in Hstep as (o' & rew & d' & -> & Htr2 & Hbuf2 & Htt2 & Hn2).
      run_binds.
      destruct (Stepwise.buf_store (EpisodicRun.o s) a rew o' d' w2) as [w3 r3] eqn:Hst.
      apply buf_store_run in Hst as (Htr3 & Htt3 & Hn3 & Hsz3).
      destruct r3 as [[]|e].
      2:{ intros [= <- <-]. exists [Stepwise.EnvStep a d'; Stepwise.BufStore].
          split; [by rewrite Htr3, Htr2, Htr1, <- app_assoc|]. done. }
      specialize (Hsz3 tt eq_refl). run_binds.
      destruct (EpisodicRun.update rng cfg (EpisodicRun.t s) w3) as [w4 r4] eqn:Hup.
      apply old_update_run in Hup as (Htr4 & Hbuf4 & Htt4 & Htarg).
      set (evs0 := [Stepwise.EnvStep a d'; Stepwise.BufStore;
                    Stepwise.BufSample (Buffer.size (Stepwise.buf w3))
                                       (EpisodicRun.batch_size cfg)]).
      assert (Htrace4 : Stepwise.trace w4 = Stepwise.trace w ++ evs0).
      { rewrite Htr4, Htr3, Htr2, Htr1, <- !app_assoc. done. }
      assert (Hguard : ∀ acc, (foldl guarded_step acc evs0).1 = acc.1).
      { intros acc. simpl. destruct (Buffer.size (Stepwise.buf w3)); [lia|].
        by rewrite !andb_true_r. }
      destruct r4 as [loss|e].
      2:{ intros [= <- <-]. exists evs0. done. }
      assert (Hkeep : (0 ≤ EpisodicRun.t s < 1000)%Z →
                Stepwise.q_model_targ w4 = Stepwise.q_model_targ w).
      { intros Hsmall. rewrite (Htarg loss eq_refl (small_step_not_due _ Hsmall)).
        destruct Hn3 as (_ & -> & _), Hn2 as (_ & -> & _), Hn1 as (_ & -> & _). done. }
      run_binds.
      destruct (EpisodicRun.epoch_steps cfg <=? EpisodicRun.t s + 1)%Z eqn:Hend.
      * intros [= <- <-]. exists evs0. split; [done|]. split; [done|].
        split; [done|]. split; [done|]. simpl.
        apply Z.leb_le in Hend.
        split; [done|]. split; [lia|]. split; [lia|]. split; [lia|].
        split; [lia|]. intros Hnonneg H1000. apply Hkeep. lia.
      * intros Hrest. apply IH in Hrest as (evs & Htr & Hg & Hrend & Hreset & Hres).
        exists (evs0 ++ evs). split; [by rewrite Htr, Htrace4, app_assoc|].
        split; [intros acc; by rewrite foldl_app, Hg, Hguard|].
        rewrite render_calls_app, reset_calls_app, Hrend, Hreset.
        split; [done|]. split; [done|].
        destruct res as [[s'|]|]; try done. simpl in Hres.
        destruct Hres as (Hlen & Ht & Htot & _ & Hle & Htg).
        apply Z.leb_gt in Hend.
        rewrite omap_app_flags, length_app. simpl.
        split; [lia|]. split; [lia|]. split; [lia|]. split; [lia|].
        split; [lia|]. intros Hnonneg H1000. rewrite Htg by lia. apply Hkeep. lia.
Qed.

(** One epoch: the outer [while t < epoch_steps] loop. *)
Lemma epoch_loop_run fuel cfg n l w w' res :
  EpisodicRun.epoch_loop rng process_obs fuel cfg n l w = (w', res) →
  ∃ evs, Stepwise.trace w' = Stepwise.trace w ++ evs ∧
    (∀ acc, (foldl guarded_step acc evs).1 = acc.1) ∧
    match res with
    | Ok (Some (loss, rets, lens)) =>
        ∃ new, lens = EpisodicRun.epoch_ep_lens l ++ new ∧
          Forall (λ k, 1 ≤ k)%nat new ∧
          Z.of_nat (list_sum new)
          = Z.max 0 (EpisodicRun.epoch_steps cfg - EpisodicRun.epoch_t l) ∧
          length rets = (length (EpisodicRun.epoch_ep_rets l) + length new)%nat ∧
          length loss = (length (EpisodicRun.epoch_ep_loss l) + length new)%nat ∧
          reset_calls evs = length new ∧
          render_calls evs
          = (if negb (EpisodicRun.finished_rendering_this_epoch l)
                && EpisodicRun.render cfg
                && (EpisodicRun.epoch_t l <? EpisodicRun.epoch_steps cfg)%Z
             then 1 else 0)%nat ∧
          length (done_flags evs) = list_sum new ∧
          Stepwise.total_t w' = (Stepwise.total_t w + list_sum new)%nat ∧
          ((0 ≤ EpisodicRun.epoch_t l)%Z → (EpisodicRun.epoch_steps cfg ≤ 1000)%Z →
             Stepwise.q_model_targ w' = Stepwise.q_model_targ w) ∧
          (negb (EpisodicRun.finished_rendering_this_epoch l)
           && EpisodicRun.render cfg
           && (EpisodicRun.epoch_t l <? EpisodicRun.epoch_steps cfg)%Z = true →
             ∃ evs', evs = Stepwise.EnvRender :: Stepwise.EnvReset :: evs')
    | _ => True
    end.
Proof.
  revert l w. induction fuel as [|fuel IH]; intros l w.
  - simpl. intros [= <- <-]. exists []. by rewrite app_nil_r.
  - cbn [EpisodicRun.epoch_loop].
    destruct (EpisodicRun.epoch_t l <? EpisodicRun.epoch_steps cfg)%Z eqn:Hlt.
    2:{ intros [= <- <-]. exists []. rewrite app_nil_r. split; [done|]. split; [done|].
        apply Z.ltb_ge in Hlt. exists []. rewrite !app_nil_r, andb_false_r. simpl.
        repeat (split; [done || lia|]). done. }
    apply Z.ltb_lt in Hlt. rewrite bind_run.
    set (rnow := negb (EpisodicRun.finished_rendering_this_epoch l)
                 && EpisodicRun.render cfg).
    set (pre := if rnow then [Stepwise.EnvRender] else []).
    destruct ((if rnow then Stepwise.render_env else mret tt) w) as [w0 r0] eqn:Hr0.
    assert (Hw0 : r0 = Ok tt ∧ Stepwise.trace w0 = Stepwise.trace w ++ pre ∧
                  Stepwise.total_t w0 = Stepwise.total_t w ∧ same_nets w w0).
    { subst pre. destruct rnow; injection Hr0 as <- <-; simpl; rewrite ?app_nil_r; done. }
    destruct Hw0 as (-> & Htr0 & Htt0 & Hn0). clear Hr0.
    rewrite bind_run.
    destruct (Stepwise.reset w0) as [w1 r1] eqn:Hres.
    apply reset_run in Hres as (o0 & -> & Htr1 & _ & Htt1 & Hn1).
    rewrite bind_run.
    destruct (EpisodicRun.episode_loop rng process_obs (S fuel) cfg n
                (EpisodicRun.Episode o0 false 0 0 [] (EpisodicRun.epoch_t l)) w1)
      as [w2 r2] eqn:Hep.
    apply episode_loop_run in Hep as (evs1 & Htr2 & Hg1 & Hrend1 & Hreset1 & Hres1).
    assert (Htrace2 : Stepwise.trace w2
                      = Stepwise.trace w ++ pre ++ [Stepwise.EnvReset] ++ evs1).
    { rewrite Htr2, Htr1, Htr0, <- !app_assoc. done. }
    assert (Hguard2 : ∀ acc, (foldl guarded_step acc (pre ++ [Stepwise.EnvReset] ++ evs1)).1
                             = acc.1).
    { intros acc. rewrite !foldl_app, Hg1. simpl. subst pre. by destruct rnow. }
    destruct r2 as [[s|]|e]; try (intros [= <- <-]; eexists; split; [exact Htrace2|done]).
    simpl in Hres1. destruct Hres1 as (Hlen & Ht & Htot & Hk & Hle & Htg).
    specialize (Hk eq_refl). specialize (Hle Hlt).
    intros Hrest. apply IH in Hrest as (evs2 & Htr3 & Hg2 & Hres2).
    exists ((pre ++ [Stepwise.EnvReset] ++ evs1) ++ evs2).
    split; [by rewrite Htr3, Htrace2, <- !app_assoc|].
    split; [intros acc; by rewrite foldl_app, Hg2, Hguard2|].
    destruct res as [[[[loss rets] lens]|]|]; try done.
    destruct Hres2 as (new & Hlens & Hpos & Hsum & Hrets & Hloss & Hresets & Hrenders
                       & Hsteps & Htot2 & Htg2 & _).
    simpl in Hlens, Hsum, Hrets, Hloss, Hrenders, Htg2.
    exists (EpisodicRun.ep_len s :: new).
    split; [by rewrite Hlens, <- app_assoc|].
    split; [constructor; [lia|done]|].
    rewrite !length_app in *. simpl in *.
    split; [lia|]. split; [lia|]. split; [lia|].
    rewrite !reset_calls_app, !render_calls_app, !omap_app_flags, !length_app.
    change (reset_calls (Stepwise.EnvReset :: evs1)) with (S (reset_calls evs1)).
    change (render_calls (Stepwise.EnvReset :: evs1)) with (render_calls evs1).
    change (done_flags (Stepwise.EnvReset :: evs1)) with (done_flags evs1).
    rewrite Hresets, Hrenders, Hreset1, Hrend1, Hsteps.
    assert (Hpre : reset_calls pre = 0%nat ∧ render_calls pre = (if rnow then 1 else 0)%nat
                   ∧ done_flags pre = []).
    { subst pre. by destruct rnow. }
    destruct Hpre as (-> & -> & ->).
    split; [simpl; lia|].
    split.
    { destruct (Z.ltb_spec (EpisodicRun.epoch_t l) (EpisodicRun.epoch_steps cfg)); [|lia].
      rewrite andb_true_r. fold rnow. destruct rnow; simpl; lia. }
    split; [simpl; lia|]. split; [lia|]. split.
    { intros Hnonneg H1000. rewrite Htg2 by lia. rewrite Htg by lia.
      destruct Hn1 as (_ & -> & _), Hn0 as (_ & -> & _). done. }
    intros Hr. apply andb_true_iff in Hr as [Hr _]. fold rnow in Hr.
    subst pre. rewrite Hr. simpl. by eexists.
Qed.

Lemma render_prefix_run (b : bool) (w : Stepwise.world) :
  ∃ w0, (if b then Stepwise.render_env else mret (MRet := Stepwise.M_ret) tt) w
        = (w0, Ok tt).
Proof. destruct b; by eexists. Qed.

Lemma episode_loop_fuel fuel cfg n s w w' :
  (Z.to_nat (EpisodicRun.epoch_steps cfg - EpisodicRun.t s) + 1 ≤ fuel)%nat →
  EpisodicRun.episode_loop rng process_obs fuel cfg n s w ≠ (w', Ok None).
Proof.
  revert s w. induction fuel as [|fuel IH]; intros s w Hfuel; [lia|]. simpl.
  destruct (EpisodicRun.d s); [done|].
  rewrite bind_run.
  destruct (EpisodicRun.get_action _ _ _ _ _ _) as [w1 [a|e]]; [|done]. run_binds.
  destruct (Stepwise.step a w1) as [w2 r2] eqn:Hstep.
  apply step_run in Hstep as (o' & rew & d' & -> & _). run_binds.
  destruct (Stepwise.buf_store _ _ _ _ _ _) as [w3 [[]|e]]; [|done]. run_binds.
  destruct (EpisodicRun.update _ _ _ _) as [w4 [loss|e]]; [|done]. run_binds.
  destruct (EpisodicRun.epoch_steps cfg <=? EpisodicRun.t s + 1)%Z eqn:Hend; [done|].
  apply Z.leb_gt in Hend. apply IH. simpl. lia.
Qed.

Lemma epoch_loop_fuel fuel cfg n l w w' :
  (Z.to_nat (EpisodicRun.epoch_steps cfg - EpisodicRun.epoch_t l) + 1 ≤ fuel)%nat →
  EpisodicRun.epoch_loop rng process_obs fuel cfg n l w ≠ (w', Ok None).
Proof.
  revert l w. induction fuel as [|fuel IH]; intros l w Hfuel; [lia|].
  cbn [EpisodicRun.epoch_loop].
  destruct (EpisodicRun.epoch_t l <? EpisodicRun.epoch_steps cfg)%Z eqn:Hlt; [|done].
  apply Z.ltb_lt in Hlt. rewrite bind_run.
  destruct (render_prefix_run (negb (EpisodicRun.finished_rendering_this_epoch l)
                                && EpisodicRun.render cfg) w) as [w0 Hw0].
  rewrite Hw0, bind_run.
  destruct (Stepwise.reset w0) as [w1 r1] eqn:Hres.
  apply reset_run in Hres as (o0 & -> & _). rewrite bind_run.
  destruct (EpisodicRun.episode_loop rng process_obs (S fuel) cfg n
              (EpisodicRun.Episode o0 false 0 0 [] (EpisodicRun.epoch_t l)) w1)
    as [w2 r2] eqn:Hep.
  destruct r2 as [[s|]|e]; [| |done].
  - apply episode_loop_run in Hep as (evs1 & _ & _ & _ & _ & Hres1).
    simpl in Hres1. destruct Hres1 as (_ & Ht & _ & Hk & _).
    specialize (Hk eq_refl). apply IH. simpl. lia.
  - apply episode_loop_fuel in Hep; [done|]. simpl. lia.
Qed.

Lemma old_run_epochs_run fuel cfg n k w w' res :
  EpisodicRun.run_epochs rng process_obs fuel cfg n k w = (w', res) →
  ∃ evs, Stepwise.trace w' = Stepwise.trace w ++ evs ∧
         (∀ acc, (foldl guarded_step acc evs).1 = acc.1).
Proof.
  revert w w' res. induction k as [|k IH]; intros w w' res; simpl.
  - intros [= <- <-]. exists []. by rewrite app_nil_r.
  - rewrite bind_run.
    destruct (EpisodicRun.train_one_epoch rng process_obs fuel cfg n w) as [w1 r1] eqn:Hep.
    apply epoch_loop_run in Hep as (evs1 & Htr1 & Hg1 & _).
    destruct r1 as [[res1|]|e]; try (intros [= <- <-]; by exists evs1).
    rewrite bind_run.
    destruct (EpisodicRun.run_epochs rng process_obs fuel cfg n k w1) as [w2 r2] eqn:Hrest.
    apply IH in Hrest as (evs2 & Htr2 & Hg2).
    intros Hfin. exists (evs1 ++ evs2).
    assert (w' = w2) as -> by (destruct r2; by injection Hfin).
    split; [by rewrite Htr2, Htr1, app_assoc|].
    intros acc. by rewrite foldl_app, Hg2, Hg1.
Qed.

Lemma old_dqn_sampling_guarded fuel cfg :
  sampling_guarded (EpisodicRun.dqn rng process_obs fuel cfg).1 = true.
Proof.
  unfold EpisodicRun.dqn.
  destruct (action_space env_fn); try done.
  rewrite bind_run. simpl.
  match goal with
  | |- context [EpisodicRun.run_epochs ?r ?p ?f ?c ?n ?k ?w0] =>
      destruct (EpisodicRun.run_epochs r p f c n k w0) as [w r0] eqn:Hrun
  end.
  apply old_run_epochs_run in Hrun as (evs & Htr & Hg). simpl in *.
  rewrite Htr. unfold sampling_guarded. simpl. by rewrite Hg.
Qed.

End OldRunFacts.

(** X14. Given fuel for [epoch_steps + 1] passes the older
    [train_one_epoch] reaches its end unless a call raises, and its three
    lists then have one entry per episode: equally many losses, returns and
    lengths; every length is at least 1 (no empty episode is ever recorded,
    also when the budget runs out on a done step) and the lengths add up to
    [max(0, epoch_steps)], which is also the number of environment steps
    taken and the advance of the global [total_t]. *)
Theorem older_epoch_result_shape `{Approximator} `{GymEnv}
    (rng : nat → Stepwise.draw) (process_obs : Buffer.Obs → env_state → Buffer.Obs)
    (fuel : nat) (cfg : EpisodicRun.config) (num_actions : nat) (w : Stepwise.world) :
  (Z.to_nat (EpisodicRun.epoch_steps cfg) + 1 ≤ fuel)%nat →
  match EpisodicRun.train_one_epoch rng process_obs fuel cfg num_actions w with
  | (_, Ok None) => False
  | (_, Raise _) => True
  | (w', Ok (Some (loss, rets, lens))) =>
      ∃ evs, Stepwise.trace w' = Stepwise.trace w ++ evs ∧
        length loss = length lens ∧ length rets = length lens ∧
        Forall (λ k, 1 ≤ k)%nat lens ∧
        Z.of_nat (list_sum lens) = Z.max 0 (EpisodicRun.epoch_steps cfg) ∧
        length (TraceSpec.done_flags evs) = list_sum lens ∧
        Stepwise.total_t w' = (Stepwise.total_t w + list_sum lens)%nat
  end.
Proof.
  intros Hfuel. unfold EpisodicRun.train_one_epoch.
  destruct (EpisodicRun.epoch_loop rng process_obs fuel cfg num_actions
              (EpisodicRun.Locals false [] [] [] 0) w) as [w' res] eqn:Hrun.
  destruct res as [[[[loss rets] lens]|]|e]; [| |exact I].
  - apply epoch_loop_run in Hrun as (evs & Htr & _ & new & Hlens & Hpos & Hsum & Hrets
                                     & Hloss & _ & _ & Hsteps & Htot & _).
    cbn [EpisodicRun.epoch_ep_lens EpisodicRun.epoch_ep_rets EpisodicRun.epoch_ep_loss
         EpisodicRun.epoch_t app length] in *.
    subst lens. rewrite Z.sub_0_r in Hsum.
    exists evs. split; [exact Htr|]. split; [lia|]. split; [lia|].
    split; [exact Hpos|]. split; [exact Hsum|]. split; [exact Hsteps|exact Htot].
  - apply epoch_loop_fuel in Hrun; [exact Hrun|].
    cbn [EpisodicRun.epoch_t]. rewrite Z.sub_0_r. lia.
Qed.

Lemma older_epoch_result_shape_witness :
  ∃ w' loss rets lens,
    EpisodicRun.train_one_epoch Demo.rng Demo.preprocess_fn 7 (DemoOld.cfg 1 6 true) 2
      (Demo.world0 3) = (w', Ok (Some (loss, rets, lens))) ∧
    length rets = length lens ∧ Forall (λ k, 1 ≤ k)%nat lens.
Proof.
  pose proof (older_epoch_result_shape Demo.rng Demo.preprocess_fn 7
                (DemoOld.cfg 1 6 true) 2 (Demo.world0 3)) as Hthm.
  destruct (EpisodicRun.train_one_epoch Demo.rng Demo.preprocess_fn 7
              (DemoOld.cfg 1 6 true) 2 (Demo.world0 3))
    as [w' [[[[loss rets] lens]|]|e]] eqn:Hrun.
  - destruct Hthm as (evs & _ & _ & Hrets & Hpos & _); [simpl; lia|].
    exists w', loss, rets, lens. split; [reflexivity|]. split; [exact Hrets|exact Hpos].
  - exfalso. apply Hthm. simpl. lia.
  - vm_compute in Hrun. discriminate Hrun.
Defined.

(** X15. In an epoch of the older trainer that returns, the environment is
    reset once per recorded episode, and [env.render()] is called at most
    once, before the first reset: once when [render] is set and
    [epoch_steps > 0], never otherwise. *)
Theorem older_epoch_environment_calls `{Approximator} `{GymEnv}
    (rng : nat → Stepwise.draw) (process_obs : Buffer.Obs → env_state → Buffer.Obs)
    (fuel : nat) (cfg : EpisodicRun.config) (num_actions : nat) (w w' : Stepwise.world)
    (loss rets : list Q) (lens : list nat) :
  EpisodicRun.train_one_epoch rng process_obs fuel cfg num_actions w
  = (w', Ok (Some (loss, rets, lens))) →
  ∃ evs, Stepwise.trace w' = Stepwise.trace w ++ evs ∧
    RunSpec.reset_calls evs = length lens ∧
    RunSpec.render_calls evs
    = (if EpisodicRun.render cfg && (0 <? EpisodicRun.epoch_steps cfg)%Z then 1 else 0)%nat ∧
    (RunSpec.render_calls evs = 1%nat → ∃ evs', evs = Stepwise.EnvRender :: Stepwise.EnvReset :: evs').
Proof.
  intros Hrun. unfold EpisodicRun.train_one_epoch in Hrun.
  apply epoch_loop_run in Hrun
    as (evs & Htr & _ & new & Hlens & _ & _ & _ & _ & Hresets & Hrenders & _ & _ & _ & Hfirst).
  cbn [EpisodicRun.epoch_ep_lens EpisodicRun.finished_rendering_this_epoch
       EpisodicRun.epoch_t app negb andb] in *.
  subst lens. exists evs. split; [exact Htr|]. split; [exact Hresets|].
  split; [exact Hrenders|].
  intros Hone. apply Hfirst. rewrite Hone in Hrenders.
  destruct (EpisodicRun.render cfg && (0 <? EpisodicRun.epoch_steps cfg)%Z);
    [reflexivity|discriminate Hrenders].
Qed.

Lemma older_epoch_environment_calls_witness :
  ∃ w' loss rets lens evs,
    EpisodicRun.train_one_epoch Demo.rng Demo.preprocess_fn 7 (DemoOld.cfg 1 6 true) 2
      (Demo.world0 3) = (w', Ok (Some (loss, rets, lens))) ∧
    Stepwise.trace w' = Stepwise.trace (Demo.world0 3) ++ evs ∧
    RunSpec.render_calls evs = 1%nat.
Proof.
  pose proof (older_epoch_environment_calls Demo.rng Demo.preprocess_fn 7
                (DemoOld.cfg 1 6 true) 2 (Demo.world0 3)) as Hthm.
  destruct (EpisodicRun.train_one_epoch Demo.rng Demo.preprocess_fn 7
              (DemoOld.cfg 1 6 true) 2 (Demo.world0 3))
    as [w' [[[[loss rets] lens]|]|e]] eqn:Hrun.
  - destruct (Hthm w' loss rets lens eq_refl) as (evs & Htr & _ & Hrend & _).
    exists w', loss, rets, lens, evs. split; [reflexivity|]. split; [exact Htr|exact Hrend].
  - vm_compute in Hrun. discriminate Hrun.
  - vm_compute in Hrun. discriminate Hrun.
Defined.

(** X16. In the older trainer the target update is keyed to the step count
    of the current epoch, which restarts at 0: an epoch of at most 1000
    steps that returns leaves the target variables exactly as they were, so
    with [epoch_steps <= 1000] training never moves the target network. *)
Theorem older_target_frozen_in_short_epochs `{Approximator} `{GymEnv}
    (rng : nat → Stepwise.draw) (process_obs : Buffer.Obs → env_state → Buffer.Obs)
    (fuel : nat) (cfg : EpisodicRun.config) (num_actions : nat) (w w' : Stepwise.world)
    (res : EpisodicRun.epoch_result) :
  (EpisodicRun.epoch_steps cfg ≤ 1000)%Z →
  EpisodicRun.train_one_epoch rng process_obs fuel cfg num_actions w = (w', Ok (Some res)) →
  Stepwise.q_model_targ w' = Stepwise.q_model_targ w.
Proof.
  intros Hshort Hrun. unfold EpisodicRun.train_one_epoch in Hrun.
  destruct res as [[loss rets] lens].
  apply epoch_loop_run in Hrun
    as (evs & _ & _ & new & _ & _ & _ & _ & _ & _ & _ & _ & _ & Hfrozen & _).
  apply Hfrozen; [|exact Hshort]. cbn [EpisodicRun.epoch_t]. lia.
Qed.

Lemma older_target_frozen_in_short_epochs_witness :
  ∃ w' res,
    EpisodicRun.train_one_epoch Demo.rng Demo.preprocess_fn 7 (DemoOld.cfg 1 6 false) 2
      (Demo.world0 3) = (w', Ok (Some res)) ∧
    Stepwise.q_model_targ w' = [[0; 0]].
Proof.
  pose proof (older_target_frozen_in_short_epochs Demo.rng Demo.preprocess_fn 7
                (DemoOld.cfg 1 6 false) 2 (Demo.world0 3)) as Hthm.
  destruct (EpisodicRun.train_one_epoch Demo.rng Demo.preprocess_fn 7
              (DemoOld.cfg 1 6 false) 2 (Demo.world0 3))
    as [w' [[res|]|e]] eqn:Hrun.
  - exists w', res. split; [reflexivity|].
    apply (Hthm w' res); [simpl; lia|reflexivity].
  - vm_compute in Hrun. discriminate Hrun.
  - vm_compute in Hrun. discriminate Hrun.
Defined.

(** X17. The older trainer keeps the same order as the newer one: in every
    run of its [dqn], whatever the configuration and however it ends, each
    [sample] call comes right after a [store] call and finds at least one
    stored transition. *)
Theorem older_sampling_follows_store `{Approximator} `{GymEnv}
    (rng : nat → Stepwise.draw) (process_obs : Buffer.Obs → env_state → Buffer.Obs)
    (fuel : nat) (cfg : EpisodicRun.config) :
  TraceSpec.sampling_guarded (EpisodicRun.dqn rng process_obs fuel cfg).1 = true.
Proof. apply old_dqn_sampling_guarded. Qed.

(** X18. The guard of the target copy in the step-granularity [update]
    never fires at the first step of an epoch ([t = 0]); for
    [target_update_freq] 0, 1 or 2 it fires at every later step; for
    [target_update_freq >= 3] it fires exactly at the positive multiples of
    [target_update_freq - 1].  So with [2 <= target_update_freq <=
    epoch_steps], the range the assertion of [dqn] admits, some step of every
    epoch copies the target, the first being [t = target_update_freq - 1]. *)
Theorem copy_guard_schedule (cfg : Stepwise.config) (t : Z) :
  (Stepwise.copy_due cfg t = true → (0 < t)%Z) ∧
  ((0 ≤ Stepwise.target_update_freq cfg ≤ 2)%Z →
     Stepwise.copy_due cfg t = (0 <? t)%Z) ∧
  ((3 ≤ Stepwise.target_update_freq cfg)%Z →
     (Stepwise.copy_due cfg t = true
      ↔ (0 < t)%Z ∧ ∃ k, t = (k * (Stepwise.target_update_freq cfg - 1))%Z)) ∧
  ((2 ≤ Stepwise.target_update_freq cfg ≤ Stepwise.epoch_steps cfg)%Z →
     Stepwise.copy_due cfg (Stepwise.target_update_freq cfg - 1) = true ∧
     (0 ≤ Stepwise.target_update_freq cfg - 1 < Stepwise.epoch_steps cfg)%Z ∧
     (∀ t', (0 ≤ t' < Stepwise.target_update_freq cfg - 1)%Z →
            (3 ≤ Stepwise.target_update_freq cfg)%Z →
            Stepwise.copy_due cfg t' = false)).
Proof.
  unfold Stepwise.copy_due. split; [|split; [|split]].
  - intros Hdue. apply andb_true_iff in Hdue as [Hpos _]. by apply Z.ltb_lt.
  - intros Hf.
    assert (Stepwise.target_update_freq cfg = 0 ∨ Stepwise.target_update_freq cfg = 1
            ∨ Stepwise.target_update_freq cfg = 2)%Z as [-> | [-> | ->]] by lia.
    + assert (t mod (0 - 1) = 0)%Z as ->
        by (apply Z.mod_divide; [lia|]; exists (- t)%Z; lia).
      rewrite Z.eqb_refl, orb_true_r. apply andb_true_r.
    + rewrite Z.eqb_refl. apply andb_true_r.
    + change (2 - 1)%Z with 1%Z. rewrite Z.mod_1_r, Z.eqb_refl, orb_true_r.
      apply andb_true_r.
  - intros Hf. rewrite andb_true_iff, Z.ltb_lt, orb_true_iff, !Z.eqb_eq.
    split.
    + intros [Hpos [Hone|Hmod]]; [lia|]. split; [done|].
      apply Z.mod_divide in Hmod; [|lia]. destruct Hmod as [k Hk]. by exists k.
    + intros [Hpos [k Hk]]. split; [done|]. right. rewrite Hk. apply Z.mod_mul. lia.
  - intros Hf. split; [|split; [lia|]].
    + rewrite Z_mod_same_full, Z.eqb_refl, orb_true_r, andb_true_r. apply Z.ltb_lt. lia.
    + intros t' Ht' H3. apply andb_false_iff.
      destruct (Z.ltb_spec 0 t'); [right|by left].
      apply orb_false_iff. split; [apply Z.eqb_neq; lia|].
      apply Z.eqb_neq. rewrite Z.mod_small by lia. lia.
Qed.
